(** * rbfopt_utils: the surrogate-model utilities of RBFOpt

    A shallow embedding of [src/rbfopt_utils.py].  Floating-point numbers
    are modelled by exact rationals ([Q], compared with [==]); Python
    integers by [Z]; numpy vectors by lists and 2D arrays by lists of rows.
    Where the source turns Python integers into a float, in the quotient of
    [get_sigma_n], the float is the binary64 number nearest to the exact
    quotient.  Python exceptions are explicit: a function that can raise
    returns a [result]. *)

From Stdlib Require Import ZArith QArith Qabs List String Ascii Bool Lia Lqa Qfield.
From Stdlib Require Import Qround Qpower.
From Equations Require Import Equations.
Import ListNotations.

Set Implicit Arguments.

Local Open Scope Z_scope.

(** ** Python outcomes *)

Module Py.

(** The exceptions [rbfopt_utils] can raise.  [SystemExit] is what
    [sys.exit()] raises; called without an argument it carries no exit
    code and the interpreter terminates with status 0. *)
Inductive exn : Type :=
| AssertionError
| ValueError (msg : string)
| IndexError
| TypeError
| ZeroDivisionError
| OverflowError
| UnboundLocalError
| LinAlgError (msg : string)
| SystemExit.

Inductive result (A : Type) : Type :=
| Ok (a : A)
| Raise (e : exn).
Arguments Ok {A} a.
Arguments Raise {A} e.

Definition bind {A B} (r : result A) (k : A -> result B) : result B :=
  match r with
  | Ok a => k a
  | Raise e => Raise e
  end.

(** [assert(b)] followed by the rest of the body. *)
Definition assert {A} (b : bool) (k : result A) : result A :=
  if b then k else Raise AssertionError.

End Py.
Import Py.

Notation "x <- c ;; k" := (bind c (fun x => k))
  (at level 61, c at next level, right associativity).
Notation "'assert!' b ;; k" := (assert b k)
  (at level 61, b at next level, right associativity).

(** ** Data *)

Definition vector := list Q.
Definition matrix := list (list Q).

(** Modelled from the spec: the class [rbfopt_settings.RbfSettings] is not
    part of the sources.  The record holds the fields that [rbfopt_utils]
    reads from a settings bundle (spec, section 3: kernel name,
    initial-design strategy, domain/range scaling mode, dynamism-clipping
    mode, numeric zero-tolerance, error tolerances, schedule parameters). *)
Record RbfSettings : Type := {
  rbf : string;
  init_strategy : string;
  domain_scaling : string;
  function_scaling : string;
  dynamism_clipping : string;
  dynamism_threshold : Q;
  eps_zero : Q;
  fast_objfun_rel_error : Q;
  fast_objfun_abs_error : Q;
  target_objval : Q;
  num_global_searches : Z
}.

(** ** Scheduling arithmetic *)

Definition Qlt_bool (a b : Q) : bool := negb (Qle_bool b a).

(** The integer nearest to [x]; of two nearest ones, the even one. *)
Definition round_half_even (x : Q) : Z :=
  let f := Qfloor x in
  let frac := (x - inject_Z f)%Q in
  if Qlt_bool frac (1 # 2) then f
  else if Qlt_bool (1 # 2) frac then f + 1
  else if Z.even f then f else f + 1.

(** For [0 < x], the exponent [e] with [2^e <= x < 2^(e+1)]. *)
Definition ilog2 (x : Q) : Z :=
  let e := Z.log2 (Qnum x) - Z.log2 (Zpos (Qden x)) in
  if Qle_bool (2 ^ e) x then e else e - 1.

(** The binary64 float nearest to [x], ties to even: 53 significant bits,
    exponents from -1022 (below that the spacing stays [2^-1074], and the
    smallest quotients become zero); [None] when the rounded value would
    be [2^1024] or more. *)
Definition binary64 (x : Q) : option Q :=
  if Qeq_bool x 0 then Some 0%Q
  else
    let e := Z.max (ilog2 (Qabs x)) (-1022) in
    let ulp := (2 ^ (e - 52))%Q in
    let y := (inject_Z (round_half_even (x / ulp)) * ulp)%Q in
    if Qle_bool (2 ^ 1024) (Qabs y) then None else Some y.

(** [int(math.floor(a / b))] on Python integers, under
    [from __future__ import division]: [a / b] raises [ZeroDivisionError]
    on a zero divisor and is otherwise the float nearest to the quotient,
    or an [OverflowError] when that is too large for a float;
    [math.floor] and [int] then give the floor of that float, which is the
    floor of the exact quotient only as far as the rounding allows. *)
Definition floor_div (a b : Z) : result Z :=
  if b =? 0 then Raise ZeroDivisionError
  else match binary64 (inject_Z a / inject_Z b) with
       | None => Raise OverflowError
       | Some x => Ok (Qfloor x)
       end.

(** [get_sigma_n]: both assertions are checked at every call, so the
    recursion on [current_step - 1] stops at 1 (or at a failed assertion).
    The left operand of the subtraction, the recursive call, is evaluated
    before the division.  The interpreter's limit on the recursion depth is
    not part of the model. *)
Equations? get_sigma_n (k current_step num_global_searches num_initial_points : Z)
  : result Z by wf (Z.to_nat current_step) lt :=
  get_sigma_n k current_step num_global_searches num_initial_points
    with Z_le_dec 1 current_step := {
    | right _ => Raise AssertionError
    | left _ with Z_le_dec 0 num_global_searches := {
      | right _ => Raise AssertionError
      | left _ with Z.eq_dec current_step 1 := {
        | left _ => Ok (k - 1)
        | right _ =>
            s <- get_sigma_n k (current_step - 1) num_global_searches
                   num_initial_points ;;
            d <- floor_div (k - num_initial_points) num_global_searches ;;
            Ok (s - d) } } }.
Proof. lia. Qed.

(** ** Python and numpy primitives *)

Local Open Scope Q_scope.

(** The quotient of two floats: a rational, or one of the floats that
    are none. *)
Inductive quotient : Type :=
| Finite (x : Q)
| PlusInf
| MinusInf
| NaN.

(** [a / b] on float scalars.  A zero divisor has no rational quotient:
    between Python floats the division raises [ZeroDivisionError]; when
    an operand is a NumPy float ([numpy_operand]) it gives [inf], [-inf]
    or [nan] by the sign of [a], with a warning. *)
Definition py_div (numpy_operand : bool) (a b : Q) : result quotient :=
  if Qeq_bool b 0 then
    if numpy_operand
    then Ok (if Qlt_bool 0 a then PlusInf
             else if Qlt_bool a 0 then MinusInf else NaN)
    else Raise ZeroDivisionError
  else Ok (Finite (a / b)).

(** [x > t] for a quotient [x]: [inf] is above every number, and [nan]
    compares false. *)
Definition exceeds (x : quotient) (t : Q) : bool :=
  match x with
  | Finite x => Qlt_bool t x
  | PlusInf => true
  | MinusInf | NaN => false
  end.

(** [max(0.0, x)]. *)
Definition py_max0 (x : Q) : Q := if Qlt_bool 0 x then x else 0.

Fixpoint mapM {A B} (f : A -> result B) (l : list A) : result (list B) :=
  match l with
  | [] => Ok []
  | a :: l' => b <- f a ;; bs <- mapM f l' ;; Ok (b :: bs)
  end.

(** [v[j]] for [0 <= j]: [IndexError] out of range. *)
Definition getitem {A} (v : list A) (j : nat) : result A :=
  match nth_error v j with
  | Some a => Ok a
  | None => Raise IndexError
  end.

(** [v[i]] for a Python integer [i]: negative indices count from the end. *)
Definition getitem_int {A} (v : list A) (i : Z) : result A :=
  let len := Z.of_nat (List.length v) in
  if ((0 <=? i) && (i <? len))%Z then getitem v (Z.to_nat i)
  else if ((- len <=? i) && (i <? 0))%Z then getitem v (Z.to_nat (i + len))
  else Raise IndexError.

(** [a[idx]] where [idx] is an integer index array. *)
Definition take (a : vector) (idx : list Z) : result vector :=
  mapM (getitem_int a) idx.

(** The list with position [j] overwritten; unchanged when [j] is not a
    position (the callers check the range first). *)
Fixpoint update {A} (l : list A) (j : nat) (a : A) : list A :=
  match l, j with
  | [], _ => []
  | _ :: l', O => a :: l'
  | x :: l', S j' => x :: update l' j' a
  end.

(** [m[i, j] = v], in place: [IndexError] out of range. *)
Definition setitem2 (m : matrix) (i j : nat) (v : Q) : result matrix :=
  match nth_error m i with
  | Some row =>
      if (j <? List.length row)%nat then Ok (update m i (update row j v))
      else Raise IndexError
  | None => Raise IndexError
  end.

(** Elementwise binary operation; all uses are on arrays of the same
    length, so nothing is broadcast. *)
Fixpoint map2 {A B C} (f : A -> B -> C) (a : list A) (b : list B) : list C :=
  match a, b with
  | x :: a', y :: b' => f x y :: map2 f a' b'
  | _, _ => []
  end.

Definition vadd : vector -> vector -> vector := map2 Qplus.
Definition vsub : vector -> vector -> vector := map2 Qminus.
Definition vmul : vector -> vector -> vector := map2 Qmult.
Definition vdiv : vector -> vector -> vector := map2 Qdiv.

(** Equality of vectors as numbers. *)
Definition veq : vector -> vector -> Prop := Forall2 Qeq.

(** [m.T] for a 2D array given by its rows. *)
Fixpoint transpose (m : matrix) : matrix :=
  match m with
  | [] => []
  | [r] => map (fun x => [x]) r
  | r :: rs => map2 cons r (transpose rs)
  end.

(** [np.vstack((a, b))] on blocks of as many columns. *)
Definition vstack (a b : matrix) : matrix := a ++ b.

(** Two blocks of as many rows side by side, and [np.hstack((a, b))],
    which refuses blocks that differ in their number of rows (newer
    versions of numpy go on to name the two sizes in the message). *)
Definition beside (a b : matrix) : matrix := map2 (@app Q) a b.

Definition hstack (a b : matrix) : result matrix :=
  if (List.length a =? List.length b)%nat then Ok (beside a b)
  else Raise (ValueError
         "all the input array dimensions except for the concatenation axis must match exactly").

(** [m[:, j]]. *)
Definition column (m : matrix) (j : nat) : result vector :=
  mapM (fun row => getitem row j) m.

(** [m[np.abs(m) < eps] = 0]. *)
Definition zero_tiny (eps : Q) (m : matrix) : matrix :=
  map (map (fun x => if Qlt_bool (Qabs x) eps then 0 else x)) m.

(** [np.clip(a, None, hi)]. *)
Definition clip_max (a : vector) (hi : Q) : vector :=
  map (fun v => if Qle_bool v hi then v else hi) a.

(** [np.sort]. *)
Fixpoint insert_sorted (x : Q) (l : vector) : vector :=
  match l with
  | [] => [x]
  | y :: l' => if Qle_bool x y then x :: l else y :: insert_sorted x l'
  end.

Definition sort (l : vector) : vector := fold_right insert_sorted [] l.

(** [itertools.product(pool, repeat=r)]: all tuples, in lexicographic
    order of the positions in [pool], the last position varying fastest. *)
Fixpoint product {A} (pool : list A) (r : nat) : list (list A) :=
  match r with
  | O => [[]]
  | S r' => flat_map (fun x => map (cons x) (product pool r')) pool
  end.

Definition dquote : string := String (ascii_of_nat 34) EmptyString.

Definition sum (v : vector) : Q := fold_right Qplus 0 v.

(** [np.insert(a, n, 1, axis=1)] on one row: the value goes before
    position [n]; a negative [n] counts from the end. *)
Definition insert_at (row : vector) (n : Z) (v : Q) : result vector :=
  let len := Z.of_nat (List.length row) in
  if ((0 <=? n) && (n <=? len))%Z
  then Ok (firstn (Z.to_nat n) row ++ v :: skipn (Z.to_nat n) row)
  else if ((- len <=? n) && (n <? 0))%Z
  then Ok (firstn (Z.to_nat (n + len)) row ++ v :: skipn (Z.to_nat (n + len)) row)
  else Raise IndexError.

Definition insert_column (a : matrix) (n : Z) (v : Q) : result matrix :=
  mapM (fun row => insert_at row n v) a.

(** [np.ones([r, c])] and [np.zeros((r, c))]. *)
Definition full (v : Q) (r c : Z) : result matrix :=
  if ((r <? 0) || (c <? 0))%Z
  then Raise (ValueError "negative dimensions are not allowed")
  else Ok (repeat (repeat v (Z.to_nat c)) (Z.to_nat r)).

(** [np.zeros(p)]. *)
Definition zeros (p : Z) : result vector :=
  if (p <? 0)%Z then Raise (ValueError "negative dimensions are not allowed")
  else Ok (repeat 0 (Z.to_nat p)).

(** [np.empty([r, c])]: the entries are whatever the memory holds. *)
Definition empty (uninit : nat -> nat -> Q) (r c : nat) : matrix :=
  map (fun i => map (uninit i) (seq 0 c)) (seq 0 r).

(** [np.median]: the middle of the sorted values, the mean of the two
    middle ones for an even count, [nan] for no value at all. *)
Definition median (nan : Q) (a : vector) : Q :=
  let s := sort a in
  let n := List.length s in
  match n with
  | O => nan
  | _ => if Nat.even n
         then (nth (n / 2 - 1) s 0 + nth (n / 2) s 0) / 2
         else nth (n / 2) s 0
  end.

(** ** The utilities *)

Section Utils.

(** Real functions of the Python runtime ([math.log], [np.log], the
    square root behind [** 0.5] and [cdist]); [GAMMA] is a constant of
    [rbfopt_config], which is not part of the sources. *)
Variable log : Q -> Q.
Variable sqrt : Q -> Q.
Variable GAMMA : Q.
(** What [np.median] gives for an empty array, and what [np.empty]
    leaves in a fresh array. *)
Variable nan : Q.
Variable uninit : nat -> nat -> Q.
(** Whether a scalar argument of the call ([fmin], [fmax]) is a NumPy
    float, as the entries of an array are, and not a Python float: the two
    differ when they are divided by zero. *)
Variable numpy_scalars : bool.
(** [np.linalg.solve] and [matrix.getI]: the solution or inverse, or the
    message of the [LinAlgError] raised for a singular system. *)
Variable linalg_solve : matrix -> vector -> string + vector.
Variable linalg_inv : matrix -> string + matrix.

(** [math.log]: a [ValueError] outside the domain. *)
Definition math_log (x : Q) : result Q :=
  if Qle_bool x 0 then Raise (ValueError "math domain error") else Ok (log x).

(** *** Radial basis functions *)

Definition _cubic (r : Q) : result Q := Ok (r * r * r).

Definition _thin_plate_spline (r : Q) : result Q :=
  if Qeq_bool r 0 then Ok 0
  else l <- math_log r ;; Ok (l * r * r).

Definition _linear (r : Q) : result Q := Ok r.

Definition _multiquadric (r : Q) : result Q :=
  Ok (sqrt (r * r + GAMMA * GAMMA)).

(** The chain of [if]/[elif] has no [else]: for any other name the
    function falls off its end and returns [None]. *)
Definition get_rbf_function (settings : RbfSettings) : option (Q -> result Q) :=
  if (rbf settings =? "cubic")%string then Some _cubic
  else if (rbf settings =? "thin_plate_spline")%string then Some _thin_plate_spline
  else if (rbf settings =? "linear")%string then Some _linear
  else if (rbf settings =? "multiquadric")%string then Some _multiquadric
  else None.

Definition get_degree_polynomial (settings : RbfSettings) : Z :=
  if ((rbf settings =? "cubic") || (rbf settings =? "thin_plate_spline"))%string
  then 1%Z
  else if ((rbf settings =? "linear") || (rbf settings =? "multiquadric"))%string
  then 0%Z
  else (-1)%Z.

Definition get_size_P_matrix (settings : RbfSettings) (n : Z) : Z :=
  if ((rbf settings =? "cubic") || (rbf settings =? "thin_plate_spline"))%string
  then (n + 1)%Z
  else if ((rbf settings =? "linear") || (rbf settings =? "multiquadric"))%string
  then 1%Z
  else 0%Z.

(** *** Corner points *)

(** The inner loop [for (j, bound) in enumerate(corner)], from column [j]
    on, writing row [i] of [node_pos]. *)
Fixpoint fill_corner (var_lower var_upper : vector) (i j : nat)
         (corner : list ascii) (node_pos : matrix) : result matrix :=
  match corner with
  | [] => Ok node_pos
  | bound :: rest =>
      v <- (if Ascii.eqb bound "l" then getitem var_lower j
            else getitem var_upper j) ;;
      node_pos' <- setitem2 node_pos i j v ;;
      fill_corner var_lower var_upper i (S j) rest node_pos'
  end.

(** The outer loop [for corner in itertools.product(...)], from row [i] on. *)
Fixpoint fill_corners (var_lower var_upper : vector) (i : nat)
         (corners : list (list ascii)) (node_pos : matrix) : result matrix :=
  match corners with
  | [] => Ok node_pos
  | corner :: rest =>
      node_pos' <- fill_corner var_lower var_upper i 0 corner node_pos ;;
      fill_corners var_lower var_upper (S i) rest node_pos'
  end.

Definition get_all_corners (var_lower var_upper : vector) : result matrix :=
  assert! (List.length var_lower =? List.length var_upper)%nat ;;
  let n := List.length var_lower in
  let node_pos := empty uninit (2 ^ n) n in
  fill_corners var_lower var_upper 0
    (product ["l"; "u"]%char (List.length var_lower)) node_pos.

(** *** Interpolation system *)

(** Euclidean distance, and [scipy.spatial.distance.cdist]. *)
Definition distance (p1 p2 : vector) : Q :=
  sqrt (sum (map (fun d => d * d) (vsub p1 p2))).

Definition cdist (XA XB : matrix) : matrix :=
  map (fun x => map (distance x) XB) XA.

(** [np.vectorize(f)(a)]: refuses an input without entries, and calling
    [None] is a [TypeError]. *)
Definition vectorize (f : option (Q -> result Q)) (a : matrix) : result matrix :=
  match List.concat a with
  | [] => Raise (ValueError
            "cannot call `vectorize` on size 0 inputs unless `otypes` is set")
  | _ => match f with
         | None => Raise TypeError
         | Some f => mapM (mapM f) a
         end
  end.

Definition get_rbf_matrix (settings : RbfSettings) (n k : Z)
           (node_pos : matrix) : result matrix :=
  assert! (Z.of_nat (List.length node_pos) =? k)%Z ;;
  let rbf_fun := get_rbf_function settings in
  let p := get_size_P_matrix settings n in
  P <- (if (p =? n + 1)%Z then insert_column node_pos n 1
        else if (p =? 1)%Z then full 1 k 1
        else Raise (ValueError ("Rbf " ++ dquote ++ rbf settings ++ dquote
                                ++ " not implemented yet")%string)) ;;
  let PTr := transpose P in
  let dist := cdist node_pos node_pos in
  Phi <- vectorize rbf_fun dist ;;
  top <- hstack Phi P ;;
  Z0 <- full 0 p p ;;
  bottom <- hstack PTr Z0 ;;
  let A := vstack top bottom in
  Ok (zero_tiny (eps_zero settings) A).

(** Lines printed on [sys.stderr], and the outcome. *)
Definition io (A : Type) : Type := list string * result A.

Definition get_matrix_inverse (settings : RbfSettings) (Amat : matrix)
  : io matrix :=
  match linalg_inv Amat with
  | inl e =>
      (["Exception raised trying to invert the RBF matrix"%string; e],
       Raise (LinAlgError e))
  | inr Amatinv => ([], Ok (zero_tiny (eps_zero settings) Amatinv))
  end.

(** [Amat.shape]. *)
Definition shape (m : matrix) : Z * Z :=
  (Z.of_nat (List.length m),
   match m with [] => 0%Z | r :: _ => Z.of_nat (List.length r) end).

Definition get_rbf_coefficients (settings : RbfSettings) (n k : Z)
           (Amat : matrix) (node_val : vector) : io (vector * vector) :=
  if negb (Z.of_nat (List.length node_val) =? k)%Z
  then ([], Raise AssertionError)
  else
    let p := get_size_P_matrix settings n in
    if negb ((fst (shape Amat) =? k + p) && (snd (shape Amat) =? k + p))%Z
    then ([], Raise AssertionError)
    else
      match zeros p with
      | Raise e => ([], Raise e)
      | Ok z =>
          let rhs := node_val ++ z in
          match linalg_solve Amat rhs with
          | inl e =>
              (["Exception raised in the solution of the RBF linear system"%string;
                "Exception details:"%string; e],
               Raise SystemExit)
          | inr solution =>
              ([], Ok (firstn (Z.to_nat k) solution,
                       skipn (Z.to_nat k) solution))
          end
      end.

(** *** Fast-evaluation error bounds *)

Definition get_fast_error_bounds (settings : RbfSettings) (value : Q) : vector :=
  [ (- Qabs value) * fast_objfun_rel_error settings
      - fast_objfun_abs_error settings;
    Qabs value * fast_objfun_rel_error settings
      + fast_objfun_abs_error settings ].

Definition bulk_get_fast_error_bounds (settings : RbfSettings)
           (values : vector) : matrix :=
  transpose
    (vstack
       [map (fun v => (- Qabs v) * fast_objfun_rel_error settings
                      - fast_objfun_abs_error settings) values]
       [map (fun v => Qabs v * fast_objfun_rel_error settings
                      + fast_objfun_abs_error settings) values]).

(** The shift taken from the array of [get_fast_error_bounds] is a NumPy
    float, and so is then the numerator of the quotient. *)
Definition compute_gap (settings : RbfSettings) (fmin : Q)
           (is_best_fast : bool) : result quotient :=
  let gap_den :=
    if Qle_bool (eps_zero settings) (Qabs (target_objval settings))
    then Qabs (target_objval settings) else 1 in
  gap_shift <- (if is_best_fast
                then getitem (get_fast_error_bounds settings fmin) 1
                else Ok 0) ;;
  py_div (is_best_fast || numpy_scalars)
         (fmin + gap_shift - target_objval settings) gap_den.

(** *** Range and domain transformations *)

(** The test of [transform_function_values] for too high a dynamism,
    with Python's short-circuit evaluation of [and] and [or]. *)
Definition dynamism_check (settings : RbfSettings) (fmin fmax : Q) : result bool :=
  if negb (dynamism_clipping settings =? "off")%string then
    ratio_high <-
      (if Qlt_bool (eps_zero settings) (Qabs fmin)
       then r <- py_div numpy_scalars (Qabs fmax) (Qabs fmin) ;;
            Ok (exceeds r (dynamism_threshold settings))
       else Ok false) ;;
    if ratio_high then Ok true
    else Ok (Qle_bool (Qabs fmin) (eps_zero settings)
             && Qlt_bool (dynamism_threshold settings) (Qabs fmax))
  else Ok false.

(** The clipping stage: the value of [clip_val] (unbound when the test
    holds under a clipping mode other than the two handled) and of
    [fmax] after it. *)
Definition clip_values (settings : RbfSettings) (node_val : vector)
           (fmin fmax : Q) : result (option vector * Q) :=
  high <- dynamism_check settings fmin fmax ;;
  if high then
    if (dynamism_clipping settings =? "median")%string then
      let med := median nan node_val in
      Ok (Some (clip_max node_val med), med)
    else if (dynamism_clipping settings =? "clip_at_dyn")%string then
      let mult := if Qlt_bool (eps_zero settings) (Qabs fmin)
                  then Qabs fmin else 1 in
      Ok (Some (clip_max node_val (dynamism_threshold settings * mult)),
          dynamism_threshold settings * mult)
    else Ok (None, fmax)
  else Ok (Some node_val, fmax).

(** Reading a local variable. *)
Definition local {A} (x : option A) : result A :=
  match x with
  | Some a => Ok a
  | None => Raise UnboundLocalError
  end.

Definition nonempty {A} (l : list A) : bool :=
  match l with [] => false | _ => true end.

Definition transform_function_values (settings : RbfSettings)
           (node_val : vector) (fmin fmax : Q) (fast_node_index : list Z)
  : result (vector * Q * Q * matrix) :=
  clipped <- clip_values settings node_val fmin fmax ;;
  let (clip_val, fmax) := clipped in
  if (function_scaling settings =? "off")%string then
    cv <- local clip_val ;;
    err_b <- (if nonempty fast_node_index
              then fv <- take cv fast_node_index ;;
                   Ok (bulk_get_fast_error_bounds settings fv)
              else Ok []) ;;
    Ok (cv, fmin, fmax, err_b)
  else if (function_scaling settings =? "affine")%string then
    let denom := if Qlt_bool (eps_zero settings) (fmax - fmin)
                 then fmax - fmin else 1 in
    cv <- local clip_val ;;
    err_b <- (if nonempty fast_node_index
              then fv <- take cv fast_node_index ;;
                   Ok (map (map (fun b => b / denom))
                           (bulk_get_fast_error_bounds settings fv))
              else Ok []) ;;
    Ok (map (fun v => (v - fmin) / denom) cv, 0,
        if Qlt_bool (eps_zero settings) (fmax - fmin) then 1 else 0,
        err_b)
  else if (function_scaling settings =? "log")%string then
    shift <- (if negb (nonempty fast_node_index)
              then Ok (py_max0 (1 - fmin))
              else b <- getitem (get_fast_error_bounds settings fmin) 0 ;;
                   Ok (py_max0 (1 - fmin - b))) ;;
    scaled_err_b <-
      (if nonempty fast_node_index then
         cv <- local clip_val ;;
         fv <- take cv fast_node_index ;;
         let err_b := bulk_get_fast_error_bounds settings fv in
         lo <- column err_b 0 ;;
         let low := map log (vdiv (vadd (map (fun v => v + shift) fv) lo)
                                  (map (fun v => v + shift) fv)) in
         hi <- column err_b 1 ;;
         let up := map log (vdiv (vadd (map (fun v => v + shift) fv) hi)
                                 (map (fun v => v + shift) fv)) in
         Ok (transpose (vstack [low] [up]))
       else Ok []) ;;
    cv <- local clip_val ;;
    lmin <- math_log (fmin + shift) ;;
    lmax <- math_log (fmax + shift) ;;
    Ok (map (fun v => log (v + shift)) cv, lmin, lmax, scaled_err_b)
  else Raise (ValueError ("Function scaling " ++ dquote
                          ++ function_scaling settings ++ dquote
                          ++ " not implemented")%string).

Definition transform_domain (settings : RbfSettings)
           (var_lower var_upper point : vector) (reverse : bool)
  : result vector :=
  assert! (List.length var_lower =? List.length var_upper)%nat ;;
  assert! (List.length var_lower =? List.length point)%nat ;;
  if (domain_scaling settings =? "off")%string then Ok point
  else if (domain_scaling settings =? "affine")%string then
    if reverse then Ok (vadd (vmul point (vsub var_upper var_lower)) var_lower)
    else
      let var_diff := vsub var_upper var_lower in
      let var_diff := map (fun d => if Qeq_bool d 0 then 1 else d) var_diff in
      Ok (vdiv (vsub point var_lower) var_diff)
  else Raise (ValueError ("Domain scaling " ++ dquote
                          ++ domain_scaling settings ++ dquote
                          ++ " not implemented")%string).

End Utils.

(** ** Polling asynchronous results *)

(** A [multiprocessing.pool.AsyncResult] as far as the utilities use it:
    the answer of its [ready()] query. *)
Record AsyncResult : Type := { ready : bool }.

Section Polling.

(** What a task carries besides its handle is never looked at. *)
Variable T : Type.

Definition task : Type := AsyncResult * T.

Fixpoint results_ready (results : list task) : bool :=
  match results with
  | [] => false
  | res :: rest => if ready (fst res) then true else results_ready rest
  end.

(** The loop of [get_one_ready_index] over the indices still to visit;
    [stop] is returned when the loop ends without a [return]. *)
Fixpoint scan_ready (results : list task) (indices : list nat) (stop : nat)
  : result nat :=
  match indices with
  | [] => Ok stop
  | i :: rest =>
      res <- getitem results i ;;
      if ready (fst res) then Ok i else scan_ready results rest stop
  end.

Definition get_one_ready_index (results : list task) : result nat :=
  scan_ready results (rev (seq 0 (List.length results))) (List.length results).

(** The handle at index [j] is not ready (or [j] is not an index). *)
Definition pending (results : list task) (j : nat) : Prop :=
  forall res, nth_error results j = Some res -> ready (fst res) = false.

End Polling.

(** ** An exact instance of the linear-algebra primitives *)

(** Gauss-Jordan elimination over the rationals: the first row of [rows]
    with a nonzero entry in column [col], and the other rows. *)
Fixpoint pick_pivot (col : nat) (rows : matrix) : option (vector * matrix) :=
  match rows with
  | [] => None
  | r :: rs =>
      if Qeq_bool (nth col r 0) 0
      then match pick_pivot col rs with
           | Some (p, rest) => Some (p, r :: rest)
           | None => None
           end
      else Some (r, rs)
  end.

Definition eliminate (col : nat) (pivot r : vector) : vector :=
  map2 (fun a b => a - nth col r 0 * b) r pivot.

Fixpoint gauss_jordan (cols : list nat) (done todo : matrix) : option matrix :=
  match cols with
  | [] => Some done
  | c :: cs =>
      match pick_pivot c todo with
      | None => None
      | Some (p, rest) =>
          let p' := map (fun a => a / nth c p 0) p in
          gauss_jordan cs (map (eliminate c p') done ++ [p'])
                       (map (eliminate c p') rest)
      end
  end.

Definition identity (n : nat) : matrix :=
  map (fun i => map (fun j => if (i =? j)%nat then 1 else 0) (seq 0 n)) (seq 0 n).

(** [np.linalg.solve] and [matrix.getI] in exact arithmetic: a singular
    matrix is the one failure. *)
Definition exact_reduce (a rhs : matrix) : string + matrix :=
  let n := List.length a in
  match gauss_jordan (seq 0 n) [] (beside a rhs) with
  | Some rows => inr (map (fun r => map Qred (skipn n r)) rows)
  | None => inl "Singular matrix"%string
  end.

Definition exact_solve (a : matrix) (b : vector) : string + vector :=
  match exact_reduce a (map (fun x => [x]) b) with
  | inr rows => inr (List.concat rows)
  | inl e => inl e
  end.

Definition exact_inv (a : matrix) : string + matrix :=
  exact_reduce a (identity (List.length a)).

(** ** Lower corners *)

(** The loop [for i in range(n)] of [get_lower_corners] over the indices
    still to visit: row [i + 1] gets the upper bound in column [i]. *)
Fixpoint adjacent_corners (var_upper : vector) (indices : list nat)
         (node_pos : matrix) : result matrix :=
  match indices with
  | [] => Ok node_pos
  | i :: rest =>
      v <- getitem var_upper i ;;
      node_pos' <- setitem2 node_pos (i + 1) i v ;;
      adjacent_corners var_upper rest node_pos'
  end.

(** [np.tile(var_lower, (n + 1, 1))] is [n + 1] copies of the row. *)
Definition get_lower_corners (var_lower var_upper : vector) : result matrix :=
  assert! (List.length var_lower =? List.length var_upper)%nat ;;
  let n := List.length var_lower in
  let node_pos := repeat var_lower (n + 1) in
  adjacent_corners var_upper (seq 0 n) node_pos.

(** ** Batch form of the domain transformation, and the bounds *)

(** [points] is a 2D array: numpy applies the vectors of bounds to each of
    its rows.  [points[0]] raises [IndexError] when there is no row. *)
Definition bulk_transform_domain (settings : RbfSettings)
           (var_lower var_upper : vector) (points : matrix) (reverse : bool)
  : result matrix :=
  assert! (List.length var_lower =? List.length var_upper)%nat ;;
  first <- getitem points 0 ;;
  assert! (List.length var_lower =? List.length first)%nat ;;
  if (domain_scaling settings =? "off")%string then Ok points
  else if (domain_scaling settings =? "affine")%string then
    if reverse
    then Ok (map (fun point => vadd (vmul point (vsub var_upper var_lower))
                                    var_lower) points)
    else
      let var_diff := vsub var_upper var_lower in
      let var_diff := map (fun d => if Qeq_bool d 0 then 1 else d) var_diff in
      Ok (map (fun point => vdiv (vsub point var_lower) var_diff) points)
  else Raise (ValueError ("Domain scaling " ++ dquote
                          ++ domain_scaling settings ++ dquote
                          ++ " not implemented")%string).

Definition transform_domain_bounds (settings : RbfSettings)
           (var_lower var_upper : vector) : result (vector * vector) :=
  assert! (List.length var_lower =? List.length var_upper)%nat ;;
  if (domain_scaling settings =? "off")%string then Ok (var_lower, var_upper)
  else if (domain_scaling settings =? "affine")%string then
    Ok (repeat 0 (List.length var_lower), repeat 1 (List.length var_upper))
  else Raise (ValueError ("Domain scaling " ++ dquote
                          ++ domain_scaling settings ++ dquote
                          ++ " not implemented")%string).

(** ** The threshold of the current step *)

(** The local [num_initial_points] of [get_fmax_current_iter]; [n], the
    dimension of the problem, is a natural number. *)
Definition num_initial_points (settings : RbfSettings) (n : nat) : Z :=
  if (init_strategy settings =? "all_corners")%string
  then (2 ^ Z.of_nat n)%Z else (Z.of_nat n + 1)%Z.

Definition get_fmax_current_iter (settings : RbfSettings) (n : nat)
           (k current_step : Z) (node_val : vector) : result Q :=
  assert! (k =? Z.of_nat (List.length node_val))%Z ;;
  assert! (1 <=? k)%Z ;;
  assert! (1 <=? current_step)%Z ;;
  assert! (num_initial_points settings n <=? k)%Z ;;
  let sorted_node_val := sort node_val in
  s_n <- get_sigma_n k current_step (num_global_searches settings)
           (num_initial_points settings n) ;;
  getitem_int sorted_node_val s_n.

(** ** Distances *)

(** [a.size] of a 2D array, and its number of columns. *)
Definition size2 (a : matrix) : nat := List.length (List.concat a).

Definition columns (a : matrix) : nat :=
  match a with
  | [] => O
  | row :: _ => List.length row
  end.

(** [np.amin] of one row: the running minimum, from [x] on. *)
Fixpoint minimum (x : Q) (l : vector) : Q :=
  match l with
  | [] => x
  | y :: l' => minimum (if Qlt_bool y x then y else x) l'
  end.

Definition amin (row : vector) : result Q :=
  match row with
  | [] => Raise (ValueError
            "zero-size array to reduction operation minimum which has no identity")
  | x :: l => Ok (minimum x l)
  end.

(** [np.argmin] of one row: the position of the first smallest entry;
    [best] holds the smallest entry [bx] seen before position [i]. *)
Fixpoint argmin_from (best : nat) (bx : Q) (i : nat) (l : vector) : nat :=
  match l with
  | [] => best
  | y :: l' =>
      if Qlt_bool y bx then argmin_from i y (S i) l'
      else argmin_from best bx (S i) l'
  end.

Definition argmin (row : vector) : result nat :=
  match row with
  | [] => Raise (ValueError "attempt to get argmin of an empty sequence")
  | x :: l => Ok (argmin_from 0 x 1 l)
  end.

Module Euclid.
Section Euclid.

Variable sqrt : Q -> Q.

(** [math.sqrt]: a [ValueError] below zero. *)
Definition math_sqrt (x : Q) : result Q :=
  if Qlt_bool x 0 then Raise (ValueError "math domain error") else Ok (sqrt x).

(** [np.dot] of two vectors of one length. *)
Definition dot (a b : vector) : Q := sum (map2 Qmult a b).

Definition norm (p : vector) : result Q := math_sqrt (dot p p).

Definition distance (p1 p2 : vector) : result Q :=
  assert! (List.length p1 =? List.length p2)%nat ;;
  let p := vsub p1 p2 in
  math_sqrt (dot p p).

End Euclid.
End Euclid.

Section Distances.

Variable sqrt : Q -> Q.

(** [scipy.spatial.distance.cdist] checks that the two arrays have the
    same number of columns. *)
Definition cdist_checked (XA XB : matrix) : result matrix :=
  if (columns XA =? columns XB)%nat then Ok (cdist sqrt XA XB)
  else Raise (ValueError
         "XA and XB must have the same number of columns (i.e. feature dimension.)").

(** The result is the array [np.amin(dist, 1)], with its one entry. *)
Definition get_min_distance (point : vector) (other_points : matrix)
  : result vector :=
  assert! (nonempty point) ;;
  assert! (0 <? size2 other_points)%nat ;;
  dist <- cdist_checked [point] other_points ;;
  mapM amin dist.

Definition get_min_distance_and_index (point : vector) (other_points : matrix)
  : result (Q * nat) :=
  assert! (nonempty point) ;;
  assert! (0 <? size2 other_points)%nat ;;
  dist <- cdist_checked [point] other_points ;;
  indices <- mapM argmin dist ;;
  index <- getitem indices 0 ;;
  row <- getitem dist 0 ;;
  d <- getitem row index ;;
  Ok (d, index).

Definition bulk_get_min_distance (points other_points : matrix)
  : result vector :=
  assert! (0 <? size2 points)%nat ;;
  assert! (0 <? size2 other_points)%nat ;;
  first <- getitem points 0 ;;
  other_first <- getitem other_points 0 ;;
  assert! (List.length first =? List.length other_first)%nat ;;
  dist <- cdist_checked points other_points ;;
  mapM amin dist.

End Distances.

(** ** Rounding of the integer variables *)

(** [v[i] = x] for a Python integer [i]. *)
Definition setitem_int (v : vector) (i : Z) (x : Q) : result vector :=
  let len := Z.of_nat (List.length v) in
  if ((0 <=? i) && (i <? len))%Z then Ok (update v (Z.to_nat i) x)
  else if ((- len <=? i) && (i <? 0))%Z
  then Ok (update v (Z.to_nat (i + len)) x)
  else Raise IndexError.

(** [math.floor] and [math.ceil], stored back into a float array. *)
Definition math_floor (x : Q) : Q := inject_Z (Qfloor x).
Definition math_ceil (x : Q) : Q := inject_Z (Qceiling x).

(** [max] of a sequence with first entry [x]. *)
Definition max_int (x : Z) (l : list Z) : Z := fold_left Z.max l x.

(** The loop [for i in integer_vars] of [round_integer_bounds]; the two
    arrays are distinct objects, updated in place. *)
Fixpoint round_bounds_loop (indices : list Z) (var_lower var_upper : vector)
  : result (vector * vector) :=
  match indices with
  | [] => Ok (var_lower, var_upper)
  | i :: rest =>
      lo <- getitem_int var_lower i ;;
      var_lower <- setitem_int var_lower i (math_floor lo) ;;
      hi <- getitem_int var_upper i ;;
      var_upper <- setitem_int var_upper i (math_ceil hi) ;;
      hi <- getitem_int var_upper i ;;
      lo <- getitem_int var_lower i ;;
      if Qlt_bool hi lo then
        var_lower <- setitem_int var_lower i hi ;;
        var_upper <- setitem_int var_upper i lo ;;
        round_bounds_loop rest var_lower var_upper
      else round_bounds_loop rest var_lower var_upper
  end.

(** The function returns nothing: its result is the content of the two
    arrays after the call. *)
Definition round_integer_bounds (var_lower var_upper : vector)
           (integer_vars : list Z) : result (vector * vector) :=
  match integer_vars with
  | [] => Ok (var_lower, var_upper)
  | i :: rest =>
      assert! (List.length var_lower =? List.length var_upper)%nat ;;
      assert! (max_int i rest <? Z.of_nat (List.length var_lower))%Z ;;
      round_bounds_loop integer_vars var_lower var_upper
  end.

(** [np.around]: the nearest integer, the even one at a tie. *)
Definition around (x : Q) : Q :=
  let f := Qfloor x in
  let frac := x - inject_Z f in
  if Qlt_bool frac (1 # 2) then inject_Z f
  else if Qlt_bool (1 # 2) frac then inject_Z (f + 1)
  else if Z.even f then inject_Z f else inject_Z (f + 1).

(** [point[indices] = values], entry by entry. *)
Fixpoint assign (point : vector) (indices : list Z) (values : vector)
  : result vector :=
  match indices, values with
  | i :: indices', x :: values' =>
      point' <- setitem_int point i x ;;
      assign point' indices' values'
  | _, _ => Ok point
  end.

(** The point is rounded in place: the result is its content after the
    call. *)
Definition round_integer_vars (point : vector) (integer_vars : list Z)
  : result vector :=
  if nonempty integer_vars then
    values <- take point integer_vars ;;
    assign point integer_vars (map around values)
  else Ok point.

(** ** Evaluation of the interpolant *)

(** What [bulk_evaluate_rbf] returns under the three values of
    [return_distances]: the values alone, with the minimum distances, or
    with the whole distance matrix. *)
Inductive bulk_values : Type :=
| Values (values : vector)
| ValuesMin (values min_dist : vector)
| ValuesAll (values : vector) (dist_mat : matrix).

(** [range(k)]. *)
Definition range (k : Z) : list Z := map Z.of_nat (seq 0 (Z.to_nat k)).

(** Calling the value of [get_rbf_function]; [None] is not callable. *)
Definition call (f : option (Q -> result Q)) (x : Q) : result Q :=
  match f with
  | Some f => f x
  | None => Raise TypeError
  end.

(** [np.dot] of a 2D array and a vector: the shapes must be aligned (the
    message of numpy goes on with the two shapes). *)
Definition matvec (a : matrix) (v : vector) : result vector :=
  if (columns a =? List.length v)%nat
  then Ok (map (fun row => Euclid.dot row v) a)
  else Raise (ValueError "shapes not aligned").

Section Evaluation.

Variables (log sqrt : Q -> Q) (GAMMA : Q).

(** [math.fsum] adds without rounding error: over the rationals it is
    the sum. *)
Definition evaluate_rbf (settings : RbfSettings) (point : vector) (n k : Z)
           (node_pos : matrix) (rbf_lambda rbf_h : vector) : result Q :=
  assert! (Z.of_nat (List.length point) =? n)%Z ;;
  assert! (Z.of_nat (List.length rbf_lambda) =? k)%Z ;;
  assert! (Z.of_nat (List.length node_pos) =? k)%Z ;;
  let p := get_size_P_matrix settings n in
  assert! (Z.of_nat (List.length rbf_h) =? p)%Z ;;
  let rbf_function := get_rbf_function log sqrt GAMMA settings in
  terms1 <- mapM (fun i =>
                    lambda_i <- getitem_int rbf_lambda i ;;
                    node <- getitem_int node_pos i ;;
                    d <- Euclid.distance sqrt point node ;;
                    v <- call rbf_function d ;;
                    Ok (lambda_i * v))
                 (range k) ;;
  let part1 := sum terms1 in
  terms2 <- mapM (fun i =>
                    h_i <- getitem_int rbf_h i ;;
                    x_i <- getitem_int point i ;;
                    Ok (h_i * x_i))
                 (range (p - 1)) ;;
  let part2 := sum terms2 in
  last <- (if (0 <? p)%Z then getitem_int rbf_h (-1) else Ok 0) ;;
  Ok (sum [part1; part2; last]).

Definition bulk_evaluate_rbf (settings : RbfSettings) (points : matrix)
           (n k : Z) (node_pos : matrix) (rbf_lambda rbf_h : vector)
           (return_distances : string) : result bulk_values :=
  assert! (0 <? size2 points)%nat ;;
  assert! (Z.of_nat (List.length rbf_lambda) =? k)%Z ;;
  assert! (Z.of_nat (List.length node_pos) =? k)%Z ;;
  let p := get_size_P_matrix settings n in
  assert! (Z.of_nat (List.length rbf_h) =? p)%Z ;;
  let rbf_function := get_rbf_function log sqrt GAMMA settings in
  dist_mat <- cdist_checked sqrt points node_pos ;;
  phi <- vectorize rbf_function dist_mat ;;
  part1 <- matvec phi rbf_lambda ;;
  part2 <- (if (get_degree_polynomial settings =? 1)%Z
            then matvec points (removelast rbf_h)
            else Ok (repeat 0 (List.length points))) ;;
  part3 <- (if (0 <? p)%Z then getitem_int rbf_h (-1) else Ok 0) ;;
  let values := map (fun v => v + part3) (vadd part1 part2) in
  if (return_distances =? "min")%string then
    min_dist <- mapM amin dist_mat ;;
    Ok (ValuesMin values min_dist)
  else if (return_distances =? "all")%string then
    Ok (ValuesAll values dist_mat)
  else Ok (Values values).

End Evaluation.

(** ** Vocabulary of the properties *)

(** The kernel names the dispatch functions know. *)
Definition supported_kernels : list string :=
  ["cubic"; "thin_plate_spline"; "linear"; "multiquadric"]%string.

(** The message of [get_rbf_matrix] for a kernel it does not know. *)
Definition unsupported_kernel_message (settings : RbfSettings) : string :=
  ("Rbf " ++ dquote ++ rbf settings ++ dquote ++ " not implemented yet")%string.

(** The vertex a tuple of 'l'/'u' marks stands for, from coordinate [j] on. *)
Fixpoint corner_values (var_lower var_upper : vector) (j : nat)
         (corner : list ascii) : vector :=
  match corner with
  | [] => []
  | bound :: rest =>
      (if Ascii.eqb bound "l" then nth j var_lower 0 else nth j var_upper 0)
        :: corner_values var_lower var_upper (S j) rest
  end.

(** No two points at different positions are equal as vectors of numbers. *)
Definition pairwise_distinct (points : matrix) : Prop :=
  forall i1 i2 p1 p2,
    i1 <> i2 ->
    nth_error points i1 = Some p1 -> nth_error points i2 = Some p2 ->
    ~ veq p1 p2.

(** The dynamism trigger: the ratio [|fmax| / |fmin|] exists and exceeds
    the threshold with [|fmin|] above the zero-tolerance, or [|fmax|] alone
    exceeds it with [|fmin|] at or below the zero-tolerance. *)
Definition dynamism_triggered (settings : RbfSettings) (fmin fmax : Q) : Prop :=
  (eps_zero settings < Qabs fmin /\ 0 < Qabs fmin
   /\ dynamism_threshold settings < Qabs fmax / Qabs fmin)
  \/ (Qabs fmin <= eps_zero settings
      /\ dynamism_threshold settings < Qabs fmax).

(** [i] is a valid index of an array of length [len]. *)
Definition valid_index (len : nat) (i : Z) : Prop :=
  (- Z.of_nat len <= i < Z.of_nat len)%Z.

(** The point lies in the box, bounds included. *)
Definition in_box (var_lower var_upper point : vector) : Prop :=
  Forall2 Qle var_lower point /\ Forall2 Qle point var_upper.

(** The message of the domain transformations for a mode they do not
    know. *)
Definition unknown_domain_scaling_message (settings : RbfSettings) : string :=
  ("Domain scaling " ++ dquote ++ domain_scaling settings ++ dquote
   ++ " not implemented")%string.

(** Ascending: every entry is at most each later one. *)
Fixpoint ascending (l : vector) : Prop :=
  match l with
  | [] => True
  | x :: l' => Forall (fun y => x <= y) l' /\ ascending l'
  end.

(** The position a valid Python index [i] denotes in an array of length
    [len]. *)
Definition position (len : nat) (i : Z) : nat :=
  Z.to_nat (if (i <? 0)%Z then (i + Z.of_nat len)%Z else i).

(** Some index of [indices] denotes position [j]. *)
Definition listed (len : nat) (indices : list Z) (j : nat) : bool :=
  existsb (fun i => (position len i =? j)%nat) indices.

(** What [round_integer_bounds] makes of one pair of bounds. *)
Definition round_pair (lo hi : Q) : Q * Q :=
  if Qlt_bool (math_ceil hi) (math_floor lo)
  then (math_ceil hi, math_floor lo)
  else (math_floor lo, math_ceil hi).

(** The message of [transform_function_values] for a scaling mode it
    does not know. *)
Definition unknown_function_scaling_message (settings : RbfSettings) : string :=
  ("Function scaling " ++ dquote ++ function_scaling settings ++ dquote
   ++ " not implemented")%string.

(** Some index of the fast nodes lies outside an array of length [len]. *)
Definition some_invalid_index (len : nat) (indices : list Z) : Prop :=
  exists i, In i indices /\ ~ valid_index len i.

(** The value at [r] of the basis function of a supported kernel. *)
Definition basis_value (log sqrt : Q -> Q) (GAMMA : Q) (settings : RbfSettings)
           (r : Q) : Q :=
  if (rbf settings =? "cubic")%string then r * r * r
  else if (rbf settings =? "thin_plate_spline")%string
  then (if Qeq_bool r 0 then 0 else log r * r * r)
  else if (rbf settings =? "linear")%string then r
  else sqrt (r * r + GAMMA * GAMMA).

(** Entry [(i, j)] of a 2D array. *)
Definition entry (a : matrix) (i j : nat) : Q := nth j (nth i a []) 0.

(** An entry is exactly zero or at least the tolerance in absolute
    value. *)
Definition snapped (eps : Q) (a : matrix) : Prop :=
  Forall (Forall (fun x => x = 0 \/ eps <= Qabs x)) a.

(** What the snapping of small entries makes of one entry. *)
Definition snap (eps x : Q) : Q := if Qlt_bool (Qabs x) eps then 0 else x.

(** The values of the interpolant in a result of [bulk_evaluate_rbf]. *)
Definition values_of (r : bulk_values) : vector :=
  match r with
  | Values values => values
  | ValuesMin values _ => values
  | ValuesAll values _ => values
  end.

(** ** Settings used in the examples *)

Definition example_settings (kernel fscaling clipping dscaling : string)
  : RbfSettings :=
  {| rbf := kernel;
     init_strategy := "lhd_maximin";
     domain_scaling := dscaling;
     function_scaling := fscaling;
     dynamism_clipping := clipping;
     dynamism_threshold := 100;
     eps_zero := 1 # 1000000000000000;
     fast_objfun_rel_error := 1 # 10;
     fast_objfun_abs_error := 1 # 100;
     target_objval := 2;
     num_global_searches := 3 |}.

(** * Properties *)

Local Open Scope Z_scope.

(** ** Sanity checks of the embedding *)

Example get_sigma_n_ex1 : get_sigma_n 10 1 3 3 = Ok 9.
Proof. reflexivity. Qed.

Example product_lu_2 :
  product ["l"%char; "u"%char] 2
  = [ ["l"; "l"]; ["l"; "u"]; ["u"; "l"]; ["u"; "u"] ]%char.
Proof. reflexivity. Qed.

Example get_sigma_n_ex2 : get_sigma_n 10 4 3 3 = Ok 3.
Proof. reflexivity. Qed.

Example get_sigma_n_no_searches :
  get_sigma_n 10 1 0 3 = Ok 9 /\ get_sigma_n 10 2 0 3 = Raise ZeroDivisionError.
Proof. split; reflexivity. Qed.

Example get_sigma_n_overflow :
  get_sigma_n (2 ^ 1024) 2 1 0 = Raise OverflowError.
Proof. vm_compute. reflexivity. Qed.

Example transpose_ex :
  transpose [[1; 2; 3]; [4; 5; 6]]%Q = [[1; 4]; [2; 5]; [3; 6]]%Q.
Proof. reflexivity. Qed.

Example median_odd : median 0 [5; 1; 3]%Q = 3%Q.
Proof. reflexivity. Qed.

Example median_even : (median 0 [4; 1; 3; 2] == 5 # 2)%Q.
Proof. reflexivity. Qed.

Example get_all_corners_ex :
  get_all_corners (fun _ _ => 0%Q) [0; 10]%Q [1; 20]%Q
  = Ok [[0; 10]; [0; 20]; [1; 10]; [1; 20]]%Q.
Proof. reflexivity. Qed.

Example exact_solve_ex :
  exact_solve [[2; 1]; [1; 3]]%Q [3; 5]%Q = inr [4 # 5; 7 # 5]%Q.
Proof. vm_compute. reflexivity. Qed.

(** ** Scheduling arithmetic *)

(** One unfolding of the recursion, with the guards as boolean tests. *)
Lemma get_sigma_n_unroll k step g ni :
  get_sigma_n k step g ni =
  if 1 <=? step then
    if 0 <=? g then
      if step =? 1 then Ok (k - 1)
      else s <- get_sigma_n k (step - 1) g ni ;;
           d <- floor_div (k - ni) g ;; Ok (s - d)
    else Raise AssertionError
  else Raise AssertionError.
Proof.
  match goal with |- _ = ?r => set (rhs := r) end.
  simp get_sigma_n. subst rhs.
  destruct (Z_le_dec 1 step) as [H1|H1]; cbn;
    [ rewrite (proj2 (Z.leb_le _ _) H1)
    | rewrite (proj2 (Z.leb_gt _ _)) by lia; reflexivity ].
  destruct (Z_le_dec 0 g) as [H2|H2]; cbn;
    [ rewrite (proj2 (Z.leb_le _ _) H2)
    | rewrite (proj2 (Z.leb_gt _ _)) by lia; reflexivity ].
  destruct (Z.eq_dec step 1) as [H3|H3]; cbn;
    [ rewrite (proj2 (Z.eqb_eq _ _) H3) | rewrite (proj2 (Z.eqb_neq _ _) H3) ];
    reflexivity.
Qed.

Lemma get_sigma_n_first k g ni : 0 <= g -> get_sigma_n k 1 g ni = Ok (k - 1).
Proof.
  intros Hg. rewrite get_sigma_n_unroll.
  rewrite (proj2 (Z.leb_le 0 g) Hg). reflexivity.
Qed.

(** *** The float quotient *)

Local Open Scope Q_scope.

Example binary64_third : binary64 (1 # 3) = Some (6004799503160661 # 2 ^ 54).
Proof. vm_compute. reflexivity. Qed.

Example binary64_tie_down :
  binary64 (inject_Z (2 ^ 53 + 1)) = Some (inject_Z (2 ^ 53)).
Proof. vm_compute. reflexivity. Qed.

Example binary64_tie_up :
  option_map Qred (binary64 (inject_Z (2 ^ 53 + 3)))
  = Some (inject_Z (2 ^ 53 + 4)).
Proof. vm_compute. reflexivity. Qed.

Example binary64_overflow :
  binary64 (inject_Z (2 ^ 1024 - 2 ^ 970)) = None
  /\ option_map Qred (binary64 (inject_Z (2 ^ 1024 - 2 ^ 970 - 1)))
     = Some (inject_Z (2 ^ 1024 - 2 ^ 971)).
Proof. split; vm_compute; reflexivity. Qed.

Example binary64_underflow :
  option_map Qred (binary64 (1 # 2 ^ 1075)) = Some 0
  /\ option_map Qred (binary64 (3 # 2 ^ 1076)) = Some (1 # 2 ^ 1074).
Proof. split; vm_compute; reflexivity. Qed.

Lemma Qlt_bool_iff a b : Qlt_bool a b = true <-> a < b.
Proof.
  unfold Qlt_bool. rewrite negb_true_iff. split.
  - intros H. apply Qnot_le_lt. intros Hle.
    apply Qle_bool_iff in Hle. congruence.
  - intros H. destruct (Qle_bool b a) eqn:E; [ | reflexivity ].
    apply Qle_bool_iff in E. lra.
Qed.

Lemma round_half_even_near (x : Q) :
  x - (1 # 2) <= inject_Z (round_half_even x)
  /\ inject_Z (round_half_even x) <= x + (1 # 2).
Proof.
  unfold round_half_even.
  pose proof (Qfloor_le x) as Hlo. pose proof (Qlt_floor x) as Hhi.
  rewrite inject_Z_plus in Hhi. change (inject_Z 1) with 1 in Hhi.
  destruct (Qlt_bool (x - inject_Z (Qfloor x)) (1 # 2)) eqn:E1.
  { apply Qlt_bool_iff in E1. lra. }
  destruct (Qlt_bool (1 # 2) (x - inject_Z (Qfloor x))) eqn:E2.
  { apply Qlt_bool_iff in E2. rewrite inject_Z_plus. change (inject_Z 1) with 1. lra. }
  assert (H1 : ~ x - inject_Z (Qfloor x) < 1 # 2)
    by (intros H; apply Qlt_bool_iff in H; congruence).
  assert (H2 : ~ (1 # 2) < x - inject_Z (Qfloor x))
    by (intros H; apply Qlt_bool_iff in H; congruence).
  destruct (Z.even (Qfloor x)); [ lra | ].
  rewrite inject_Z_plus. change (inject_Z 1) with 1. lra.
Qed.

Lemma ilog2_spec (x : Q) : 0 < x -> 2 ^ ilog2 x <= x /\ x < 2 ^ (ilog2 x + 1).
Proof.
  intros Hx. destruct x as [n d]. unfold ilog2. cbn [Qnum Qden].
  assert (Hn : (0 < n)%Z).
  { unfold Qlt in Hx. cbn in Hx. lia. }
  set (ln := Z.log2 n). set (ld := Z.log2 (Z.pos d)).
  destruct (Z.log2_spec n Hn) as [Hn1 Hn2]. fold ln in Hn1, Hn2.
  destruct (Z.log2_spec (Z.pos d) (Pos2Z.is_pos d)) as [Hd1 Hd2].
  fold ld in Hd1, Hd2.
  assert (Hln : (0 <= ln)%Z) by apply Z.log2_nonneg.
  assert (Hld : (0 <= ld)%Z) by apply Z.log2_nonneg.
  assert (H2 : ~ 2 == 0) by (intros H; discriminate H).
  assert (Hx' : n # d == inject_Z n / inject_Z (Z.pos d)) by apply Qmake_Qdiv.
  assert (Hdpos : 0 < inject_Z (Z.pos d)).
  { change 0 with (inject_Z 0). rewrite <- Zlt_Qlt. lia. }
  assert (Hpow : forall z, 0 < 2 ^ z) by (intros z; apply Qpower_0_lt; lra).
  (* bounds on numerator and denominator as rationals *)
  assert (Qn1 : 2 ^ ln <= inject_Z n).
  { change 2 with (inject_Z 2). rewrite <- Zpower_Qpower by exact Hln.
    rewrite <- Zle_Qle. exact Hn1. }
  assert (Qn2 : inject_Z n < 2 ^ (ln + 1)).
  { change 2 with (inject_Z 2). rewrite <- Zpower_Qpower by lia.
    rewrite <- Zlt_Qlt. replace (ln + 1)%Z with (Z.succ ln) by lia. exact Hn2. }
  assert (Qd1 : 2 ^ ld <= inject_Z (Z.pos d)).
  { change 2 with (inject_Z 2). rewrite <- Zpower_Qpower by exact Hld.
    rewrite <- Zle_Qle. exact Hd1. }
  assert (Qd2 : inject_Z (Z.pos d) < 2 ^ (ld + 1)).
  { change 2 with (inject_Z 2). rewrite <- Zpower_Qpower by lia.
    rewrite <- Zlt_Qlt. replace (ld + 1)%Z with (Z.succ ld) by lia. exact Hd2. }
  assert (Hlow : 2 ^ (ln - ld - 1) <= n # d).
  { replace (ln - ld - 1)%Z with (ln - (ld + 1))%Z by lia.
    rewrite Qpower_minus by exact H2. rewrite Hx'.
    apply Qle_shift_div_l; [ exact Hdpos | ].
    assert (E : 2 ^ ln / 2 ^ (ld + 1) * inject_Z (Z.pos d)
                == 2 ^ ln * (inject_Z (Z.pos d) / 2 ^ (ld + 1))).
    { field. apply Qpower_not_0. exact H2. }
    rewrite E.
    assert (Hq : inject_Z (Z.pos d) / 2 ^ (ld + 1) <= 1).
    { apply Qle_shift_div_r; [ apply Hpow | lra ]. }
    pose proof (Hpow ln). nra. }
  assert (Hhigh : n # d < 2 ^ (ln - ld + 1)).
  { replace (ln - ld + 1)%Z with (ln + 1 - ld)%Z by lia.
    rewrite Qpower_minus by exact H2. rewrite Hx'.
    apply Qlt_shift_div_r; [ exact Hdpos | ].
    assert (E : 2 ^ (ln + 1) / 2 ^ ld * inject_Z (Z.pos d)
                == 2 ^ (ln + 1) * (inject_Z (Z.pos d) / 2 ^ ld)).
    { field. apply Qpower_not_0. exact H2. }
    rewrite E.
    assert (Hq : 1 <= inject_Z (Z.pos d) / 2 ^ ld).
    { apply Qle_shift_div_l; [ apply Hpow | lra ]. }
    pose proof (Hpow (ln + 1)%Z). nra. }
  destruct (Qle_bool (2 ^ (ln - ld)) (n # d)) eqn:E.
  - apply Qle_bool_iff in E. split; [ exact E | exact Hhigh ].
  - split; [ exact Hlow | ].
    replace (ln - ld - 1 + 1)%Z with (ln - ld)%Z by lia.
    apply Qnot_le_lt. intros H. apply Qle_bool_iff in H. congruence.
Qed.

Lemma Qfloor_unique (y : Q) (q : Z) :
  inject_Z q <= y -> y < inject_Z (q + 1) -> Qfloor y = q.
Proof.
  intros Hlo Hhi.
  pose proof (Qfloor_le y) as H1. pose proof (Qlt_floor y) as H2.
  assert (Ha : (q < Qfloor y + 1)%Z).
  { rewrite Zlt_Qlt. lra. }
  assert (Hb : (Qfloor y < q + 1)%Z).
  { rewrite Zlt_Qlt. lra. }
  lia.
Qed.

Lemma pow2_pos (z : Z) : 0 < 2 ^ z.
Proof. apply Qpower_0_lt. lra. Qed.

Lemma pow2_inject (z : Z) : (0 <= z)%Z -> 2 ^ z == inject_Z (2 ^ z).
Proof. intros Hz. rewrite Zpower_Qpower by exact Hz. reflexivity. Qed.

(** On integers below 2^53 in absolute value the float quotient has the
    floor of the exact quotient. *)
Lemma binary64_floor (a g : Z) :
  (Z.abs a < 2 ^ 53)%Z -> (1 <= g)%Z -> (a < 0 -> g <= 2 ^ 1022)%Z ->
  exists y, binary64 (inject_Z a / inject_Z g) = Some y
            /\ Qfloor y = (a / g)%Z.
Proof.
  intros Ha Hg Hneg.
  set (x := inject_Z a / inject_Z g).
  set (q := (a / g)%Z).
  assert (HG : 1 <= inject_Z g).
  { change 1 with (inject_Z 1). rewrite <- Zle_Qle. exact Hg. }
  assert (Hq : q = Qfloor x) by apply Zdiv_Qdiv.
  assert (Hlo : inject_Z q <= x) by (rewrite Hq; apply Qfloor_le).
  assert (HxG : x * inject_Z g == inject_Z a).
  { unfold x. field. lra. }
  (* the quotient stays one g-th below the next integer *)
  assert (Hhi : x + 1 / inject_Z g <= inject_Z (q + 1)).
  { assert (Hz : (a + 1 <= (q + 1) * g)%Z).
    { pose proof (Z.div_mod a g ltac:(lia)) as Hdm.
      pose proof (Z.mod_pos_bound a g ltac:(lia)) as Hm. fold q in Hdm. nia. }
    rewrite Zle_Qle, inject_Z_mult, inject_Z_plus in Hz.
    change (inject_Z 1) with 1 in Hz.
    assert (E : x + 1 / inject_Z g == (inject_Z a + 1) / inject_Z g).
    { unfold x. field. lra. }
    rewrite E. apply Qle_shift_div_r; [ lra | exact Hz ]. }
  destruct (Z.eq_dec a 0) as [Hzero|Hnz].
  { exists 0. subst a. split; [ | symmetry; apply Z.div_0_l; lia ].
    unfold binary64.
    assert (E : Qeq_bool x 0 = true).
    { apply Qeq_bool_iff. unfold x. field. lra. }
    rewrite E. reflexivity. }
  assert (Hx0 : ~ x == 0).
  { intros E. rewrite E in HxG.
    assert (E' : inject_Z a == inject_Z 0) by (change (inject_Z 0) with 0; lra).
    apply (proj1 (inject_Z_injective _ _)) in E'. contradiction. }
  assert (Habs : Qabs x * inject_Z g == inject_Z (Z.abs a)).
  { rewrite <- (Qabs_pos (inject_Z g)) at 1 by lra.
    rewrite <- Qabs_Qmult, HxG. unfold Qabs, inject_Z. reflexivity. }
  assert (Hxpos : 0 < Qabs x).
  { pose proof (Qabs_nonneg x) as H0.
    destruct (Qeq_dec (Qabs x) 0) as [E|E]; [ | lra ].
    exfalso. apply Hx0.
    pose proof (Qle_Qabs x). pose proof (Qle_Qabs (- x)) as Hm.
    rewrite Qabs_opp in Hm. lra. }
  assert (Ha53 : inject_Z (Z.abs a) < 2 ^ 53).
  { rewrite (@pow2_inject 53) by lia. rewrite <- Zlt_Qlt. exact Ha. }
  assert (Ha1 : 1 <= inject_Z (Z.abs a)).
  { change 1 with (inject_Z 1). rewrite <- Zle_Qle. lia. }
  destruct (@ilog2_spec (Qabs x) Hxpos) as [HL1 HL2].
  set (L := ilog2 (Qabs x)) in *.
  assert (Hxa : Qabs x <= inject_Z (Z.abs a)).
  { rewrite <- Habs. nra. }
  assert (HL : (L <= 52)%Z).
  { assert (H : 2 ^ L < 2 ^ 53) by lra.
    apply Qpower_lt_compat_l_inv in H; [ lia | lra ]. }
  set (e := Z.max L (-1022)).
  assert (He : (e <= 52)%Z) by (unfold e; lia).
  set (W := (2 ^ (52 - e))%Z).
  assert (HW : 1 <= inject_Z W).
  { change 1 with (inject_Z 1). rewrite <- Zle_Qle. unfold W.
    pose proof (Z.pow_pos_nonneg 2 (52 - e) ltac:(lia) ltac:(lia)). lia. }
  assert (Hulp : 2 ^ (e - 52) == / inject_Z W).
  { replace (e - 52)%Z with (- (52 - e))%Z by lia.
    rewrite Qpower_opp. unfold W. rewrite (@pow2_inject (52 - e)) by lia.
    reflexivity. }
  assert (Ht : x / 2 ^ (e - 52) == x * inject_Z W).
  { rewrite Hulp. field. lra. }
  (* the key inequality *)
  assert (Hkey : (1 # 2) < (inject_Z (q + 1) - x) * inject_Z W).
  { destruct (Z_le_dec (-1022) L) as [Hnormal|Hsub].
    - assert (HeL : e = L) by (unfold e; lia).
      assert (HLW : 2 ^ L * inject_Z W == 2 ^ 52).
      { unfold W. rewrite <- (@pow2_inject (52 - e)) by lia. rewrite HeL.
        rewrite <- Qpower_plus by lra.
        replace (L + (52 - L))%Z with 52%Z by lia. reflexivity. }
      assert (H53 : 2 ^ 53 == 2 * 2 ^ 52) by reflexivity.
      assert (HgW : inject_Z g < 2 * inject_Z W).
      { assert (H1 : 2 ^ L * inject_Z g < 2 ^ L * (2 * inject_Z W)).
        { assert (2 ^ L * inject_Z g <= Qabs x * inject_Z g) by nra.
          lra. }
        pose proof (pow2_pos L). nra. }
      assert (H1g : (1 # 2) < 1 / inject_Z g * inject_Z W).
      { assert (E : 1 / inject_Z g * inject_Z W == inject_Z W / inject_Z g)
          by (field; lra).
        rewrite E. apply Qlt_shift_div_l; lra. }
      assert (1 / inject_Z g <= inject_Z (q + 1) - x) by lra.
      nra.
    - assert (Hsmall : Qabs x < 2 ^ (-1022)).
      { assert (2 ^ (L + 1) <= 2 ^ (-1022))
          by (apply Qpower_le_compat_l; [ lia | lra ]).
        lra. }
      assert (Hhalf : 2 ^ (-1022) <= 1 # 2).
      { change (1 # 2) with (2 ^ (-1)).
        apply Qpower_le_compat_l; [ lia | lra ]. }
      destruct (Z_lt_dec a 0) as [Hlt|Hge].
      + exfalso. specialize (Hneg Hlt).
        assert (Hg' : inject_Z g <= 2 ^ 1022).
        { rewrite (@pow2_inject 1022) by lia. rewrite <- Zle_Qle. exact Hneg. }
        assert (Hone : 2 ^ (-1022) * 2 ^ 1022 == 1).
        { rewrite <- Qpower_plus by lra. reflexivity. }
        pose proof (pow2_pos (-1022)). pose proof (pow2_pos 1022).
        assert (Qabs x * inject_Z g < 1) by nra.
        lra.
      + assert (Hxx : Qabs x == x).
        { apply Qabs_pos. unfold x.
          apply Qle_shift_div_l; [ lra | ].
          assert (0 <= inject_Z a)
            by (change 0 with (inject_Z 0); rewrite <- Zle_Qle; lia).
          lra. }
        assert (Hq0 : q = 0%Z).
        { rewrite Hq. apply Qfloor_unique.
          - change (inject_Z 0) with 0. lra.
          - change (inject_Z (0 + 1)) with 1. lra. }
        rewrite Hq0. change (inject_Z (0 + 1)) with 1.
        assert (1 # 2 < 1 - x) by lra. nra. }
  pose proof (round_half_even_near (x / 2 ^ (e - 52))) as [Hm1 Hm2].
  set (m := round_half_even (x / 2 ^ (e - 52))) in *.
  rewrite Ht in Hm1, Hm2.
  assert (HmLo : (q * W <= m)%Z).
  { assert (H : (q * W < m + 1)%Z).
    { rewrite Zlt_Qlt, inject_Z_mult, inject_Z_plus.
      change (inject_Z 1) with 1. nra. }
    lia. }
  assert (HmHi : (m < (q + 1) * W)%Z).
  { rewrite Zlt_Qlt, inject_Z_mult. nra. }
  set (y := inject_Z m * 2 ^ (e - 52)).
  assert (Hy : y == inject_Z m / inject_Z W).
  { unfold y. rewrite Hulp. field. lra. }
  assert (Hy1 : inject_Z q <= y).
  { rewrite Hy. apply Qle_shift_div_l; [ lra | ].
    rewrite <- inject_Z_mult, <- Zle_Qle. exact HmLo. }
  assert (Hy2 : y < inject_Z (q + 1)).
  { rewrite Hy. apply Qlt_shift_div_r; [ lra | ].
    rewrite <- inject_Z_mult, <- Zlt_Qlt. exact HmHi. }
  exists y. split; [ | apply Qfloor_unique; assumption ].
  unfold binary64. fold x.
  assert (E0 : Qeq_bool x 0 = false).
  { destruct (Qeq_bool x 0) eqn:E; [ | reflexivity ].
    apply Qeq_bool_iff in E. contradiction. }
  rewrite E0. fold L. fold e. fold m. fold y.
  assert (Eover : Qle_bool (2 ^ 1024) (Qabs y) = false).
  { destruct (Qle_bool (2 ^ 1024) (Qabs y)) eqn:E; [ | reflexivity ].
    apply Qle_bool_iff in E. exfalso.
    assert (Hbig : 2 ^ 53 + 1 <= 2 ^ 1024).
    { assert (2 ^ 54 <= 2 ^ 1024) by (apply Qpower_le_compat_l; [ lia | lra ]).
      assert (2 ^ 54 == 2 * 2 ^ 53) by reflexivity.
      assert (1 <= 2 ^ 53) by (apply Qpower_1_le; [ lra | lia ]).
      lra. }
    assert (Hxb : Qabs x < 2 ^ 53) by lra.
    assert (Hyb : Qabs y <= Qabs x + 1).
    { apply Qabs_Qle_condition.
      pose proof (Qle_Qabs x). pose proof (Qle_Qabs (- x)) as Hm'.
      rewrite Qabs_opp in Hm'.
      rewrite inject_Z_plus in Hy2, Hhi. change (inject_Z 1) with 1 in Hy2, Hhi.
      assert (0 < 1 / inject_Z g) by (apply Qlt_shift_div_l; lra).
      assert (x < inject_Z q + 1) by lra.
      split; lra. }
    lra. }
  rewrite Eover. reflexivity.
Qed.

Local Open Scope Z_scope.

(** The quotient of [get_sigma_n] is the exact floor as long as the
    numerator is below 2^53 in absolute value (and, for a negative
    numerator, the divisor is not so large that the quotient vanishes). *)
Lemma floor_div_exact a g :
  Z.abs a < 2 ^ 53 -> 1 <= g -> (a < 0 -> g <= 2 ^ 1022) ->
  floor_div a g = Ok (a / g).
Proof.
  intros Ha Hg Hneg. unfold floor_div.
  rewrite (proj2 (Z.eqb_neq g 0)) by lia.
  destruct (@binary64_floor a g Ha Hg Hneg) as (y & -> & ->). reflexivity.
Qed.

Lemma get_sigma_n_value k ni step g :
  1 <= step -> 1 <= g ->
  Z.abs (k - ni) < 2 ^ 53 -> (k < ni -> g <= 2 ^ 1022) ->
  get_sigma_n k step g ni = Ok (k - 1 - (step - 1) * ((k - ni) / g)).
Proof.
  intros Hs Hg Hsmall Hneg. pattern step.
  apply Zlt_lower_bound_ind with (z := 1); [ | exact Hs ].
  intros x IH Hx.
  rewrite get_sigma_n_unroll.
  rewrite (proj2 (Z.leb_le _ _) Hx), (proj2 (Z.leb_le 0 g)) by lia.
  destruct (Z.eqb_spec x 1) as [->|Hne].
  - f_equal. lia.
  - rewrite IH by lia.
    rewrite floor_div_exact by (try assumption; intros; apply Hneg; lia).
    cbn. f_equal. lia.
Qed.

(** C5, as stated, fails: the base case does not hold "for every g".  With
    a negative number of global searches the call stops at its second
    assertion instead of returning [k - 1]. *)
Lemma get_sigma_n_negative_searches :
  get_sigma_n 10 1 (-1) 3 = Raise AssertionError
  /\ get_sigma_n 10 1 (-1) 3 <> Ok (10 - 1).
Proof. split; [ reflexivity | discriminate ]. Qed.

(** C5, amended: for every [k], [num_initial_points] and every
    [num_global_searches >= 0], [get_sigma_n] at step 1 returns [k - 1];
    for every step above 1 and [num_global_searches >= 1], when
    [|k - ni| < 2^53] so that the float quotient has the exact floor (and
    [g <= 2^1022] if [k < ni]), it returns the value at the previous step
    minus [floor((k - ni) / g)]; and [get_sigma_n(10, 1, 3, 3) = 9],
    [get_sigma_n(10, 2, 3, 3) = 7]. *)
Theorem get_sigma_n_schedule k ni g (Hg : 0 <= g) :
  get_sigma_n k 1 g ni = Ok (k - 1)
  /\ (forall step, 1 < step -> 1 <= g ->
      Z.abs (k - ni) < 2 ^ 53 -> (k < ni -> g <= 2 ^ 1022) ->
      exists s, get_sigma_n k (step - 1) g ni = Ok s
                /\ get_sigma_n k step g ni = Ok (s - (k - ni) / g))
  /\ get_sigma_n 10 1 3 3 = Ok 9
  /\ get_sigma_n 10 2 3 3 = Ok 7.
Proof.
  split; [ apply get_sigma_n_first; exact Hg | ].
  split; [ | split; reflexivity ].
  intros step Hs Hg1 Hsmall Hneg.
  exists (k - 1 - (step - 1 - 1) * ((k - ni) / g)). split.
  - apply get_sigma_n_value; try assumption; lia.
  - rewrite get_sigma_n_value by (try assumption; lia). f_equal. lia.
Qed.

Lemma get_sigma_n_schedule_witness :
  0 <= 3
  /\ get_sigma_n 10 1 3 3 = Ok (10 - 1)
  /\ (forall step, 1 < step -> 1 <= 3 ->
      Z.abs (10 - 3) < 2 ^ 53 -> (10 < 3 -> 3 <= 2 ^ 1022) ->
      exists s, get_sigma_n 10 (step - 1) 3 3 = Ok s
                /\ get_sigma_n 10 step 3 3 = Ok (s - (10 - 3) / 3))
  /\ get_sigma_n 10 1 3 3 = Ok 9
  /\ get_sigma_n 10 2 3 3 = Ok 7.
Proof.
  split; [ lia | apply (@get_sigma_n_schedule 10 3 3); lia ].
Defined.

(** C10, as stated, fails: the closed form does not hold "for every k".
    The quotient is a float; with [k = 2^53 + 1], [ni = 0] and [g = 1] it
    is [2^53], one less than [k - ni], so that the second step returns 0
    where the closed form gives -1. *)
Lemma get_sigma_n_rounded_quotient :
  get_sigma_n (2 ^ 53 + 1) 2 1 0 = Ok 0
  /\ (2 ^ 53 + 1) - 1 - (2 - 1) * ((2 ^ 53 + 1 - 0) / 1) = -1.
Proof. split; vm_compute; reflexivity. Qed.

(** C10, amended: for every [k] and [num_initial_points] with
    [|k - ni| < 2^53], every [current_step >= 1] and every
    [num_global_searches >= 1] (at most [2^1022] if [k < ni]), the
    recursion terminates with
    [(k - 1) - (current_step - 1) * floor((k - ni) / g)]; the next step is
    lower by the same fixed amount [floor((k - ni) / g)]. *)
Theorem get_sigma_n_closed_form k ni step g :
  1 <= step -> 1 <= g ->
  Z.abs (k - ni) < 2 ^ 53 -> (k < ni -> g <= 2 ^ 1022) ->
  get_sigma_n k step g ni = Ok (k - 1 - (step - 1) * ((k - ni) / g))
  /\ get_sigma_n k (step + 1) g ni
     = Ok (k - 1 - (step - 1) * ((k - ni) / g) - (k - ni) / g).
Proof.
  intros Hs Hg Hsmall Hneg. split.
  - apply get_sigma_n_value; assumption.
  - rewrite get_sigma_n_value by (try assumption; lia). f_equal. lia.
Qed.

Lemma get_sigma_n_closed_form_witness :
  1 <= 4 /\ 1 <= 3
  /\ get_sigma_n 10 4 3 3 = Ok (10 - 1 - (4 - 1) * ((10 - 3) / 3))
  /\ get_sigma_n 10 (4 + 1) 3 3
     = Ok (10 - 1 - (4 - 1) * ((10 - 3) / 3) - (10 - 3) / 3).
Proof.
  split; [ lia | split; [ lia | apply (@get_sigma_n_closed_form 10 3 4 3); lia ] ].
Defined.

(** ** Fast-evaluation error bounds and the optimality gap *)

Local Open Scope Q_scope.

Lemma transpose_two_rows {A} (f g : A -> Q) (l : list A) :
  transpose [map f l; map g l] = map (fun a => [f a; g a]) l.
Proof.
  induction l as [|a l IH]; [ reflexivity | ].
  cbn [transpose map map2] in *. rewrite IH. reflexivity.
Qed.

Lemma bulk_rows settings values :
  bulk_get_fast_error_bounds settings values
  = map (get_fast_error_bounds settings) values.
Proof.
  unfold bulk_get_fast_error_bounds, vstack. cbn [app].
  apply transpose_two_rows.
Qed.

(** C8: [get_fast_error_bounds] returns the pair
    [-(|v| * rel + abs), |v| * rel + abs]; row [i] of
    [bulk_get_fast_error_bounds] is [get_fast_error_bounds] of the [i]-th
    value, one row per value; with rel = 0.1, abs = 0.01 and v = -5 the
    pair is [-0.51, 0.51]. *)
Theorem fast_error_bounds_interval settings v values :
  (exists lo hi,
      get_fast_error_bounds settings v = [lo; hi]
      /\ lo == - (Qabs v * fast_objfun_rel_error settings
                  + fast_objfun_abs_error settings)
      /\ hi == Qabs v * fast_objfun_rel_error settings
               + fast_objfun_abs_error settings)
  /\ List.length (bulk_get_fast_error_bounds settings values) = List.length values
  /\ (forall i,
         nth_error (bulk_get_fast_error_bounds settings values) i
         = option_map (get_fast_error_bounds settings) (nth_error values i))
  /\ (fast_objfun_rel_error settings == 1 # 10 ->
      fast_objfun_abs_error settings == 1 # 100 ->
      veq (get_fast_error_bounds settings (-5)) [- (51 # 100); 51 # 100]).
Proof.
  split; [ | split; [ | split ] ].
  - eexists. eexists. split; [ reflexivity | ]. split; [ ring | reflexivity ].
  - rewrite bulk_rows. apply length_map.
  - intros i. rewrite bulk_rows. apply nth_error_map.
  - intros Hrel Habs. unfold get_fast_error_bounds.
    repeat constructor; rewrite Hrel, Habs; reflexivity.
Qed.

Lemma fast_error_bounds_interval_witness :
  veq (get_fast_error_bounds (example_settings "cubic" "off" "off" "off") (-5))
      [- (51 # 100); 51 # 100].
Proof.
  apply (@fast_error_bounds_interval
           (example_settings "cubic" "off" "off" "off") 0 []);
    reflexivity.
Defined.


Example compute_gap_ex :
  compute_gap false (example_settings "cubic" "off" "off" "off") 3 true
  = Ok (Finite ((3 + (Qabs 3 * (1 # 10) + (1 # 100)) - 2) / Qabs 2)).
Proof. reflexivity. Qed.

Example compute_gap_zero_denominator :
  let settings :=
    {| rbf := "cubic"; init_strategy := "lhd_maximin";
       domain_scaling := "off"; function_scaling := "off";
       dynamism_clipping := "off"; dynamism_threshold := 100;
       eps_zero := 0; fast_objfun_rel_error := 0;
       fast_objfun_abs_error := 0; target_objval := 0;
       num_global_searches := 3 |} in
  compute_gap false settings 1 true = Ok PlusInf
  /\ compute_gap false settings 1 false = Raise ZeroDivisionError
  /\ compute_gap true settings 0 false = Ok NaN.
Proof. repeat split. Qed.


(** ** Polling asynchronous results *)

Section PollingProperties.

Variable T : Type.
Implicit Types results : list (task T).

Lemma scan_ready_downwards results stop (m : nat) :
  (m <= List.length results)%nat ->
  exists i,
    scan_ready results (rev (seq 0 m)) stop = Ok i
    /\ ((i = stop /\ forall j, (j < m)%nat -> pending results j)
        \/ ((i < m)%nat
            /\ (exists res, nth_error results i = Some res
                            /\ ready (fst res) = true)
            /\ forall j, (i < j < m)%nat -> pending results j)).
Proof.
  induction m as [|m IH]; intros Hm.
  - exists stop. split; [ reflexivity | left; split; [ reflexivity | lia ] ].
  - rewrite seq_S, rev_app_distr. cbn [rev app plus scan_ready].
    destruct (nth_error results m) as [res|] eqn:Hres.
    2:{ apply nth_error_None in Hres. lia. }
    unfold getitem. rewrite Hres. cbn [bind].
    destruct (ready (fst res)) eqn:Hready.
    + exists m. split; [ reflexivity | right ].
      split; [ lia | split; [ exists res; auto | lia ] ].
    + destruct IH as (i & Hi & Hcases); [ lia | ].
      exists i. split; [ exact Hi | ].
      destruct Hcases as [(-> & Hall)|(Hlt & Hrdy & Hafter)].
      * left. split; [ reflexivity | ].
        intros j Hj. destruct (Nat.eq_dec j m) as [->|Hne].
        -- intros res' Hres'. congruence.
        -- apply Hall. lia.
      * right. split; [ lia | split; [ exact Hrdy | ] ].
        intros j Hj. destruct (Nat.eq_dec j m) as [->|Hne].
        -- intros res' Hres'. congruence.
        -- apply Hafter. lia.
Qed.

(** C9: [get_one_ready_index] returns the length of the collection if and
    only if no handle is ready; otherwise it returns the largest index
    whose handle is ready. *)
Theorem get_one_ready_index_last_ready results :
  exists i,
    get_one_ready_index results = Ok i
    /\ (i = List.length results
        <-> forall res, In res results -> ready (fst res) = false)
    /\ (i <> List.length results ->
        (i < List.length results)%nat
        /\ (exists res, nth_error results i = Some res
                        /\ ready (fst res) = true)
        /\ forall j, (i < j)%nat -> pending results j).
Proof.
  destruct (@scan_ready_downwards results (List.length results)
              (List.length results) (le_n _)) as (i & Hi & Hcases).
  exists i. split; [ exact Hi | ].
  destruct Hcases as [(-> & Hall)|(Hlt & (res & Hres & Hrdy) & Hafter)].
  - split; [ | intros H; contradiction H; reflexivity ].
    split; [ | reflexivity ].
    intros _ res Hin. apply In_nth_error in Hin. destruct Hin as (j & Hj).
    apply (Hall j); [ | exact Hj ].
    apply nth_error_Some. congruence.
  - split.
    + split; [ lia | ].
      intros Hnone. apply nth_error_In in Hres.
      rewrite (Hnone res Hres) in Hrdy. discriminate.
    + intros _. split; [ exact Hlt | split; [ exists res; auto | ] ].
      intros j Hj. destruct (Nat.lt_ge_cases j (List.length results)) as [Hin|Hout].
      * apply Hafter. lia.
      * intros res' Hres'. apply nth_error_None in Hout. congruence.
Qed.

End PollingProperties.

Example get_one_ready_index_ex :
  get_one_ready_index
    [ ({| ready := true |}, tt); ({| ready := false |}, tt);
      ({| ready := true |}, tt); ({| ready := false |}, tt) ] = Ok 2%nat
  /\ get_one_ready_index [ ({| ready := false |}, tt) ] = Ok 1%nat.
Proof. split; reflexivity. Qed.

Lemma get_one_ready_index_last_ready_witness :
  exists i,
    get_one_ready_index [ ({| ready := true |}, tt); ({| ready := false |}, tt) ]
    = Ok i
    /\ (i <> 2%nat -> (i < 2)%nat).
Proof.
  destruct (@get_one_ready_index_last_ready unit
              [ ({| ready := true |}, tt); ({| ready := false |}, tt) ])
    as (i & Hi & _ & H).
  exists i. split; [ exact Hi | ]. intros Hne. apply (H Hne).
Defined.

(** ** Domain transformation *)

Lemma map2_length {A B C} (f : A -> B -> C) (a : list A) (b : list B) :
  List.length a = List.length b -> List.length (map2 f a b) = List.length a.
Proof.
  revert b. induction a as [|x a IH]; intros [|y b] H; cbn in *;
    try discriminate; [ reflexivity | ].
  f_equal. apply IH. congruence.
Qed.

Lemma Forall2_same_length {A B} (R : A -> B -> Prop) a b :
  Forall2 R a b -> List.length a = List.length b.
Proof. induction 1; cbn; congruence. Qed.

Lemma veq_refl (v : vector) : veq v v.
Proof. induction v; constructor; [ reflexivity | assumption ]. Qed.

(** The affine map to the unit box followed by its reverse, coordinate by
    coordinate, on a box of positive width. *)
Lemma affine_round_trip (var_lower var_upper : vector) :
  Forall2 Qlt var_lower var_upper ->
  forall point, List.length point = List.length var_lower ->
  veq (vadd (vmul (vdiv (vsub point var_lower)
                        (map (fun d => if Qeq_bool d 0 then 1 else d)
                             (vsub var_upper var_lower)))
                  (vsub var_upper var_lower))
            var_lower)
      point.
Proof.
  induction 1 as [|l u ls us Hlu Hrest IH]; intros [|x point] Hlen;
    cbn in Hlen; try discriminate.
  - constructor.
  - cbn. constructor.
    + destruct (Qeq_bool (u - l) 0) eqn:E.
      * apply Qeq_bool_iff in E. lra.
      * field. intros Hz. lra.
    + apply IH. congruence.
Qed.

(** C4: on a box with [var_lower[i] < var_upper[i]] in every dimension,
    [transform_domain] with [reverse=False] followed by [transform_domain]
    with [reverse=True] gives back the point, in the 'off' and in the
    'affine' mode (exact arithmetic). *)
Theorem transform_domain_round_trip settings var_lower var_upper point :
  domain_scaling settings = "off"%string
  \/ domain_scaling settings = "affine"%string ->
  Forall2 Qlt var_lower var_upper ->
  List.length point = List.length var_lower ->
  exists scaled back,
    transform_domain settings var_lower var_upper point false = Ok scaled
    /\ transform_domain settings var_lower var_upper scaled true = Ok back
    /\ veq back point.
Proof.
  intros Hmode Hbox Hlen.
  pose proof (Forall2_same_length Hbox) as Hlu.
  unfold transform_domain.
  rewrite <- Hlu, Hlen, !Nat.eqb_refl. cbn [assert].
  destruct Hmode as [Hoff|Haff].
  - rewrite Hoff. cbn [String.eqb Ascii.eqb Bool.eqb].
    exists point, point. rewrite <- Hlen, Nat.eqb_refl. cbn [assert].
    split; [ reflexivity | split; [ reflexivity | apply veq_refl ] ].
  - rewrite Haff. cbn [String.eqb Ascii.eqb Bool.eqb].
    eexists. eexists. split; [ reflexivity | ].
    assert (Hscaled :
      List.length (vdiv (vsub point var_lower)
                        (map (fun d => if Qeq_bool d 0 then 1 else d)
                             (vsub var_upper var_lower)))
      = List.length var_lower).
    { unfold vdiv, vsub. rewrite map2_length; rewrite ?length_map, !map2_length;
        congruence. }
    rewrite Hscaled, Nat.eqb_refl. cbn [assert].
    split; [ reflexivity | ].
    apply affine_round_trip; assumption.
Qed.

Lemma transform_domain_round_trip_witness :
  exists scaled back,
    transform_domain (example_settings "cubic" "off" "off" "affine")
                     [0; -1] [2; 3] [1; 1] false = Ok scaled
    /\ transform_domain (example_settings "cubic" "off" "off" "affine")
                        [0; -1] [2; 3] scaled true = Ok back
    /\ veq back [1; 1].
Proof.
  apply (@transform_domain_round_trip
           (example_settings "cubic" "off" "off" "affine") [0; -1] [2; 3] [1; 1]).
  - right. reflexivity.
  - repeat constructor.
  - reflexivity.
Defined.

Example transform_domain_ex :
  transform_domain (example_settings "cubic" "off" "off" "affine")
                   [0; -1] [2; 3] [1; 1] false = Ok [(1 - 0) / (2 - 0); (1 - -1) / (3 - -1)].
Proof. reflexivity. Qed.

(** ** Kernel dispatch *)

Lemma unsupported_kernel_tests settings :
  ~ In (rbf settings) supported_kernels ->
  (rbf settings =? "cubic")%string = false
  /\ (rbf settings =? "thin_plate_spline")%string = false
  /\ (rbf settings =? "linear")%string = false
  /\ (rbf settings =? "multiquadric")%string = false.
Proof.
  intros Hnot. unfold supported_kernels in Hnot. cbn [In] in Hnot.
  repeat split; apply String.eqb_neq; intros Heq; apply Hnot; rewrite Heq; tauto.
Qed.

(** C2, as stated, fails: for a kernel name outside the four,
    [get_rbf_function] raises nothing and returns [None], and the two
    sizing queries return their sentinels. *)
Lemma unknown_kernel_returns_none :
  ~ In (rbf (example_settings "gaussian" "off" "off" "off")) supported_kernels
  /\ get_rbf_function (fun r => r) (fun r => r) 1
       (example_settings "gaussian" "off" "off" "off") = None
  /\ get_degree_polynomial (example_settings "gaussian" "off" "off" "off") = (-1)%Z
  /\ get_size_P_matrix (example_settings "gaussian" "off" "off" "off") 2 = 0%Z.
Proof.
  split; [ | repeat split ].
  cbn. intros [H|[H|[H|[H|[]]]]]; discriminate H.
Qed.

(** C2, amended: for every settings bundle whose kernel name is not one of
    the four and every dimension [n] other than -1 (so every [n >= 0]),
    [get_rbf_matrix] fails before building anything: with the
    [AssertionError] of its length check when [len(node_pos) <> k], and
    otherwise with a [ValueError] whose message quotes the kernel name.
    The sizing queries do not fail: [get_degree_polynomial] returns -1 and
    [get_size_P_matrix] returns 0. *)
Theorem unsupported_kernel_rejected log sqrt GAMMA settings n k node_pos :
  ~ In (rbf settings) supported_kernels ->
  n <> (-1)%Z ->
  get_rbf_matrix log sqrt GAMMA settings n k node_pos
  = (if (Z.of_nat (List.length node_pos) =? k)%Z
     then Raise (ValueError (unsupported_kernel_message settings))
     else Raise AssertionError)
  /\ get_degree_polynomial settings = (-1)%Z
  /\ get_size_P_matrix settings n = 0%Z.
Proof.
  intros Hnot Hn.
  destruct (unsupported_kernel_tests settings Hnot) as (Hc & Ht & Hl & Hm).
  assert (Hp : get_size_P_matrix settings n = 0%Z).
  { unfold get_size_P_matrix. rewrite Hc, Ht, Hl, Hm. reflexivity. }
  split; [ | split; [ | exact Hp ] ].
  - unfold get_rbf_matrix. rewrite Hp.
    destruct (Z.of_nat (List.length node_pos) =? k)%Z; [ | reflexivity ].
    cbn [assert].
    rewrite (proj2 (Z.eqb_neq 0 (n + 1))) by lia.
    reflexivity.
  - unfold get_degree_polynomial. rewrite Hc, Ht, Hl, Hm. reflexivity.
Qed.

Lemma unsupported_kernel_rejected_witness :
  get_rbf_matrix (fun r => r) (fun r => r) 1
    (example_settings "gaussian" "off" "off" "off") 1 2 [[0]; [1]]
  = Raise (ValueError (unsupported_kernel_message
                         (example_settings "gaussian" "off" "off" "off"))).
Proof.
  apply (@unsupported_kernel_rejected (fun r => r) (fun r => r) 1
           (example_settings "gaussian" "off" "off" "off") 1%Z 2%Z [[0]; [1]]).
  - cbn. intros [H|[H|[H|[H|[]]]]]; discriminate H.
  - discriminate.
Defined.

(** ** Singular systems *)

Lemma get_matrix_inverse_raises linalg_inv settings Amat e :
  linalg_inv Amat = inl e ->
  get_matrix_inverse linalg_inv settings Amat
  = (["Exception raised trying to invert the RBF matrix"%string; e],
     Raise (LinAlgError e)).
Proof. intros H. unfold get_matrix_inverse. rewrite H. reflexivity. Qed.

Lemma get_rbf_coefficients_exits linalg_solve settings n k Amat node_val z e :
  Z.of_nat (List.length node_val) = k ->
  shape Amat = ((k + get_size_P_matrix settings n)%Z,
                (k + get_size_P_matrix settings n)%Z) ->
  zeros (get_size_P_matrix settings n) = Ok z ->
  linalg_solve Amat (node_val ++ z) = inl e ->
  get_rbf_coefficients linalg_solve settings n k Amat node_val
  = (["Exception raised in the solution of the RBF linear system"%string;
      "Exception details:"%string; e],
     Raise SystemExit).
Proof.
  intros Hk Hshape Hz Hsolve. unfold get_rbf_coefficients.
  rewrite Hk, Z.eqb_refl, Hshape. cbn [negb fst snd].
  rewrite Z.eqb_refl. cbn [andb negb].
  rewrite Hz, Hsolve. reflexivity.
Qed.

(** Two nodes at the same place give a singular system. *)
Lemma duplicate_nodes_system log sqrt GAMMA :
  sqrt 0 = 0 ->
  get_rbf_matrix log sqrt GAMMA (example_settings "linear" "off" "off" "off")
                 1 2 [[0]; [0]]
  = Ok [[0; 0; 1]; [0; 0; 1]; [1; 1; 0]].
Proof.
  intros Hsqrt. unfold get_rbf_matrix. cbn. unfold distance. cbn.
  change (0 + - 0) with (0 - 0).
  replace (((0 - 0) * (0 - 0)) + 0) with 0 by reflexivity.
  rewrite !Hsqrt. reflexivity.
Qed.

(** C1 (code bug): on the singular system of two coinciding nodes the
    inversion re-raises the [LinAlgError], while the solve prints the error
    and calls [sys.exit()]: the caller gets [SystemExit], not the numerical
    failure. *)
Theorem singular_system_outcomes :
  get_matrix_inverse exact_inv (example_settings "linear" "off" "off" "off")
                     [[0; 0; 1]; [0; 0; 1]; [1; 1; 0]]
  = (["Exception raised trying to invert the RBF matrix"; "Singular matrix"]%string,
     Raise (LinAlgError "Singular matrix"))
  /\ get_rbf_coefficients exact_solve (example_settings "linear" "off" "off" "off")
                          1 2 [[0; 0; 1]; [0; 0; 1]; [1; 1; 0]] [1; 2]
     = (["Exception raised in the solution of the RBF linear system";
         "Exception details:"; "Singular matrix"]%string,
        Raise SystemExit).
Proof. split; vm_compute; reflexivity. Qed.

(** ** Corner points *)

Section UpdateLemmas.

Context {A : Type}.
Implicit Types (l : list A) (a b : A).

Lemma update_length l j a : List.length (update l j a) = List.length l.
Proof.
  revert j. induction l as [|x l IH]; intros [|j]; cbn; auto.
Qed.

Lemma update_same l j a : nth_error l j = Some a -> update l j a = l.
Proof.
  revert j. induction l as [|x l IH]; intros [|j] H; cbn in *;
    try discriminate.
  - congruence.
  - f_equal. apply IH. exact H.
Qed.

Lemma update_update l j a b : update (update l j a) j b = update l j b.
Proof.
  revert j. induction l as [|x l IH]; intros [|j]; cbn; auto.
  f_equal. apply IH.
Qed.

Lemma nth_error_update l j a :
  (j < List.length l)%nat -> nth_error (update l j a) j = Some a.
Proof.
  revert j. induction l as [|x l IH]; intros [|j] H; cbn in *;
    try lia; auto.
  apply IH. lia.
Qed.

Lemma firstn_update l j a :
  (j < List.length l)%nat -> firstn (S j) (update l j a) = firstn j l ++ [a].
Proof.
  revert j. induction l as [|x l IH]; intros [|j] H; cbn in *;
    try lia; auto.
  f_equal. apply IH. lia.
Qed.

Lemma skipn_update l j a m :
  (j < m)%nat -> skipn m (update l j a) = skipn m l.
Proof.
  revert j m. induction l as [|x l IH]; intros [|j] [|m] H; cbn;
    try lia; auto.
  apply IH. lia.
Qed.

Lemma Forall_update (P : A -> Prop) l j a :
  Forall P l -> P a -> Forall P (update l j a).
Proof.
  intros Hl Ha. revert j.
  induction Hl as [|x l Hx Hl IH]; intros [|j]; cbn; auto.
Qed.

Lemma getitem_in_range l j d :
  (j < List.length l)%nat -> getitem l j = Ok (nth j l d).
Proof.
  intros H. unfold getitem.
  rewrite (nth_error_nth' l d H). reflexivity.
Qed.

End UpdateLemmas.

Lemma corner_values_length l u j corner :
  List.length (corner_values l u j corner) = List.length corner.
Proof.
  revert j. induction corner as [|b rest IH]; intros j; cbn; auto.
Qed.

(** The inner loop overwrites the columns [j .. j + len(corner) - 1] of
    row [i] and nothing else. *)
Lemma fill_corner_row l u i corner :
  forall j node_pos row,
    nth_error node_pos i = Some row ->
    (j + List.length corner <= List.length row)%nat ->
    (j + List.length corner <= List.length l)%nat ->
    (j + List.length corner <= List.length u)%nat ->
    fill_corner l u i j corner node_pos
    = Ok (update node_pos i
            (firstn j row ++ corner_values l u j corner
               ++ skipn (j + List.length corner) row)).
Proof.
  induction corner as [|b rest IH]; intros j node_pos row Hrow Hr Hl Hu.
  - cbn. rewrite Nat.add_0_r, firstn_skipn.
    rewrite (update_same _ _ Hrow). reflexivity.
  - cbn [fill_corner corner_values List.length] in *.
    set (v := if Ascii.eqb b "l" then nth j l 0 else nth j u 0).
    assert (Hget : (if Ascii.eqb b "l" then getitem l j else getitem u j) = Ok v).
    { unfold v. destruct (Ascii.eqb b "l");
        apply getitem_in_range; lia. }
    rewrite Hget. cbn [bind].
    unfold setitem2. rewrite Hrow.
    rewrite (proj2 (Nat.ltb_lt j (List.length row))) by lia. cbn [bind].
    assert (Hi : (i < List.length node_pos)%nat).
    { apply nth_error_Some. congruence. }
    rewrite (IH (S j) _ (update row j v)).
    + rewrite update_update. f_equal. f_equal.
      rewrite firstn_update by lia.
      rewrite skipn_update by lia.
      rewrite <- app_assoc. cbn [app].
      rewrite Nat.add_succ_r. reflexivity.
    + apply nth_error_update. exact Hi.
    + rewrite update_length. lia.
    + lia.
    + lia.
Qed.

(** The outer loop overwrites the rows [i .. i + len(corners) - 1]. *)
Lemma fill_corners_rows l u n corners :
  List.length l = n -> List.length u = n ->
  Forall (fun c => List.length c = n) corners ->
  forall i node_pos,
    Forall (fun r => List.length r = n) node_pos ->
    (i + List.length corners <= List.length node_pos)%nat ->
    fill_corners l u i corners node_pos
    = Ok (firstn i node_pos ++ map (corner_values l u 0) corners
            ++ skipn (i + List.length corners) node_pos).
Proof.
  intros Hl Hu Hcorners.
  induction Hcorners as [|c rest Hc Hrest IH]; intros i node_pos Hrows Hlen.
  - cbn. rewrite Nat.add_0_r, firstn_skipn. reflexivity.
  - cbn [fill_corners List.length map] in *.
    destruct (nth_error node_pos i) as [row|] eqn:Hrow.
    2:{ apply nth_error_None in Hrow. lia. }
    assert (Hrowlen : List.length row = n).
    { apply nth_error_In in Hrow.
      rewrite Forall_forall in Hrows. apply Hrows. exact Hrow. }
    rewrite (fill_corner_row l u i c 0 node_pos Hrow) by (cbn; lia).
    cbn [bind firstn app plus].
    rewrite (skipn_all2 row) by lia. rewrite app_nil_r.
    rewrite IH.
    + rewrite firstn_update by lia.
      rewrite skipn_update by lia.
      rewrite <- app_assoc. cbn [app].
      rewrite Nat.add_succ_r. reflexivity.
    + apply Forall_update; [ exact Hrows | ].
      rewrite corner_values_length. exact Hc.
    + rewrite update_length. lia.
Qed.

Section ProductLemmas.

Context {A : Type}.
Variable pool : list A.

Lemma product_length r :
  List.length (product pool r) = (List.length pool ^ r)%nat.
Proof.
  induction r as [|r IH]; [ reflexivity | ].
  cbn [product Nat.pow].
  rewrite flat_map_constant_length with (c := List.length (product pool r)).
  - rewrite IH. reflexivity.
  - intros x _. apply length_map.
Qed.

Lemma product_tuple r c :
  In c (product pool r) <->
  List.length c = r /\ Forall (fun x => In x pool) c.
Proof.
  revert c. induction r as [|r IH]; intros c; cbn [product].
  - split.
    + intros [<-|[]]. split; [ reflexivity | constructor ].
    + intros [Hlen _]. destruct c; [ left; reflexivity | discriminate ].
  - rewrite in_flat_map. split.
    + intros (x & Hx & Hin). apply in_map_iff in Hin.
      destruct Hin as (t & <- & Ht). apply IH in Ht. destruct Ht as [Hlen Hall].
      split; [ cbn; congruence | constructor; assumption ].
    + intros [Hlen Hall]. destruct c as [|x t]; [ discriminate | ].
      inversion Hall; subst. exists x. split; [ assumption | ].
      apply in_map. apply IH. split; [ cbn in Hlen; congruence | assumption ].
Qed.

Lemma prepend_each_NoDup (heads : list A) (tuples : list (list A)) :
  NoDup heads -> NoDup tuples ->
  NoDup (flat_map (fun x => map (cons x) tuples) heads).
Proof.
  intros Hheads Htuples.
  induction Hheads as [|x xs Hx Hxs IHxs]; cbn [flat_map].
  - constructor.
  - apply NoDup_app.
    + apply NoDup_map_NoDup_ForallPairs; [ | exact Htuples ].
      intros t1 t2 _ _ Heq. congruence.
    + exact IHxs.
    + intros c Hc Hc'. apply in_map_iff in Hc. destruct Hc as (t & <- & _).
      apply in_flat_map in Hc'. destruct Hc' as (y & Hy & Hin).
      apply in_map_iff in Hin. destruct Hin as (t' & Heq & _).
      apply Hx. congruence.
Qed.

Lemma product_NoDup r : NoDup pool -> NoDup (product pool r).
Proof.
  intros Hpool. induction r as [|r IH]; cbn [product].
  - constructor; [ intros [] | constructor ].
  - apply prepend_each_NoDup; assumption.
Qed.

End ProductLemmas.

Lemma empty_shape uninit r c :
  List.length (empty uninit r c) = r
  /\ Forall (fun row => List.length row = c) (empty uninit r c).
Proof.
  unfold empty. split.
  - rewrite length_map. apply length_seq.
  - apply Forall_forall. intros row Hrow. apply in_map_iff in Hrow.
    destruct Hrow as (i & <- & _). rewrite length_map. apply length_seq.
Qed.

(** What the two loops compute: one vertex per tuple of the product, in
    its order. *)
Lemma get_all_corners_points uninit l u :
  List.length l = List.length u ->
  get_all_corners uninit l u
  = Ok (map (corner_values l u 0) (product ["l"; "u"]%char (List.length l))).
Proof.
  intros Hlen. unfold get_all_corners.
  rewrite Hlen, Nat.eqb_refl. cbn [assert]. rewrite <- Hlen.
  destruct (empty_shape uninit (2 ^ List.length l) (List.length l))
    as [Hrows Hcols].
  rewrite (@fill_corners_rows l u (List.length l)); auto.
  - cbn [firstn app plus].
    rewrite skipn_all2, app_nil_r; [ reflexivity | ].
    rewrite Hrows, product_length. cbn. lia.
  - apply Forall_forall. intros c Hc. apply product_tuple in Hc. tauto.
  - rewrite Hrows, product_length. cbn. lia.
Qed.

Lemma corner_values_nth l u corner :
  forall j c,
    (c < List.length corner)%nat ->
    nth c (corner_values l u j corner) 0%Q = nth (j + c) l 0%Q
    \/ nth c (corner_values l u j corner) 0%Q = nth (j + c) u 0%Q.
Proof.
  induction corner as [|b rest IH]; intros j c Hc; cbn in Hc; [ lia | ].
  destruct c as [|c]; cbn [corner_values nth].
  - rewrite Nat.add_0_r. destruct (Ascii.eqb b "l"); auto.
  - rewrite Nat.add_succ_r. apply (IH (S j) c). lia.
Qed.

Lemma corner_values_choice l u (choice : nat -> bool) m :
  forall j,
    corner_values l u j
      (map (fun i => if choice i then "u" else "l")%char (seq j m))
    = map (fun i => if choice i then nth i u 0%Q else nth i l 0%Q) (seq j m).
Proof.
  induction m as [|m IH]; intros j; [ reflexivity | ].
  cbn [seq map corner_values]. rewrite IH.
  destruct (choice j); reflexivity.
Qed.

(** Where lower and upper bound differ in every coordinate, different
    tuples stand for different vertices. *)
Lemma corner_values_injective l u c1 :
  forall j c2,
    Forall (fun b => In b ["l"; "u"]%char) c1 ->
    Forall (fun b => In b ["l"; "u"]%char) c2 ->
    List.length c1 = List.length c2 ->
    (forall i, (j <= i < j + List.length c1)%nat ->
               ~ (nth i l 0 == nth i u 0)%Q) ->
    veq (corner_values l u j c1) (corner_values l u j c2) ->
    c1 = c2.
Proof.
  induction c1 as [|b1 r1 IH]; intros j [|b2 r2] H1 H2 Hlen Hdiff Heq;
    cbn in Hlen; try discriminate; [ reflexivity | ].
  inversion H1 as [|? ? Hb1 Hr1]; subst.
  inversion H2 as [|? ? Hb2 Hr2]; subst.
  cbn [corner_values] in Heq. inversion Heq as [|? ? ? ? Hhead Htail]; subst.
  assert (Hj : ~ (nth j l 0 == nth j u 0)%Q) by (apply Hdiff; cbn; lia).
  f_equal.
  - cbn [In] in Hb1, Hb2.
    destruct Hb1 as [<-|[<-|[]]]; destruct Hb2 as [<-|[<-|[]]];
      cbn in Hhead; try reflexivity; exfalso; apply Hj;
      [ exact Hhead | symmetry; exact Hhead ].
  - apply (IH (S j)); auto.
    intros i Hi. apply Hdiff. cbn. lia.
Qed.

(** C3, as stated, fails: the points need not be pairwise distinct.  On a
    box with a fixed coordinate ([var_lower[1] = var_upper[1]]) the four
    returned points are two vertices, each twice. *)
Lemma fixed_coordinate_repeats_corners :
  get_all_corners (fun _ _ => 0) [0; 1] [1; 1]
  = Ok [[0; 1]; [0; 1]; [1; 1]; [1; 1]]
  /\ ~ pairwise_distinct [[0; 1]; [0; 1]; [1; 1]; [1; 1]].
Proof.
  split; [ reflexivity | ].
  intros H. apply (H 0%nat 1%nat [0; 1] [0; 1]);
    [ discriminate | reflexivity | reflexivity | apply veq_refl ].
Qed.

(** C3, amended: for bound vectors of length n, [get_all_corners] returns
    exactly 2^n points; every coordinate j of every point is
    [var_lower[j]] or [var_upper[j]]; every combination of lower and upper
    bounds occurs; and the points are pairwise distinct when
    [var_lower[j]] differs from [var_upper[j]] in every coordinate. *)
Theorem get_all_corners_vertices uninit var_lower var_upper :
  List.length var_lower = List.length var_upper ->
  exists points,
    get_all_corners uninit var_lower var_upper = Ok points
    /\ List.length points = (2 ^ List.length var_lower)%nat
    /\ (forall pt, In pt points ->
          List.length pt = List.length var_lower
          /\ forall j, (j < List.length var_lower)%nat ->
               nth j pt 0 = nth j var_lower 0
               \/ nth j pt 0 = nth j var_upper 0)
    /\ (forall choice : nat -> bool,
          In (map (fun j => if choice j then nth j var_upper 0
                            else nth j var_lower 0)
                  (seq 0 (List.length var_lower))) points)
    /\ ((forall j, (j < List.length var_lower)%nat ->
           ~ nth j var_lower 0 == nth j var_upper 0) ->
        pairwise_distinct points).
Proof.
  intros Hlen. eexists. split; [ apply get_all_corners_points; exact Hlen | ].
  set (n := List.length var_lower).
  set (tuples := product ["l"; "u"]%char n).
  split; [ | split; [ | split ] ].
  - rewrite length_map. apply (product_length ["l"; "u"]%char n).
  - intros pt Hpt. apply in_map_iff in Hpt. destruct Hpt as (c & <- & Hc).
    apply product_tuple in Hc. destruct Hc as [Hclen _].
    split; [ rewrite corner_values_length; exact Hclen | ].
    intros j Hj. apply (@corner_values_nth var_lower var_upper c 0%nat j). lia.
  - intros choice.
    rewrite <- (corner_values_choice var_lower var_upper choice n 0%nat).
    apply in_map. apply product_tuple. split.
    + rewrite length_map. apply length_seq.
    + apply Forall_forall. intros b Hb. apply in_map_iff in Hb.
      destruct Hb as (i & <- & _). destruct (choice i); cbn; tauto.
  - intros Hdiff i1 i2 p1 p2 Hne H1 H2 Heq.
    rewrite nth_error_map in H1, H2.
    destruct (nth_error tuples i1) as [c1|] eqn:E1; [ | discriminate ].
    destruct (nth_error tuples i2) as [c2|] eqn:E2; [ | discriminate ].
    cbn in H1, H2. injection H1 as <-. injection H2 as <-.
    assert (Hc1 : In c1 tuples) by (eapply nth_error_In; eassumption).
    assert (Hc2 : In c2 tuples) by (eapply nth_error_In; eassumption).
    apply product_tuple in Hc1, Hc2.
    destruct Hc1 as [Hl1 Hall1]. destruct Hc2 as [Hl2 Hall2].
    assert (Hsame : c1 = c2).
    { apply (@corner_values_injective var_lower var_upper c1 0%nat c2);
        auto; [ congruence | ].
      intros i Hi. apply Hdiff. fold n. lia. }
    apply Hne.
    assert (Hnodup : NoDup tuples).
    { apply product_NoDup. constructor; [ | constructor; [ intros [] | constructor ] ].
      intros [H|[]]. discriminate H. }
    apply (proj1 (NoDup_nth_error tuples) Hnodup).
    + apply nth_error_Some. congruence.
    + congruence.
Qed.

Lemma get_all_corners_vertices_witness :
  exists points,
    get_all_corners (fun _ _ => 0) [0; 10] [1; 20] = Ok points
    /\ List.length points = 4%nat
    /\ pairwise_distinct points.
Proof.
  destruct (@get_all_corners_vertices (fun _ _ => 0) [0; 10] [1; 20] eq_refl)
    as (points & Hrun & Hcount & _ & _ & Hdistinct).
  exists points. split; [ exact Hrun | split; [ exact Hcount | ] ].
  apply Hdistinct. intros j Hj.
  destruct j as [|[|j]]; cbn in *; [ discriminate | discriminate | lia ].
Defined.

(** ** Dynamism clipping *)

Lemma Qlt_bool_false a b : b <= a -> Qlt_bool a b = false.
Proof.
  intros H. destruct (Qlt_bool a b) eqn:E; [ | reflexivity ].
  apply Qlt_bool_iff in E. lra.
Qed.

Lemma dynamism_check_triggered numpy_scalars settings fmin fmax :
  dynamism_clipping settings <> "off"%string ->
  dynamism_triggered settings fmin fmax ->
  dynamism_check numpy_scalars settings fmin fmax = Ok true.
Proof.
  intros Hon Htrig. unfold dynamism_check.
  rewrite (proj2 (String.eqb_neq _ _) Hon). cbn [negb].
  destruct Htrig as [(Habove & Hpos & Hratio)|(Hbelow & Hmax)].
  - rewrite (proj2 (Qlt_bool_iff _ _) Habove). unfold py_div.
    destruct (Qeq_bool (Qabs fmin) 0) eqn:E.
    + apply Qeq_bool_iff in E. lra.
    + cbn [bind exceeds]. rewrite (proj2 (Qlt_bool_iff _ _) Hratio).
      reflexivity.
  - rewrite (Qlt_bool_false Hbelow). cbn [bind].
    rewrite (proj2 (Qle_bool_iff _ _) Hbelow).
    rewrite (proj2 (Qlt_bool_iff _ _) Hmax). reflexivity.
Qed.

Lemma clip_max_bounded a hi : Forall (fun v => v <= hi) (clip_max a hi).
Proof.
  unfold clip_max. apply Forall_forall. intros v Hv.
  apply in_map_iff in Hv. destruct Hv as (x & <- & _).
  destruct (Qle_bool x hi) eqn:E.
  - apply Qle_bool_iff. exact E.
  - apply Qle_refl.
Qed.

Lemma getitem_int_cases (a : vector) i :
  (exists v, getitem_int a i = Ok v)
  \/ (getitem_int a i = Raise IndexError /\ ~ valid_index (List.length a) i).
Proof.
  unfold getitem_int, valid_index.
  destruct ((0 <=? i) && (i <? Z.of_nat (List.length a)))%Z eqn:E1.
  - left. apply andb_true_iff in E1. destruct E1 as [H0 H1].
    apply Z.leb_le in H0. apply Z.ltb_lt in H1.
    exists (nth (Z.to_nat i) a 0). apply getitem_in_range. lia.
  - destruct ((- Z.of_nat (List.length a) <=? i) && (i <? 0))%Z eqn:E2.
    + left. apply andb_true_iff in E2. destruct E2 as [H0 H1].
      apply Z.leb_le in H0. apply Z.ltb_lt in H1.
      exists (nth (Z.to_nat (i + Z.of_nat (List.length a))) a 0).
      apply getitem_in_range. lia.
    + right. split; [ reflexivity | ].
      apply andb_false_iff in E1. apply andb_false_iff in E2.
      rewrite Z.leb_gt, Z.ltb_ge in E1. rewrite Z.leb_gt, Z.ltb_ge in E2. lia.
Qed.

Lemma take_cases (a : vector) idx :
  (exists vs, take a idx = Ok vs)
  \/ (take a idx = Raise IndexError
      /\ exists i, In i idx /\ ~ valid_index (List.length a) i).
Proof.
  unfold take. induction idx as [|i idx IH]; cbn [mapM].
  - left. eexists. reflexivity.
  - destruct (getitem_int_cases a i) as [(v & Hv)|(Hraise & Hbad)].
    + rewrite Hv. cbn [bind].
      destruct IH as [(vs & Hvs)|(Hraise & j & Hj & Hbad)].
      * rewrite Hvs. left. eexists. reflexivity.
      * rewrite Hraise. right. split; [ reflexivity | ].
        exists j. split; [ right; exact Hj | exact Hbad ].
    + rewrite Hraise. right. split; [ reflexivity | ].
      exists i. split; [ left; reflexivity | exact Hbad ].
Qed.

(** C7, as stated, fails: under affine range scaling the clipped values
    are rescaled afterwards and the reported maximum is 1 (or 0), not the
    median.  Values 1, 2, 1000 with threshold 100 have median 2; the call
    reports the maximum 1. *)
Lemma affine_scaling_reports_unit_maximum :
  dynamism_clipping (example_settings "cubic" "affine" "median" "off")
  = "median"%string
  /\ dynamism_triggered (example_settings "cubic" "affine" "median" "off") 1 1000
  /\ median 0 [1; 2; 1000] = 2
  /\ exists values fmin' err_b,
      transform_function_values (fun x => x) 0 true
        (example_settings "cubic" "affine" "median" "off") [1; 2; 1000] 1 1000 []
      = Ok (values, fmin', 1, err_b)
      /\ ~ 1 == median 0 [1; 2; 1000].
Proof.
  split; [ reflexivity | ]. split; [ | split; [ reflexivity | ] ].
  - left. cbn. repeat split; reflexivity.
  - eexists. eexists. eexists. split; [ vm_compute; reflexivity | ].
    cbn. discriminate.
Qed.

(** C7, amended: with [dynamism_clipping = 'median'] and
    [function_scaling = 'off'], when the dynamism trigger holds,
    [transform_function_values] returns values none of which exceeds the
    median of the input values, and the returned fmax is that median.  (The
    one way the call fails is the [IndexError] of an index of
    [fast_node_index] outside the array.) *)
Theorem median_clipping_unscaled log nan numpy_scalars settings node_val fmin fmax
        fast_node_index :
  dynamism_clipping settings = "median"%string ->
  function_scaling settings = "off"%string ->
  dynamism_triggered settings fmin fmax ->
  match transform_function_values log nan numpy_scalars settings node_val fmin fmax
          fast_node_index with
  | Ok (values, _, fmax', _) =>
      Forall (fun v => v <= median nan node_val) values
      /\ fmax' = median nan node_val
  | Raise e =>
      e = IndexError
      /\ exists i, In i fast_node_index
                   /\ ~ valid_index (List.length node_val) i
  end.
Proof.
  intros Hmedian Hoff Htrig.
  unfold transform_function_values, clip_values.
  rewrite dynamism_check_triggered;
    [ | rewrite Hmedian; discriminate | exact Htrig ].
  cbn [bind]. rewrite Hmedian, Hoff.
  cbn [String.eqb Ascii.eqb Bool.eqb local bind].
  destruct fast_node_index as [|i idx]; cbn [nonempty bind].
  - split; [ apply clip_max_bounded | reflexivity ].
  - destruct (take_cases (clip_max node_val (median nan node_val)) (i :: idx))
      as [(vs & Hvs)|(Hraise & j & Hj & Hbad)].
    + rewrite Hvs. cbn [bind].
      split; [ apply clip_max_bounded | reflexivity ].
    + rewrite Hraise. cbn [bind]. split; [ reflexivity | ].
      exists j. split; [ exact Hj | ].
      unfold clip_max in Hbad. rewrite length_map in Hbad. exact Hbad.
Qed.

Lemma median_clipping_unscaled_witness :
  match transform_function_values (fun x => x) 0 true
          (example_settings "cubic" "off" "median" "off") [1; 2; 1000] 1 1000 [2%Z]
  with
  | Ok (values, _, fmax', _) =>
      Forall (fun v => v <= median 0 [1; 2; 1000]) values
      /\ fmax' = median 0 [1; 2; 1000]
  | Raise e =>
      e = IndexError
      /\ exists i, In i [2%Z] /\ ~ valid_index (List.length [1; 2; 1000]) i
  end.
Proof.
  apply (@median_clipping_unscaled (fun x => x) 0 true
           (example_settings "cubic" "off" "median" "off") [1; 2; 1000] 1 1000
           [2%Z]).
  - reflexivity.
  - reflexivity.
  - left. cbn. repeat split; reflexivity.
Defined.

Example median_clipping_ex :
  transform_function_values (fun x => x) 0 true
    (example_settings "cubic" "off" "median" "off") [1; 2; 1000] 1 1000 []
  = Ok ([1; 2; 2], 1, 2, []).
Proof. reflexivity. Qed.


(** * Further properties *)

(** ** The kernel queries agree *)

(** The three dispatch functions know the same kernels: a kernel has a
    basis function exactly when its polynomial degree is not the sentinel
    -1, and the size of the polynomial block follows the degree (n + 1 for
    degree 1, 1 for degree 0, 0 for the sentinel). *)
Theorem kernel_queries_agree log sqrt GAMMA settings n :
  (In (rbf settings) supported_kernels
   <-> get_degree_polynomial settings <> (-1)%Z)
  /\ (get_rbf_function log sqrt GAMMA settings = None
      <-> get_degree_polynomial settings = (-1)%Z)
  /\ get_size_P_matrix settings n
     = (if (get_degree_polynomial settings =? 1)%Z then (n + 1)%Z
        else if (get_degree_polynomial settings =? 0)%Z then 1%Z
        else 0%Z).
Proof.
  unfold get_rbf_function, get_degree_polynomial, get_size_P_matrix,
    supported_kernels.
  cbn [In].
  destruct (String.eqb_spec (rbf settings) "cubic") as [Hc|Hc];
    [ rewrite Hc; cbn; repeat split; intros; try discriminate; tauto | ].
  destruct (String.eqb_spec (rbf settings) "thin_plate_spline") as [Ht|Ht];
    [ rewrite Ht; cbn; repeat split; intros; try discriminate; tauto | ].
  destruct (String.eqb_spec (rbf settings) "linear") as [Hl|Hl];
    [ rewrite Hl; cbn; repeat split; intros; try discriminate; tauto | ].
  destruct (String.eqb_spec (rbf settings) "multiquadric") as [Hm|Hm];
    [ rewrite Hm; cbn; repeat split; intros; try discriminate; tauto | ].
  cbn. repeat split; intros; try discriminate; try tauto.
  - intros _. intuition congruence.
Qed.

(** ** Lower corners *)

Lemma nth_error_update_other {A} (l : list A) i j a :
  i <> j -> nth_error (update l i a) j = nth_error l j.
Proof.
  revert i j. induction l as [|x l IH]; intros [|i] [|j] H; cbn; auto.
  contradiction H. reflexivity.
Qed.

Lemma nth_error_repeat {A} (a : A) m i :
  (i < m)%nat -> nth_error (repeat a m) i = Some a.
Proof.
  revert i. induction m as [|m IH]; intros [|i] H; cbn; try lia; auto.
  apply IH. lia.
Qed.

(** The loop over the columns [a .. a + m - 1]: these rows, shifted by
    one, get their upper bound; every other row is left as it was. *)
Lemma adjacent_corners_rows var_upper n m :
  forall a node_pos,
    (a + m <= n)%nat ->
    List.length var_upper = n ->
    List.length node_pos = (n + 1)%nat ->
    Forall (fun row => List.length row = n) node_pos ->
    exists node_pos',
      adjacent_corners var_upper (seq a m) node_pos = Ok node_pos'
      /\ List.length node_pos' = (n + 1)%nat
      /\ Forall (fun row => List.length row = n) node_pos'
      /\ forall r,
           nth_error node_pos' r
           = if ((a + 1 <=? r) && (r <=? a + m))%nat
             then option_map
                    (fun row => update row (r - 1) (nth (r - 1) var_upper 0))
                    (nth_error node_pos r)
             else nth_error node_pos r.
Proof.
  induction m as [|m IH]; intros a node_pos Ham Hu Hrows Hcols.
  - exists node_pos. cbn. repeat split; auto.
    intros r. destruct ((a + 1 <=? r) && (r <=? a + 0))%nat eqn:E; auto.
    apply andb_true_iff in E. destruct E as [E1 E2].
    apply Nat.leb_le in E1, E2. lia.
  - cbn [seq adjacent_corners].
    rewrite (getitem_in_range var_upper 0) by lia. cbn [bind].
    destruct (nth_error node_pos (a + 1)) as [row|] eqn:Hrow.
    2:{ apply nth_error_None in Hrow. lia. }
    assert (Hlen : List.length row = n).
    { apply nth_error_In in Hrow. rewrite Forall_forall in Hcols. auto. }
    unfold setitem2. rewrite Hrow.
    rewrite (proj2 (Nat.ltb_lt a (List.length row))) by lia. cbn [bind].
    set (row' := update row a (nth a var_upper 0)).
    destruct (IH (S a) (update node_pos (a + 1) row')) as (np' & Hrun & Hl & Hc & Hnth).
    + lia.
    + exact Hu.
    + rewrite update_length. exact Hrows.
    + apply Forall_update; [ exact Hcols | ].
      unfold row'. rewrite update_length. exact Hlen.
    + exists np'. split; [ exact Hrun | ]. split; [ exact Hl | ].
      split; [ exact Hc | ].
      intros r. rewrite Hnth.
      destruct (Nat.eq_dec r (a + 1)) as [->|Hne].
      * rewrite (proj2 (andb_false_iff _ _))
          by (left; apply Nat.leb_gt; lia).
        rewrite nth_error_update by lia.
        rewrite (proj2 (andb_true_iff _ _))
          by (split; apply Nat.leb_le; lia).
        rewrite Hrow. cbn. unfold row'.
        replace (a + 1 - 1)%nat with a by lia. reflexivity.
      * rewrite nth_error_update_other by lia.
        replace ((S a + 1 <=? r) && (r <=? S a + m))%nat
          with ((a + 1 <=? r) && (r <=? a + S m))%nat; [ reflexivity | ].
        destruct (a + 1 <=? r)%nat eqn:E1; destruct (S a + 1 <=? r)%nat eqn:E2;
          destruct (r <=? a + S m)%nat eqn:E3; destruct (r <=? S a + m)%nat eqn:E4;
          cbn; try reflexivity;
          rewrite ?Nat.leb_le, ?Nat.leb_gt in *; lia.
Qed.

Lemma get_lower_corners_rows_of var_lower var_upper :
  List.length var_lower = List.length var_upper ->
  exists points,
    get_lower_corners var_lower var_upper = Ok points
    /\ List.length points = (List.length var_lower + 1)%nat
    /\ nth_error points 0 = Some var_lower
    /\ forall i, (i < List.length var_lower)%nat ->
         nth_error points (S i)
         = Some (update var_lower i (nth i var_upper 0)).
Proof.
  intros Hlen. unfold get_lower_corners.
  rewrite Hlen, Nat.eqb_refl. cbn [assert]. rewrite <- Hlen.
  set (n := List.length var_lower).
  destruct (@adjacent_corners_rows var_upper n n 0%nat (repeat var_lower (n + 1)))
    as (points & Hrun & Hcount & _ & Hnth).
  - lia.
  - symmetry. exact Hlen.
  - apply repeat_length.
  - apply Forall_forall. intros row Hrow. apply repeat_spec in Hrow.
    subst row. reflexivity.
  - exists points. split; [ exact Hrun | ]. split; [ exact Hcount | ]. split.
    + rewrite Hnth. cbn [Nat.add Nat.leb andb].
      apply nth_error_repeat. lia.
    + intros i Hi. rewrite Hnth.
      rewrite (proj2 (andb_true_iff _ _))
        by (split; apply Nat.leb_le; lia).
      rewrite nth_error_repeat by lia. cbn.
      rewrite Nat.sub_0_r. reflexivity.
Qed.

(** [get_lower_corners] returns n + 1 points: the first is [var_lower],
    and point [i + 1] is [var_lower] with coordinate [i] alone replaced by
    [var_upper[i]]. *)
Theorem get_lower_corners_points var_lower var_upper :
  List.length var_lower = List.length var_upper ->
  exists points,
    get_lower_corners var_lower var_upper = Ok points
    /\ List.length points = (List.length var_lower + 1)%nat
    /\ nth_error points 0 = Some var_lower
    /\ forall i, (i < List.length var_lower)%nat ->
         nth_error points (S i)
         = Some (update var_lower i (nth i var_upper 0)).
Proof. exact (@get_lower_corners_rows_of var_lower var_upper). Qed.

Lemma get_lower_corners_points_witness :
  exists points,
    get_lower_corners [0; 10] [1; 20] = Ok points
    /\ nth_error points 0 = Some [0; 10]
    /\ nth_error points 2 = Some (update [0; 10] 1 (nth 1 [1; 20] 0)).
Proof.
  destruct (@get_lower_corners_points [0; 10] [1; 20] eq_refl)
    as (points & Hrun & _ & Hfirst & Hrest).
  exists points. split; [ exact Hrun | split; [ exact Hfirst | ] ].
  apply Hrest. cbn. lia.
Defined.

Example get_lower_corners_ex :
  get_lower_corners [0; 10] [1; 20] = Ok [[0; 10]; [1; 10]; [0; 20]].
Proof. reflexivity. Qed.

Lemma nth_update {A} (l : list A) i j a d :
  (i < List.length l)%nat ->
  nth j (update l i a) d = if (j =? i)%nat then a else nth j l d.
Proof.
  revert i j. induction l as [|x l IH]; intros [|i] [|j] H; cbn in *;
    try lia; auto.
  apply IH. lia.
Qed.

Lemma nth_map_seq {A} (f : nat -> A) n j d :
  (j < n)%nat -> nth j (map f (seq 0 n)) d = f j.
Proof.
  intros H.
  rewrite (nth_indep (map f (seq 0 n)) d (f 0%nat))
    by (rewrite length_map, length_seq; exact H).
  rewrite map_nth, seq_nth by exact H. reflexivity.
Qed.

Lemma update_as_choice (l : vector) i v :
  (i < List.length l)%nat ->
  update l i v
  = map (fun j => if (j =? i)%nat then v else nth j l 0) (seq 0 (List.length l)).
Proof.
  intros Hi. apply (nth_ext _ _ 0 0).
  - rewrite update_length, length_map, length_seq. reflexivity.
  - intros j Hj. rewrite update_length in Hj.
    rewrite nth_update by exact Hi.
    rewrite nth_map_seq by exact Hj. reflexivity.
Qed.

Lemma choice_among_corners l u (choice : nat -> bool) n :
  In (map (fun j => if choice j then nth j u 0 else nth j l 0) (seq 0 n))
     (map (corner_values l u 0) (product ["l"; "u"]%char n)).
Proof.
  rewrite <- (corner_values_choice l u choice n 0%nat).
  apply in_map. apply product_tuple. split.
  - rewrite length_map. apply length_seq.
  - apply Forall_forall. intros b Hb. apply in_map_iff in Hb.
    destruct Hb as (i & <- & _). destruct (choice i); cbn; tauto.
Qed.

(** Every point of [get_lower_corners] is one of the points of
    [get_all_corners] on the same box. *)
Theorem lower_corners_among_all_corners uninit var_lower var_upper :
  List.length var_lower = List.length var_upper ->
  exists lower_points all_points,
    get_lower_corners var_lower var_upper = Ok lower_points
    /\ get_all_corners uninit var_lower var_upper = Ok all_points
    /\ forall pt, In pt lower_points -> In pt all_points.
Proof.
  intros Hlen.
  destruct (get_lower_corners_rows_of var_lower var_upper Hlen) as (lower & Hrun & Hcount & Hfirst & Hrest).
  exists lower. eexists. split; [ exact Hrun | ].
  split; [ apply get_all_corners_points; exact Hlen | ].
  intros pt Hpt. apply In_nth_error in Hpt. destruct Hpt as (r & Hr).
  assert (Hrange : (r < List.length var_lower + 1)%nat).
  { rewrite <- Hcount. apply nth_error_Some. congruence. }
  destruct r as [|i].
  - assert (pt = var_lower) by congruence. subst pt.
    replace var_lower
      with (map (fun j => if (fun _ => false) j then nth j var_upper 0
                          else nth j var_lower 0)
                (seq 0 (List.length var_lower))) at 1.
    + exact (choice_among_corners var_lower var_upper (fun _ => false)
               (List.length var_lower)).
    + apply (nth_ext _ _ 0 0).
      * rewrite length_map, length_seq. reflexivity.
      * intros j Hj. rewrite length_map, length_seq in Hj.
        rewrite nth_map_seq by exact Hj. reflexivity.
  - rewrite Hrest in Hr by lia. injection Hr as <-.
    rewrite update_as_choice by lia.
    rewrite (map_ext
               (fun j => if (j =? i)%nat then nth i var_upper 0
                         else nth j var_lower 0)
               (fun j => if (j =? i)%nat then nth j var_upper 0
                         else nth j var_lower 0))
      by (intros j; destruct (Nat.eqb_spec j i); subst; reflexivity).
    exact (choice_among_corners var_lower var_upper (fun j => (j =? i)%nat)
             (List.length var_lower)).
Qed.

Lemma lower_corners_among_all_corners_witness :
  exists lower_points all_points,
    get_lower_corners [0; 10] [1; 20] = Ok lower_points
    /\ get_all_corners (fun _ _ => 0) [0; 10] [1; 20] = Ok all_points
    /\ forall pt, In pt lower_points -> In pt all_points.
Proof.
  exact (@lower_corners_among_all_corners (fun _ _ => 0) [0; 10] [1; 20]
           eq_refl).
Defined.

(** ** Domain transformation: boxes with fixed coordinates, the unit cube *)

(** One coordinate of the affine map and of its reverse, as
    [transform_domain] computes them. *)
Lemma affine_coordinate_in_box l u x :
  l <= x -> x <= u ->
  let scaled := (x - l) / (if Qeq_bool (u - l) 0 then 1 else u - l) in
  0 <= scaled /\ scaled <= 1 /\ scaled * (u - l) + l == x.
Proof.
  intros Hl Hu. cbn zeta.
  destruct (Qeq_bool (u - l) 0) eqn:E.
  - apply Qeq_bool_iff in E.
    assert (Hx : x == l) by lra.
    rewrite Hx. split; [ | split ].
    + setoid_replace ((l - l) / 1) with 0 by field. lra.
    + setoid_replace ((l - l) / 1) with 0 by field. lra.
    + field.
  - assert (Hpos : 0 < u - l).
    { destruct (Qlt_le_dec 0 (u - l)) as [H|H]; [ exact H | ].
      assert (Hz : u - l == 0) by lra.
      apply Qeq_bool_iff in Hz. congruence. }
    split; [ | split ].
    + apply Qle_shift_div_l; [ exact Hpos | lra ].
    + apply Qle_shift_div_r; [ exact Hpos | lra ].
    + field. lra.
Qed.

Lemma in_box_lengths l u p :
  in_box l u p -> List.length l = List.length p /\ List.length p = List.length u.
Proof.
  intros [H1 H2]. split; eapply Forall2_same_length; eassumption.
Qed.

Lemma affine_in_box l u :
  forall p, in_box l u p ->
    let scaled := vdiv (vsub p l)
                       (map (fun d => if Qeq_bool d 0 then 1 else d) (vsub u l)) in
    List.length scaled = List.length l
    /\ Forall (fun x => 0 <= x /\ x <= 1) scaled
    /\ veq (vadd (vmul scaled (vsub u l)) l) p.
Proof.
  revert u. induction l as [|a l IH]; intros u p [Hlo Hhi].
  - inversion Hlo; subst. inversion Hhi; subst. cbn.
    repeat split; constructor.
  - inversion Hlo as [|? x ? p' Hax Hlo']; subst.
    inversion Hhi as [|? b ? u' Hxb Hhi']; subst.
    destruct (IH u' p' (conj Hlo' Hhi')) as (Hlen & Hunit & Hback).
    destruct (affine_coordinate_in_box Hax Hxb) as (H0 & H1 & Hx).
    cbn. split; [ cbn in Hlen; congruence | ].
    split; constructor; auto.
Qed.

(** On any box with [var_lower <= var_upper], fixed coordinates included,
    the round trip gives back every point of the box. *)
Theorem transform_domain_round_trip_in_box settings var_lower var_upper point :
  domain_scaling settings = "off"%string
  \/ domain_scaling settings = "affine"%string ->
  in_box var_lower var_upper point ->
  exists scaled back,
    transform_domain settings var_lower var_upper point false = Ok scaled
    /\ transform_domain settings var_lower var_upper scaled true = Ok back
    /\ veq back point.
Proof.
  intros Hmode Hbox.
  destruct (in_box_lengths Hbox) as [Hlp Hpu].
  destruct (affine_in_box Hbox) as (Hlen & _ & Hback).
  unfold transform_domain.
  rewrite <- Hpu, <- Hlp, !Nat.eqb_refl. cbn [assert].
  destruct Hmode as [Hoff|Haff].
  - rewrite Hoff. cbn [String.eqb Ascii.eqb Bool.eqb].
    exists point, point. rewrite <- Hlp, Nat.eqb_refl. cbn [assert].
    split; [ reflexivity | split; [ reflexivity | apply veq_refl ] ].
  - rewrite Haff. cbn [String.eqb Ascii.eqb Bool.eqb].
    eexists. eexists. split; [ reflexivity | ].
    rewrite Hlen, Nat.eqb_refl. cbn [assert].
    split; [ reflexivity | exact Hback ].
Qed.

Lemma transform_domain_round_trip_in_box_witness :
  exists scaled back,
    transform_domain (example_settings "cubic" "off" "off" "affine")
                     [0; 5] [2; 5] [1; 5] false = Ok scaled
    /\ transform_domain (example_settings "cubic" "off" "off" "affine")
                        [0; 5] [2; 5] scaled true = Ok back
    /\ veq back [1; 5].
Proof.
  apply (@transform_domain_round_trip_in_box
           (example_settings "cubic" "off" "off" "affine") [0; 5] [2; 5] [1; 5]).
  - right. reflexivity.
  - split; repeat constructor; discriminate.
Defined.

(** Under affine scaling every point of the box is mapped into the unit
    hypercube. *)
Theorem transform_domain_into_unit_cube settings var_lower var_upper point :
  domain_scaling settings = "affine"%string ->
  in_box var_lower var_upper point ->
  exists scaled,
    transform_domain settings var_lower var_upper point false = Ok scaled
    /\ List.length scaled = List.length point
    /\ Forall (fun x => 0 <= x /\ x <= 1) scaled.
Proof.
  intros Haff Hbox.
  destruct (in_box_lengths Hbox) as [Hlp Hpu].
  destruct (affine_in_box Hbox) as (Hlen & Hunit & _).
  unfold transform_domain.
  rewrite <- Hpu, <- Hlp, !Nat.eqb_refl. cbn [assert].
  rewrite Haff. cbn [String.eqb Ascii.eqb Bool.eqb].
  eexists. split; [ reflexivity | ].
  split; [ congruence | exact Hunit ].
Qed.

Lemma transform_domain_into_unit_cube_witness :
  exists scaled,
    transform_domain (example_settings "cubic" "off" "off" "affine")
                     [0; 5] [2; 5] [1; 5] false = Ok scaled
    /\ List.length scaled = 2%nat
    /\ Forall (fun x => 0 <= x /\ x <= 1) scaled.
Proof.
  apply (@transform_domain_into_unit_cube
           (example_settings "cubic" "off" "off" "affine") [0; 5] [2; 5] [1; 5]).
  - reflexivity.
  - split; repeat constructor; discriminate.
Defined.

Lemma affine_reverse_forward (var_lower var_upper : vector) :
  Forall2 Qlt var_lower var_upper ->
  forall scaled, List.length scaled = List.length var_lower ->
  veq (vdiv (vsub (vadd (vmul scaled (vsub var_upper var_lower)) var_lower)
                  var_lower)
            (map (fun d => if Qeq_bool d 0 then 1 else d)
                 (vsub var_upper var_lower)))
      scaled.
Proof.
  induction 1 as [|l u ls us Hlu Hrest IH]; intros [|x scaled] Hlen;
    cbn in Hlen; try discriminate.
  - constructor.
  - cbn. constructor.
    + destruct (Qeq_bool (u - l) 0) eqn:E.
      * apply Qeq_bool_iff in E. lra.
      * field. lra.
    + apply IH. congruence.
Qed.

(** On a box of positive width the two directions are inverse to each
    other the other way round as well: mapping a point of the scaled space
    back to the box and scaling it again gives the point. *)
Theorem transform_domain_reverse_then_forward settings var_lower var_upper scaled :
  domain_scaling settings = "off"%string
  \/ domain_scaling settings = "affine"%string ->
  Forall2 Qlt var_lower var_upper ->
  List.length scaled = List.length var_lower ->
  exists point again,
    transform_domain settings var_lower var_upper scaled true = Ok point
    /\ transform_domain settings var_lower var_upper point false = Ok again
    /\ veq again scaled.
Proof.
  intros Hmode Hbox Hlen.
  pose proof (Forall2_same_length Hbox) as Hlu.
  unfold transform_domain.
  rewrite <- Hlu, Hlen, !Nat.eqb_refl. cbn [assert].
  destruct Hmode as [Hoff|Haff].
  - rewrite Hoff. cbn [String.eqb Ascii.eqb Bool.eqb].
    exists scaled, scaled. rewrite <- Hlen, Nat.eqb_refl. cbn [assert].
    split; [ reflexivity | split; [ reflexivity | apply veq_refl ] ].
  - rewrite Haff. cbn [String.eqb Ascii.eqb Bool.eqb].
    eexists. eexists. split; [ reflexivity | ].
    assert (Hpoint :
      List.length (vadd (vmul scaled (vsub var_upper var_lower)) var_lower)
      = List.length var_lower).
    { assert (H1 : List.length (vsub var_upper var_lower)
                   = List.length var_lower).
      { unfold vsub. rewrite map2_length; congruence. }
      assert (H2 : List.length (vmul scaled (vsub var_upper var_lower))
                   = List.length var_lower).
      { unfold vmul. rewrite map2_length; congruence. }
      unfold vadd. rewrite map2_length; congruence. }
    rewrite Hpoint, Nat.eqb_refl. cbn [assert].
    split; [ reflexivity | ].
    apply affine_reverse_forward; assumption.
Qed.

Lemma transform_domain_reverse_then_forward_witness :
  exists point again,
    transform_domain (example_settings "cubic" "off" "off" "affine")
                     [0; -1] [2; 3] [1 # 2; 1 # 4] true = Ok point
    /\ transform_domain (example_settings "cubic" "off" "off" "affine")
                        [0; -1] [2; 3] point false = Ok again
    /\ veq again [1 # 2; 1 # 4].
Proof.
  apply (@transform_domain_reverse_then_forward
           (example_settings "cubic" "off" "off" "affine")
           [0; -1] [2; 3] [1 # 2; 1 # 4]).
  - right. reflexivity.
  - repeat constructor.
  - reflexivity.
Defined.

Lemma affine_corners_of_box (var_lower var_upper : vector) :
  Forall2 Qlt var_lower var_upper ->
  veq (vdiv (vsub var_lower var_lower)
            (map (fun d => if Qeq_bool d 0 then 1 else d)
                 (vsub var_upper var_lower)))
      (repeat 0 (List.length var_lower))
  /\ veq (vdiv (vsub var_upper var_lower)
               (map (fun d => if Qeq_bool d 0 then 1 else d)
                    (vsub var_upper var_lower)))
         (repeat 1 (List.length var_upper)).
Proof.
  induction 1 as [|l u ls us Hlu Hrest [IHl IHu]]; cbn.
  - split; constructor.
  - assert (E : Qeq_bool (u - l) 0 = false).
    { destruct (Qeq_bool (u - l) 0) eqn:E; [ | reflexivity ].
      apply Qeq_bool_iff in E. lra. }
    rewrite E. split; constructor; auto; field; lra.
Qed.

(** [transform_domain_bounds] and [transform_domain] agree on a box of
    positive width: the bounds it returns are the images of [var_lower]
    and of [var_upper] (the vectors of zeros and of ones under affine
    scaling, the bounds themselves when scaling is off). *)
Theorem transform_domain_bounds_are_images settings var_lower var_upper :
  domain_scaling settings = "off"%string
  \/ domain_scaling settings = "affine"%string ->
  Forall2 Qlt var_lower var_upper ->
  exists lower upper lower_image upper_image,
    transform_domain_bounds settings var_lower var_upper = Ok (lower, upper)
    /\ transform_domain settings var_lower var_upper var_lower false
       = Ok lower_image
    /\ transform_domain settings var_lower var_upper var_upper false
       = Ok upper_image
    /\ veq lower_image lower /\ veq upper_image upper.
Proof.
  intros Hmode Hbox.
  pose proof (Forall2_same_length Hbox) as Hlu.
  destruct (affine_corners_of_box Hbox) as [Hlo Hhi].
  unfold transform_domain_bounds, transform_domain.
  rewrite <- Hlu, !Nat.eqb_refl. cbn [assert].
  destruct Hmode as [Hoff|Haff].
  - rewrite Hoff. cbn [String.eqb Ascii.eqb Bool.eqb].
    do 4 eexists. repeat split; apply veq_refl.
  - rewrite Haff. cbn [String.eqb Ascii.eqb Bool.eqb].
    do 4 eexists. split; [ reflexivity | ].
    split; [ reflexivity | ]. split; [ reflexivity | ].
    rewrite <- Hlu in Hhi. split; assumption.
Qed.

Lemma transform_domain_bounds_are_images_witness :
  exists lower upper lower_image upper_image,
    transform_domain_bounds (example_settings "cubic" "off" "off" "affine")
                            [0; -1] [2; 3] = Ok (lower, upper)
    /\ transform_domain (example_settings "cubic" "off" "off" "affine")
                        [0; -1] [2; 3] [0; -1] false = Ok lower_image
    /\ transform_domain (example_settings "cubic" "off" "off" "affine")
                        [0; -1] [2; 3] [2; 3] false = Ok upper_image
    /\ veq lower_image lower /\ veq upper_image upper.
Proof.
  apply (@transform_domain_bounds_are_images
           (example_settings "cubic" "off" "off" "affine") [0; -1] [2; 3]).
  - right. reflexivity.
  - repeat constructor.
Defined.

(** A domain-scaling mode other than 'off' and 'affine' is rejected by all
    three transformations with a [ValueError] that quotes the mode, once
    their checks on the lengths have passed ([AssertionError] otherwise,
    and [IndexError] for a batch without rows). *)
Theorem unknown_domain_scaling_rejected settings var_lower var_upper point
        points reverse :
  domain_scaling settings <> "off"%string ->
  domain_scaling settings <> "affine"%string ->
  transform_domain settings var_lower var_upper point reverse
  = (if ((List.length var_lower =? List.length var_upper)
         && (List.length var_lower =? List.length point))%nat
     then Raise (ValueError (unknown_domain_scaling_message settings))
     else Raise AssertionError)
  /\ transform_domain_bounds settings var_lower var_upper
     = (if (List.length var_lower =? List.length var_upper)%nat
        then Raise (ValueError (unknown_domain_scaling_message settings))
        else Raise AssertionError)
  /\ bulk_transform_domain settings var_lower var_upper points reverse
     = (if (List.length var_lower =? List.length var_upper)%nat
        then match points with
             | [] => Raise IndexError
             | first :: _ =>
                 if (List.length var_lower =? List.length first)%nat
                 then Raise (ValueError (unknown_domain_scaling_message settings))
                 else Raise AssertionError
             end
        else Raise AssertionError).
Proof.
  intros Hoff Haff.
  apply String.eqb_neq in Hoff. apply String.eqb_neq in Haff.
  unfold transform_domain, transform_domain_bounds, bulk_transform_domain.
  rewrite Hoff, Haff.
  destruct (List.length var_lower =? List.length var_upper)%nat; cbn [assert andb].
  - split; [ | split; [ reflexivity | ] ].
    + destruct (List.length var_lower =? List.length point)%nat; reflexivity.
    + destruct points as [|first rest]; [ reflexivity | ].
      cbn [getitem nth_error bind].
      destruct (List.length var_lower =? List.length first)%nat; reflexivity.
  - repeat split; reflexivity.
Qed.

Lemma unknown_domain_scaling_rejected_witness :
  transform_domain (example_settings "cubic" "off" "off" "log") [0] [1] [0] false
  = Raise (ValueError (unknown_domain_scaling_message
                         (example_settings "cubic" "off" "off" "log"))).
Proof.
  apply (@unknown_domain_scaling_rejected
           (example_settings "cubic" "off" "off" "log") [0] [1] [0] [] false);
    discriminate.
Defined.

Lemma mapM_all_ok {A B} (g : A -> result B) (f : A -> B) (l : list A) :
  (forall x, In x l -> g x = Ok (f x)) -> mapM g l = Ok (map f l).
Proof.
  induction l as [|a l IH]; intros H; [ reflexivity | ].
  cbn [mapM map]. rewrite (H a) by (left; reflexivity). cbn [bind].
  rewrite IH by (intros x Hx; apply H; right; exact Hx). reflexivity.
Qed.

(** The batch form and the single-point form have the same outcome: on a
    batch whose rows have one length, [bulk_transform_domain] returns what
    [transform_domain] returns row by row, and fails where it fails, in
    either direction and for every mode. *)
Theorem bulk_transform_domain_rowwise settings var_lower var_upper first rest
        reverse :
  Forall (fun point => List.length point = List.length first) rest ->
  bulk_transform_domain settings var_lower var_upper (first :: rest) reverse
  = mapM (fun point => transform_domain settings var_lower var_upper point reverse)
         (first :: rest).
Proof.
  intros Hrows.
  assert (Hall : forall point, In point (first :: rest) ->
                   List.length point = List.length first).
  { intros point [<-|Hin]; [ reflexivity | ].
    rewrite Forall_forall in Hrows. auto. }
  unfold bulk_transform_domain. cbn [getitem nth_error bind].
  destruct (List.length var_lower =? List.length var_upper)%nat eqn:Elu.
  2:{ cbn [assert mapM]. unfold transform_domain. rewrite Elu. reflexivity. }
  cbn [assert].
  destruct (List.length var_lower =? List.length first)%nat eqn:Efirst.
  2:{ cbn [assert mapM]. unfold transform_domain. rewrite Elu, Efirst.
      reflexivity. }
  cbn [assert].
  assert (Hsingle : forall point, In point (first :: rest) ->
            transform_domain settings var_lower var_upper point reverse
            = (if (domain_scaling settings =? "off")%string then Ok point
               else if (domain_scaling settings =? "affine")%string then
                 if reverse
                 then Ok (vadd (vmul point (vsub var_upper var_lower)) var_lower)
                 else Ok (vdiv (vsub point var_lower)
                               (map (fun d => if Qeq_bool d 0 then 1 else d)
                                    (vsub var_upper var_lower)))
               else Raise (ValueError (unknown_domain_scaling_message settings)))).
  { intros point Hin. unfold transform_domain.
    rewrite Elu, (Hall point Hin), Efirst. reflexivity. }
  destruct (domain_scaling settings =? "off")%string.
  - rewrite (mapM_all_ok _ (fun point => point)); [ rewrite map_id; reflexivity | ].
    exact Hsingle.
  - destruct (domain_scaling settings =? "affine")%string.
    + destruct reverse.
      * symmetry. apply mapM_all_ok. exact Hsingle.
      * symmetry. apply mapM_all_ok. exact Hsingle.
    + cbn [mapM]. rewrite (Hsingle first) by (left; reflexivity). reflexivity.
Qed.

Lemma bulk_transform_domain_rowwise_witness :
  bulk_transform_domain (example_settings "cubic" "off" "off" "affine")
                        [0; -1] [2; 3] ([1; 1] :: [[2; 0]]) false
  = mapM (fun point =>
            transform_domain (example_settings "cubic" "off" "off" "affine")
                             [0; -1] [2; 3] point false)
         ([1; 1] :: [[2; 0]]).
Proof.
  apply (@bulk_transform_domain_rowwise
           (example_settings "cubic" "off" "off" "affine")
           [0; -1] [2; 3] [1; 1] [[2; 0]] false).
  repeat constructor.
Defined.

(** ** The schedule within a cycle, and the threshold it selects *)

Local Open Scope Z_scope.

(** Over the steps 1 .. g + 1 of a cycle, with at least as many nodes as
    initial points and [k - ni] below 2^53 (where the float quotient has
    the exact floor), [get_sigma_n] stays a valid index of the sorted
    values, between [num_initial_points - 1] and [k - 1], and never
    increases from one step to a later one. *)
Theorem get_sigma_n_within_cycle k ni g step later :
  1 <= g -> ni <= k -> k - ni < 2 ^ 53 ->
  1 <= step -> step <= later -> later <= g + 1 ->
  exists s s',
    get_sigma_n k step g ni = Ok s
    /\ get_sigma_n k later g ni = Ok s'
    /\ ni - 1 <= s' /\ s' <= s /\ s <= k - 1.
Proof.
  intros Hg Hk Hsmall Hstep Hlater Hcycle.
  exists (k - 1 - (step - 1) * ((k - ni) / g)),
         (k - 1 - (later - 1) * ((k - ni) / g)).
  split; [ apply get_sigma_n_value; lia | ].
  split; [ apply get_sigma_n_value; lia | ].
  assert (Hq : 0 <= (k - ni) / g) by (apply Z.div_pos; lia).
  assert (Hgq : g * ((k - ni) / g) <= k - ni) by (apply Z.mul_div_le; lia).
  nia.
Qed.

Lemma get_sigma_n_within_cycle_witness :
  exists s s',
    get_sigma_n 10 2 3 3 = Ok s
    /\ get_sigma_n 10 4 3 3 = Ok s'
    /\ 3 - 1 <= s' /\ s' <= s /\ s <= 10 - 1.
Proof.
  apply (@get_sigma_n_within_cycle 10 3 3 2 4); lia.
Defined.

Local Open Scope Q_scope.

(** Insertion sort: the same values, in ascending order. *)
Lemma insert_sorted_In x y l : In y (insert_sorted x l) <-> y = x \/ In y l.
Proof.
  induction l as [|z l IH]; cbn.
  - intuition.
  - destruct (Qle_bool x z); cbn; [ intuition | ].
    rewrite IH. intuition.
Qed.

Lemma sort_In x l : In x (sort l) <-> In x l.
Proof.
  induction l as [|a l IH]; [ cbn; tauto | ].
  change (sort (a :: l)) with (insert_sorted a (sort l)).
  rewrite insert_sorted_In, IH. cbn. intuition.
Qed.

Lemma insert_sorted_length x l :
  List.length (insert_sorted x l) = S (List.length l).
Proof.
  induction l as [|z l IH]; cbn; [ reflexivity | ].
  destruct (Qle_bool x z); cbn; rewrite ?IH; reflexivity.
Qed.

Lemma sort_length l : List.length (sort l) = List.length l.
Proof.
  induction l as [|a l IH]; [ reflexivity | ].
  change (sort (a :: l)) with (insert_sorted a (sort l)).
  rewrite insert_sorted_length, IH. reflexivity.
Qed.

Lemma insert_sorted_ascending x l : ascending l -> ascending (insert_sorted x l).
Proof.
  induction l as [|z l IH]; intros Hl; cbn.
  - split; constructor.
  - destruct Hl as [Hz Hl]. destruct (Qle_bool x z) eqn:E.
    + apply Qle_bool_iff in E. cbn. split; [ | split; assumption ].
      constructor; [ exact E | ].
      eapply Forall_impl; [ | exact Hz ]. cbn. intros y Hy. lra.
    + cbn. split; [ | apply IH; exact Hl ].
      apply Forall_forall. intros y Hy. apply insert_sorted_In in Hy.
      destruct Hy as [->|Hy].
      * destruct (Qlt_le_dec z x) as [H|H]; [ lra | ].
        apply Qle_bool_iff in H. congruence.
      * rewrite Forall_forall in Hz. auto.
Qed.

Lemma sort_ascending l : ascending (sort l).
Proof.
  induction l as [|a l IH]; [ exact I | ].
  change (sort (a :: l)) with (insert_sorted a (sort l)).
  apply insert_sorted_ascending. exact IH.
Qed.

Lemma ascending_nth l :
  ascending l ->
  forall i j, (i <= j < List.length l)%nat -> nth i l 0 <= nth j l 0.
Proof.
  induction l as [|x l IH]; intros Hl i j Hij; cbn in Hij; [ lia | ].
  destruct Hl as [Hx Hl]. destruct i as [|i], j as [|j]; cbn; try lia.
  - apply Qle_refl.
  - rewrite Forall_forall in Hx. apply Hx. apply nth_In. lia.
  - apply IH; [ exact Hl | lia ].
Qed.

Lemma getitem_int_in_range (v : vector) (i : Z) :
  (0 <= i < Z.of_nat (List.length v))%Z ->
  getitem_int v i = Ok (nth (Z.to_nat i) v 0).
Proof.
  intros Hi. unfold getitem_int.
  rewrite (proj2 (andb_true_iff _ _))
    by (split; [ apply Z.leb_le | apply Z.ltb_lt ]; lia).
  apply getitem_in_range. lia.
Qed.

Lemma num_initial_points_positive settings n :
  (1 <= num_initial_points settings n)%Z.
Proof.
  unfold num_initial_points.
  destruct (init_strategy settings =? "all_corners")%string; [ | lia ].
  pose proof (Z.pow_pos_nonneg 2 (Z.of_nat n)). lia.
Qed.

(** The run of [get_fmax_current_iter] once its assertions hold and the
    schedule gives a valid index. *)
Lemma get_fmax_current_iter_at settings n current_step node_val s :
  (num_initial_points settings n <= Z.of_nat (List.length node_val))%Z ->
  (1 <= current_step)%Z ->
  get_sigma_n (Z.of_nat (List.length node_val)) current_step
              (num_global_searches settings) (num_initial_points settings n)
  = Ok s ->
  (0 <= s < Z.of_nat (List.length node_val))%Z ->
  get_fmax_current_iter settings n (Z.of_nat (List.length node_val))
                        current_step node_val
  = Ok (nth (Z.to_nat s) (sort node_val) 0).
Proof.
  intros Hni Hstep Hsigma Hs. unfold get_fmax_current_iter.
  rewrite Z.eqb_refl.
  rewrite (proj2 (Z.leb_le 1 (Z.of_nat (List.length node_val)))) by lia.
  rewrite (proj2 (Z.leb_le 1 current_step)) by lia.
  rewrite (proj2 (Z.leb_le _ _) Hni). cbn [assert].
  rewrite Hsigma. cbn [bind].
  apply getitem_int_in_range. rewrite sort_length. exact Hs.
Qed.

(** At the first step of a cycle the threshold is the largest observed
    value. *)
Theorem get_fmax_current_iter_first_step settings n node_val :
  (0 <= num_global_searches settings)%Z ->
  (num_initial_points settings n <= Z.of_nat (List.length node_val))%Z ->
  exists fmax,
    get_fmax_current_iter settings n (Z.of_nat (List.length node_val)) 1 node_val
    = Ok fmax
    /\ In fmax node_val
    /\ Forall (fun v => v <= fmax) node_val.
Proof.
  intros Hg Hni.
  pose proof (num_initial_points_positive settings n) as Hpos.
  set (k := List.length node_val) in *.
  assert (Hk : (1 <= k)%nat) by lia.
  eexists. split.
  - apply (@get_fmax_current_iter_at settings n 1%Z node_val (Z.of_nat k - 1)%Z);
      try lia.
    apply get_sigma_n_first. exact Hg.
  - replace (Z.to_nat (Z.of_nat k - 1)) with (k - 1)%nat by lia. split.
    + apply sort_In. apply nth_In. rewrite sort_length. fold k. lia.
    + apply Forall_forall. intros v Hv. apply sort_In in Hv.
      destruct (In_nth _ _ 0 Hv) as (i & Hi & <-).
      rewrite sort_length in Hi. fold k in Hi.
      apply ascending_nth; [ apply sort_ascending | ].
      rewrite sort_length. fold k. lia.
Qed.

Lemma get_fmax_current_iter_first_step_witness :
  exists fmax,
    get_fmax_current_iter (example_settings "cubic" "off" "off" "off") 1
      (Z.of_nat (List.length [3; 1; 2])) 1 [3; 1; 2] = Ok fmax
    /\ In fmax [3; 1; 2]
    /\ Forall (fun v => v <= fmax) [3; 1; 2].
Proof.
  apply (@get_fmax_current_iter_first_step
           (example_settings "cubic" "off" "off" "off") 1%nat [3; 1; 2]).
  - discriminate.
  - discriminate.
Defined.

(** Over the steps 1 .. g + 1 of a cycle the threshold is one of the
    observed values, and it never increases from one step to a later
    one.  (The array has fewer than 2^53 values, so that the float
    quotient of the schedule has the exact floor.) *)
Theorem get_fmax_current_iter_decreases settings n node_val step later :
  (1 <= num_global_searches settings)%Z ->
  (num_initial_points settings n <= Z.of_nat (List.length node_val))%Z ->
  (Z.of_nat (List.length node_val) < 2 ^ 53)%Z ->
  (1 <= step)%Z -> (step <= later)%Z ->
  (later <= num_global_searches settings + 1)%Z ->
  exists fmax fmax',
    get_fmax_current_iter settings n (Z.of_nat (List.length node_val))
                          step node_val = Ok fmax
    /\ get_fmax_current_iter settings n (Z.of_nat (List.length node_val))
                             later node_val = Ok fmax'
    /\ In fmax node_val /\ In fmax' node_val
    /\ fmax' <= fmax.
Proof.
  intros Hg Hni Hsmall Hstep Hlater Hcycle.
  pose proof (num_initial_points_positive settings n) as Hpos.
  set (k := List.length node_val) in *.
  set (ni := num_initial_points settings n) in *.
  set (g := num_global_searches settings) in *.
  assert (Hq : (0 <= (Z.of_nat k - ni) / g)%Z) by (apply Z.div_pos; lia).
  assert (Hgq : (g * ((Z.of_nat k - ni) / g) <= Z.of_nat k - ni)%Z)
    by (apply Z.mul_div_le; lia).
  set (q := ((Z.of_nat k - ni) / g)%Z) in *.
  exists (nth (Z.to_nat (Z.of_nat k - 1 - (step - 1) * q)) (sort node_val) 0),
         (nth (Z.to_nat (Z.of_nat k - 1 - (later - 1) * q)) (sort node_val) 0).
  split; [ | split; [ | split; [ | split ] ] ].
  - apply get_fmax_current_iter_at; try (fold k ni g; lia).
    + fold k ni g. apply get_sigma_n_value; lia.
    + fold k. nia.
  - apply get_fmax_current_iter_at; try (fold k ni g; lia).
    + fold k ni g. apply get_sigma_n_value; lia.
    + fold k. nia.
  - apply sort_In. apply nth_In. rewrite sort_length. fold k. nia.
  - apply sort_In. apply nth_In. rewrite sort_length. fold k. nia.
  - apply ascending_nth; [ apply sort_ascending | ].
    rewrite sort_length. fold k. nia.
Qed.

Lemma get_fmax_current_iter_decreases_witness :
  exists fmax fmax',
    get_fmax_current_iter (example_settings "cubic" "off" "off" "off") 1
      (Z.of_nat (List.length [3; 1; 2; 5; 4])) 1 [3; 1; 2; 5; 4] = Ok fmax
    /\ get_fmax_current_iter (example_settings "cubic" "off" "off" "off") 1
         (Z.of_nat (List.length [3; 1; 2; 5; 4])) 3 [3; 1; 2; 5; 4] = Ok fmax'
    /\ In fmax [3; 1; 2; 5; 4] /\ In fmax' [3; 1; 2; 5; 4]
    /\ fmax' <= fmax.
Proof.
  apply (@get_fmax_current_iter_decreases
           (example_settings "cubic" "off" "off" "off") 1%nat [3; 1; 2; 5; 4]
           1%Z 3%Z); cbn; lia.
Defined.

Example get_fmax_current_iter_ex :
  get_fmax_current_iter (example_settings "cubic" "off" "off" "off") 1 5 3
                        [3; 1; 2; 5; 4] = Ok 3.
Proof. reflexivity. Qed.

(** ** The two polling helpers agree *)

Lemma results_ready_exists {T} (results : list (task T)) :
  results_ready results = true
  <-> exists res, In res results /\ ready (fst res) = true.
Proof.
  induction results as [|res rest IH]; cbn.
  - split; [ discriminate | intros (res & [] & _) ].
  - destruct (ready (fst res)) eqn:E.
    + split; [ intros _; exists res; auto | reflexivity ].
    + rewrite IH. split.
      * intros (res' & Hin & Hr). exists res'. auto.
      * intros (res' & [<-|Hin] & Hr); [ congruence | exists res'; auto ].
Qed.

(** [results_ready] answers True exactly when [get_one_ready_index] finds
    an index, and False exactly when it returns the length of the
    collection. *)
Theorem results_ready_iff_index_found {T} (results : list (task T)) :
  exists i,
    get_one_ready_index results = Ok i
    /\ (results_ready results = true <-> (i < List.length results)%nat)
    /\ (results_ready results = false <-> i = List.length results).
Proof.
  destruct (@scan_ready_downwards T results (List.length results)
              (List.length results) (le_n _)) as (i & Hi & Hcases).
  exists i. split; [ exact Hi | ].
  destruct Hcases as [(-> & Hall)|(Hlt & (res & Hres & Hrdy) & _)].
  - assert (Hnone : results_ready results = false).
    { destruct (results_ready results) eqn:E; [ | reflexivity ].
      apply results_ready_exists in E. destruct E as (res & Hin & Hr).
      apply In_nth_error in Hin. destruct Hin as (j & Hj).
      rewrite (Hall j) with (res := res) in Hr; [ discriminate | | exact Hj ].
      apply nth_error_Some. congruence. }
    rewrite Hnone. split; split; intros; try lia; try discriminate; reflexivity.
  - assert (Hsome : results_ready results = true).
    { apply results_ready_exists. exists res. split; [ | exact Hrdy ].
      eapply nth_error_In. exact Hres. }
    rewrite Hsome. split; split; intros; try lia; try discriminate; auto.
Qed.

(** ** Minimum distances *)

Local Open Scope Q_scope.

(** The scan of [np.argmin] and the running minimum of [np.amin] over the
    rest [l] of a row whose visited part is [pre]. *)
Lemma argmin_from_minimum l :
  forall pre best bx,
    (best < List.length pre)%nat ->
    nth best pre 0 = bx ->
    (forall j, (j < List.length pre)%nat -> bx <= nth j pre 0) ->
    (forall j, (j < best)%nat -> bx < nth j pre 0) ->
    let idx := argmin_from best bx (List.length pre) l in
    (idx < List.length (pre ++ l))%nat
    /\ nth idx (pre ++ l) 0 = minimum bx l
    /\ (forall j, (j < List.length (pre ++ l))%nat ->
          minimum bx l <= nth j (pre ++ l) 0)
    /\ (forall j, (j < idx)%nat -> minimum bx l < nth j (pre ++ l) 0).
Proof.
  induction l as [|y l IH]; intros pre best bx Hbest Hbx Hmin Hfirst; cbn zeta.
  - cbn [argmin_from minimum]. rewrite app_nil_r. auto.
  - cbn [argmin_from minimum].
    replace (pre ++ y :: l) with ((pre ++ [y]) ++ l)
      by (rewrite <- app_assoc; reflexivity).
    replace (S (List.length pre)) with (List.length (pre ++ [y]))
      by (rewrite length_app; cbn; lia).
    destruct (Qlt_bool y bx) eqn:E.
    + apply Qlt_bool_iff in E. apply IH.
      * rewrite length_app. cbn. lia.
      * rewrite app_nth2 by lia. rewrite Nat.sub_diag. reflexivity.
      * intros j Hj. rewrite length_app in Hj. cbn in Hj.
        destruct (Nat.lt_ge_cases j (List.length pre)) as [Hlt|Hge].
        -- rewrite app_nth1 by exact Hlt. specialize (Hmin j Hlt). lra.
        -- replace j with (List.length pre) by lia.
           rewrite app_nth2 by lia. rewrite Nat.sub_diag. cbn. lra.
      * intros j Hj. rewrite app_nth1 by exact Hj.
        specialize (Hmin j Hj). lra.
    + assert (Hge : bx <= y).
      { destruct (Qlt_le_dec y bx) as [H|H]; [ | exact H ].
        apply Qlt_bool_iff in H. congruence. }
      apply IH.
      * rewrite length_app. cbn. lia.
      * rewrite app_nth1 by exact Hbest. exact Hbx.
      * intros j Hj. rewrite length_app in Hj. cbn in Hj.
        destruct (Nat.lt_ge_cases j (List.length pre)) as [Hlt|Hge'].
        -- rewrite app_nth1 by exact Hlt. apply Hmin. exact Hlt.
        -- replace j with (List.length pre) by lia.
           rewrite app_nth2 by lia. rewrite Nat.sub_diag. cbn. exact Hge.
      * intros j Hj. rewrite app_nth1 by lia. apply Hfirst. exact Hj.
Qed.

Lemma argmin_amin_row x l :
  exists idx m,
    argmin (x :: l) = Ok idx /\ amin (x :: l) = Ok m
    /\ (idx < List.length (x :: l))%nat
    /\ nth idx (x :: l) 0 = m
    /\ (forall j, (j < List.length (x :: l))%nat -> m <= nth j (x :: l) 0)
    /\ (forall j, (j < idx)%nat -> m < nth j (x :: l) 0).
Proof.
  exists (argmin_from 0 x 1 l), (minimum x l).
  split; [ reflexivity | ]. split; [ reflexivity | ].
  apply (@argmin_from_minimum l [x] 0%nat x).
  - cbn. lia.
  - reflexivity.
  - intros j Hj. cbn in Hj. replace j with 0%nat by lia. cbn. lra.
  - intros j Hj. lia.
Qed.

Section DistanceProperties.

Variable sqrt : Q -> Q.

Lemma size2_nonempty_rows (other_points : matrix) n :
  other_points <> [] -> (0 < n)%nat ->
  Forall (fun row => List.length row = n) other_points ->
  (0 <? size2 other_points)%nat = true /\ columns other_points = n.
Proof.
  intros Hne Hn Hrows. destruct other_points as [|row rest]; [ congruence | ].
  inversion Hrows as [|? ? Hrow _]; subst.
  split; [ | reflexivity ].
  apply Nat.ltb_lt. unfold size2. cbn [List.concat].
  rewrite length_app. lia.
Qed.

(** [get_min_distance_and_index] returns the distance to the nearest of
    the other points together with its index: the distance is at most the
    distance to every other point, and strictly smaller than the distance
    to every point before that index (the first nearest point is chosen).
    [get_min_distance] returns that same distance, as an array with one
    entry. *)
Theorem get_min_distance_and_index_nearest point other_points :
  point <> [] -> other_points <> [] ->
  Forall (fun row => List.length row = List.length point) other_points ->
  exists d index nearest,
    get_min_distance_and_index sqrt point other_points = Ok (d, index)
    /\ get_min_distance sqrt point other_points = Ok [d]
    /\ nth_error other_points index = Some nearest
    /\ d = distance sqrt point nearest
    /\ (forall j other, nth_error other_points j = Some other ->
          d <= distance sqrt point other)
    /\ (forall j other, (j < index)%nat ->
          nth_error other_points j = Some other ->
          d < distance sqrt point other).
Proof.
  intros Hpoint Hother Hrows.
  assert (Hn : (0 < List.length point)%nat).
  { destruct point; [ congruence | cbn; lia ]. }
  destruct (size2_nonempty_rows Hother Hn Hrows) as [Hsize Hcols].
  unfold get_min_distance_and_index, get_min_distance, cdist_checked.
  assert (Hnonempty : nonempty point = true).
  { destruct point; [ congruence | reflexivity ]. }
  rewrite Hnonempty, Hsize. cbn [assert columns].
  rewrite Hcols, Nat.eqb_refl. cbn [bind cdist map mapM].
  destruct other_points as [|o rest]; [ congruence | ].
  cbn [map].
  destruct (argmin_amin_row (distance sqrt point o)
                            (map (distance sqrt point) rest))
    as (idx & m & Harg & Hamin & Hidx & Hnth & Hle & Hlt).
  change (distance sqrt point o :: map (distance sqrt point) rest)
    with (map (distance sqrt point) (o :: rest)) in *.
  rewrite Harg, Hamin. cbn [bind getitem nth_error].
  rewrite length_map in Hidx.
  destruct (nth_error (o :: rest) idx) as [nearest|] eqn:Hnearest.
  2:{ apply nth_error_None in Hnearest. exfalso.
      apply (Nat.lt_irrefl idx).
      eapply Nat.lt_le_trans; [ exact Hidx | exact Hnearest ]. }
  assert (Hd : nth_error (map (distance sqrt point) (o :: rest)) idx = Some m).
  { rewrite <- Hnth. apply nth_error_nth'. rewrite length_map. exact Hidx. }
  unfold getitem. rewrite Hd. cbn [bind].
  exists m, idx, nearest.
  split; [ reflexivity | ]. split; [ reflexivity | ].
  split; [ exact Hnearest | ].
  assert (Hentry : forall j other,
            nth_error (o :: rest) j = Some other ->
            nth j (map (distance sqrt point) (o :: rest)) 0
            = distance sqrt point other).
  { intros j other Hj. apply nth_error_nth.
    apply map_nth_error. exact Hj. }
  split; [ rewrite <- Hnth; apply Hentry; exact Hnearest | ].
  split.
  - intros j other Hj. rewrite <- (Hentry j other Hj). apply Hle.
    rewrite length_map. apply nth_error_Some. intros Hnone.
    pose proof (eq_trans (eq_sym Hnone) Hj) as Habsurd. discriminate Habsurd.
  - intros j other Hji Hj. rewrite <- (Hentry j other Hj). apply Hlt. exact Hji.
Qed.

End DistanceProperties.

Lemma get_min_distance_and_index_nearest_witness :
  exists d index nearest,
    get_min_distance_and_index (fun x => x) [0; 0] [[3; 0]; [0; 1]; [1; 0]]
    = Ok (d, index)
    /\ get_min_distance (fun x => x) [0; 0] [[3; 0]; [0; 1]; [1; 0]] = Ok [d]
    /\ nth_error [[3; 0]; [0; 1]; [1; 0]] index = Some nearest.
Proof.
  destruct (@get_min_distance_and_index_nearest (fun x => x) [0; 0]
              [[3; 0]; [0; 1]; [1; 0]])
    as (d & index & nearest & H1 & H2 & H3 & _).
  - discriminate.
  - discriminate.
  - repeat constructor.
  - exists d, index, nearest. auto.
Defined.

Example get_min_distance_and_index_ex :
  get_min_distance_and_index (fun x => x) [0; 0] [[3; 0]; [0; 1]; [1; 0]]
  = Ok ((0 - 0) * (0 - 0) + ((0 - 1) * (0 - 1) + 0), 1%nat).
Proof. reflexivity. Qed.

Section BulkDistanceProperties.

Variable sqrt : Q -> Q.

Lemma get_min_distance_value point o rest :
  point <> [] ->
  List.length o = List.length point ->
  get_min_distance sqrt point (o :: rest)
  = Ok [minimum (distance sqrt point o) (map (distance sqrt point) rest)].
Proof.
  intros Hpoint Ho.
  assert (Hn : (0 < List.length point)%nat).
  { destruct point; [ congruence | cbn; lia ]. }
  unfold get_min_distance, cdist_checked.
  assert (Hnonempty : nonempty point = true).
  { destruct point; [ congruence | reflexivity ]. }
  assert (Hsize : (0 <? size2 (o :: rest))%nat = true).
  { apply Nat.ltb_lt. unfold size2. cbn [List.concat].
    rewrite length_app. lia. }
  rewrite Hnonempty, Hsize. cbn [assert columns].
  rewrite Ho, Nat.eqb_refl. reflexivity.
Qed.

(** [bulk_get_min_distance] gives, for each of its points and in their
    order, the distance that [get_min_distance] gives for that point. *)
Theorem bulk_get_min_distance_rowwise points other_points n :
  (0 < n)%nat -> points <> [] -> other_points <> [] ->
  Forall (fun row => List.length row = n) points ->
  Forall (fun row => List.length row = n) other_points ->
  exists distances,
    bulk_get_min_distance sqrt points other_points = Ok distances
    /\ List.length distances = List.length points
    /\ forall i point, nth_error points i = Some point ->
         exists d, nth_error distances i = Some d
                   /\ get_min_distance sqrt point other_points = Ok [d].
Proof.
  intros Hn Hpoints Hother Hprows Horows.
  destruct (size2_nonempty_rows Hpoints Hn Hprows) as [Hpsize Hpcols].
  destruct (size2_nonempty_rows Hother Hn Horows) as [Hosize Hocols].
  destruct points as [|p ps]; [ congruence | ].
  destruct other_points as [|o os]; [ congruence | ].
  assert (Ho : List.length o = n) by (inversion Horows; assumption).
  unfold bulk_get_min_distance, cdist_checked.
  rewrite Hpsize, Hosize. cbn [assert getitem nth_error bind].
  cbn [columns] in *.
  rewrite Hpcols, Hocols, !Nat.eqb_refl. cbn [assert bind].
  unfold cdist.
  rewrite (mapM_all_ok amin
             (fun row => match row with
                         | [] => 0
                         | x :: l => minimum x l
                         end)).
  2:{ intros row Hrow. apply in_map_iff in Hrow.
      destruct Hrow as (x & <- & _). reflexivity. }
  eexists. split; [ reflexivity | ].
  split; [ rewrite !length_map; reflexivity | ].
  intros i point Hi.
  exists (minimum (distance sqrt point o) (map (distance sqrt point) os)).
  split.
  - rewrite map_map. erewrite map_nth_error; [ reflexivity | exact Hi ].
  - apply get_min_distance_value.
    + apply nth_error_In in Hi. rewrite Forall_forall in Hprows.
      specialize (Hprows point Hi). destruct point; [ cbn in Hprows; lia | discriminate ].
    + apply nth_error_In in Hi. rewrite Forall_forall in Hprows.
      rewrite (Hprows point Hi). exact Ho.
Qed.

(** The three minimum-distance functions refuse an empty operand with an
    [AssertionError]: a point without coordinates, or a set of other
    points without entries. *)
Theorem min_distance_rejects_empty point points other_points :
  (point = [] \/ size2 other_points = 0%nat ->
   get_min_distance sqrt point other_points = Raise AssertionError
   /\ get_min_distance_and_index sqrt point other_points = Raise AssertionError)
  /\ (size2 points = 0%nat \/ size2 other_points = 0%nat ->
      bulk_get_min_distance sqrt points other_points = Raise AssertionError).
Proof.
  split.
  - intros [->|Hsize]; [ split; reflexivity | ].
    unfold get_min_distance, get_min_distance_and_index. rewrite Hsize.
    destruct (nonempty point); split; reflexivity.
  - intros [Hsize|Hsize]; unfold bulk_get_min_distance; rewrite Hsize;
      [ reflexivity | ].
    destruct (0 <? size2 points)%nat; reflexivity.
Qed.

End BulkDistanceProperties.

Lemma bulk_get_min_distance_rowwise_witness :
  exists distances,
    bulk_get_min_distance (fun x => x) [[0; 0]; [1; 1]] [[3; 0]; [0; 1]]
    = Ok distances
    /\ List.length distances = 2%nat.
Proof.
  destruct (@bulk_get_min_distance_rowwise (fun x => x)
              [[0; 0]; [1; 1]] [[3; 0]; [0; 1]] 2%nat)
    as (distances & Hrun & Hcount & _).
  - lia.
  - discriminate.
  - discriminate.
  - repeat constructor.
  - repeat constructor.
  - exists distances. auto.
Defined.

Lemma min_distance_rejects_empty_witness :
  get_min_distance (fun x => x) [] [[1]] = Raise AssertionError
  /\ bulk_get_min_distance (fun x => x) [[1]] [] = Raise AssertionError.
Proof.
  destruct (@min_distance_rejects_empty (fun x => x) [] [[1]] []) as [H1 H2].
  split; [ apply H1; left; reflexivity | apply H2; right; reflexivity ].
Defined.

Example round_integer_bounds_ex :
  round_integer_bounds [1 # 2; 3 # 2; 7 # 2] [5 # 2; 7 # 4; 1 # 2] [0; 2]%Z
  = Ok ([0; 3 # 2; 1], [3; 7 # 4; 3]).
Proof. reflexivity. Qed.

Example round_integer_vars_ex :
  round_integer_vars [1 # 2; 3 # 2; 7 # 3; -5 # 2] [0; 1; -1; 1]%Z
  = Ok [0; 2; 7 # 3; -2].
Proof. reflexivity. Qed.

(** ** Rounding the bounds of integer variables *)

Lemma position_in_range len i :
  valid_index len i -> (position len i < len)%nat.
Proof.
  unfold valid_index, position. intros H.
  destruct (Z.ltb_spec i 0); lia.
Qed.

Lemma getitem_int_valid (v : vector) i :
  valid_index (List.length v) i ->
  getitem_int v i = Ok (nth (position (List.length v) i) v 0).
Proof.
  unfold valid_index, position, getitem_int. intros H.
  destruct (Z_lt_dec i 0) as [Hneg|Hpos].
  - rewrite (proj2 (Z.ltb_lt i 0) Hneg).
    rewrite (proj2 (Z.leb_gt 0 i)) by lia.
    rewrite (proj2 (Z.leb_le (- Z.of_nat (List.length v)) i)) by lia.
    cbn [andb]. apply getitem_in_range. lia.
  - rewrite (proj2 (Z.ltb_ge i 0)) by lia.
    rewrite (proj2 (Z.leb_le 0 i)) by lia.
    rewrite (proj2 (Z.ltb_lt i (Z.of_nat (List.length v)))) by lia.
    cbn [andb]. apply getitem_in_range. lia.
Qed.

Lemma setitem_int_valid (v : vector) i x :
  valid_index (List.length v) i ->
  setitem_int v i x = Ok (update v (position (List.length v) i) x).
Proof.
  unfold valid_index, position, setitem_int. intros H.
  destruct (Z_lt_dec i 0) as [Hneg|Hpos].
  - rewrite (proj2 (Z.ltb_lt i 0) Hneg).
    rewrite (proj2 (Z.leb_gt 0 i)) by lia.
    rewrite (proj2 (Z.leb_le (- Z.of_nat (List.length v)) i)) by lia.
    reflexivity.
  - rewrite (proj2 (Z.ltb_ge i 0)) by lia.
    rewrite (proj2 (Z.leb_le 0 i)) by lia.
    rewrite (proj2 (Z.ltb_lt i (Z.of_nat (List.length v)))) by lia.
    reflexivity.
Qed.

Lemma nth_update_same {A} (l : list A) j a d :
  (j < List.length l)%nat -> nth j (update l j a) d = a.
Proof.
  intros H. rewrite nth_update by exact H. rewrite Nat.eqb_refl. reflexivity.
Qed.

(** One pass of the loop body rounds the pair of bounds at the position
    of [i]. *)
Lemma round_bounds_loop_step i rest (l u : vector) :
  List.length l = List.length u ->
  valid_index (List.length l) i ->
  let j := position (List.length l) i in
  round_bounds_loop (i :: rest) l u
  = round_bounds_loop rest
      (update l j (fst (round_pair (nth j l 0) (nth j u 0))))
      (update u j (snd (round_pair (nth j l 0) (nth j u 0)))).
Proof.
  intros Hlen Hi j. cbn [round_bounds_loop].
  assert (Hj : (j < List.length l)%nat) by (apply position_in_range; exact Hi).
  assert (Hiu : valid_index (List.length u) i) by (rewrite <- Hlen; exact Hi).
  rewrite (getitem_int_valid l Hi). cbn [bind]. fold j.
  rewrite (setitem_int_valid l _ Hi). cbn [bind]. fold j.
  rewrite (getitem_int_valid u Hiu). cbn [bind]. rewrite <- Hlen. fold j.
  rewrite (setitem_int_valid u _ Hiu). cbn [bind]. rewrite <- Hlen. fold j.
  rewrite getitem_int_valid by (rewrite update_length; exact Hiu).
  cbn [bind]. rewrite update_length, <- Hlen. fold j.
  rewrite nth_update_same by lia.
  rewrite getitem_int_valid by (rewrite update_length; exact Hi).
  cbn [bind]. rewrite update_length. fold j.
  rewrite nth_update_same by lia.
  unfold round_pair.
  destruct (Qlt_bool (math_ceil (nth j u 0)) (math_floor (nth j l 0))).
  - rewrite setitem_int_valid by (rewrite update_length; exact Hi).
    cbn [bind]. rewrite update_length. fold j.
    rewrite setitem_int_valid by (rewrite update_length; exact Hiu).
    cbn [bind]. rewrite update_length, <- Hlen. fold j.
    rewrite !update_update. reflexivity.
  - reflexivity.
Qed.

Lemma round_pair_idempotent lo hi :
  round_pair (fst (round_pair lo hi)) (snd (round_pair lo hi))
  = round_pair lo hi.
Proof.
  unfold round_pair, math_floor, math_ceil.
  destruct (Qlt_bool (inject_Z (Qceiling hi)) (inject_Z (Qfloor lo))) eqn:E;
    cbn [fst snd]; rewrite Qfloor_Z, Qceiling_Z.
  - destruct (Qlt_bool (inject_Z (Qfloor lo)) (inject_Z (Qceiling hi))) eqn:E';
      [ | reflexivity ].
    apply Qlt_bool_iff in E, E'. lra.
  - rewrite E. reflexivity.
Qed.

Lemma round_pair_integral lo hi :
  exists zl zu : Z,
    round_pair lo hi = (inject_Z zl, inject_Z zu) /\ (zl <= zu)%Z.
Proof.
  unfold round_pair, math_floor, math_ceil.
  destruct (Qlt_bool (inject_Z (Qceiling hi)) (inject_Z (Qfloor lo))) eqn:E.
  - apply Qlt_bool_iff in E. rewrite <- Zlt_Qlt in E.
    exists (Qceiling hi), (Qfloor lo). split; [ reflexivity | lia ].
  - exists (Qfloor lo), (Qceiling hi). split; [ reflexivity | ].
    destruct (Z.le_gt_cases (Qfloor lo) (Qceiling hi)) as [H|H]; [ exact H | ].
    assert (Hlt : inject_Z (Qceiling hi) < inject_Z (Qfloor lo))
      by (rewrite <- Zlt_Qlt; lia).
    apply Qlt_bool_iff in Hlt. congruence.
Qed.

Lemma round_pair_widens lo hi :
  lo <= hi ->
  round_pair lo hi = (math_floor lo, math_ceil hi)
  /\ math_floor lo <= lo /\ hi <= math_ceil hi.
Proof.
  intros Hle. unfold round_pair, math_floor, math_ceil.
  pose proof (Qfloor_le lo) as Hf. pose proof (Qle_ceiling hi) as Hc.
  destruct (Qlt_bool (inject_Z (Qceiling hi)) (inject_Z (Qfloor lo))) eqn:E.
  - apply Qlt_bool_iff in E. lra.
  - auto.
Qed.

Lemma round_bounds_loop_coordinates indices :
  forall l u : vector,
    List.length l = List.length u ->
    Forall (valid_index (List.length l)) indices ->
    exists l' u',
      round_bounds_loop indices l u = Ok (l', u')
      /\ List.length l' = List.length l
      /\ List.length u' = List.length u
      /\ forall j, (j < List.length l)%nat ->
           (nth j l' 0, nth j u' 0)
           = if listed (List.length l) indices j
             then round_pair (nth j l 0) (nth j u 0)
             else (nth j l 0, nth j u 0).
Proof.
  induction indices as [|i rest IH]; intros l u Hlen Hvalid.
  - exists l, u. cbn. auto.
  - inversion Hvalid as [|? ? Hi Hrest]; subst.
    rewrite round_bounds_loop_step by assumption. cbn zeta.
    set (p := position (List.length l) i).
    assert (Hp : (p < List.length l)%nat) by (apply position_in_range; exact Hi).
    set (rp := round_pair (nth p l 0) (nth p u 0)).
    destruct (IH (update l p (fst rp)) (update u p (snd rp)))
      as (l' & u' & Hrun & Hl' & Hu' & Hnth).
    + rewrite !update_length. exact Hlen.
    + rewrite update_length. exact Hrest.
    + exists l', u'. rewrite update_length in *.
      split; [ exact Hrun | ]. split; [ exact Hl' | ]. split; [ exact Hu' | ].
      intros j Hj. rewrite (Hnth j Hj).
      unfold listed. cbn [existsb]. fold (listed (List.length l) rest j). fold p.
      rewrite !nth_update by lia.
      destruct (Nat.eqb_spec p j) as [->|Hne].
      * rewrite Nat.eqb_refl. cbn [orb]. fold rp.
        destruct (listed (List.length l) rest j).
        -- apply round_pair_idempotent.
        -- destruct rp; reflexivity.
      * rewrite (proj2 (Nat.eqb_neq j p)) by congruence. reflexivity.
Qed.

Lemma max_int_below n l :
  forall x, (x < n)%Z -> Forall (fun i => (i < n)%Z) l -> (max_int x l < n)%Z.
Proof.
  unfold max_int. induction l as [|y l IH]; intros x Hx Hl; cbn; [ exact Hx | ].
  inversion Hl; subst. apply IH; [ lia | assumption ].
Qed.

Lemma round_integer_bounds_run (var_lower var_upper : vector) integer_vars :
  List.length var_lower = List.length var_upper ->
  Forall (valid_index (List.length var_lower)) integer_vars ->
  exists lower' upper',
    round_integer_bounds var_lower var_upper integer_vars = Ok (lower', upper')
    /\ List.length lower' = List.length var_lower
    /\ List.length upper' = List.length var_upper
    /\ forall j, (j < List.length var_lower)%nat ->
         (nth j lower' 0, nth j upper' 0)
         = if listed (List.length var_lower) integer_vars j
           then round_pair (nth j var_lower 0) (nth j var_upper 0)
           else (nth j var_lower 0, nth j var_upper 0).
Proof.
  intros Hlen Hvalid.
  destruct integer_vars as [|i rest].
  - exists var_lower, var_upper. cbn. auto.
  - unfold round_integer_bounds.
    rewrite (proj2 (Nat.eqb_eq _ _) Hlen). cbn [assert].
    assert (Hmax : (max_int i rest <? Z.of_nat (List.length var_lower))%Z = true).
    { apply Z.ltb_lt. inversion Hvalid as [|? ? Hi Hrest]; subst.
      apply max_int_below; [ unfold valid_index in Hi; lia | ].
      eapply Forall_impl; [ | exact Hrest ].
      unfold valid_index. cbn. intros; lia. }
    rewrite Hmax. cbn [assert].
    apply round_bounds_loop_coordinates; assumption.
Qed.

(** [round_integer_bounds] leaves the two arrays with their lengths; the
    pair of bounds at every position named by [integer_vars] becomes
    [floor] of the lower and [ceil] of the upper bound, exchanged when they
    cross, and every other pair is left as it was. *)
Theorem round_integer_bounds_coordinates (var_lower var_upper : vector)
        integer_vars :
  List.length var_lower = List.length var_upper ->
  Forall (valid_index (List.length var_lower)) integer_vars ->
  exists lower' upper',
    round_integer_bounds var_lower var_upper integer_vars = Ok (lower', upper')
    /\ List.length lower' = List.length var_lower
    /\ List.length upper' = List.length var_upper
    /\ forall j, (j < List.length var_lower)%nat ->
         (nth j lower' 0, nth j upper' 0)
         = if listed (List.length var_lower) integer_vars j
           then round_pair (nth j var_lower 0) (nth j var_upper 0)
           else (nth j var_lower 0, nth j var_upper 0).
Proof. exact (@round_integer_bounds_run var_lower var_upper integer_vars). Qed.

Lemma round_integer_bounds_coordinates_witness :
  exists lower' upper',
    round_integer_bounds [1 # 2; 3 # 2; 7 # 2] [5 # 2; 7 # 4; 1 # 2] [0; -1]%Z
    = Ok (lower', upper')
    /\ List.length lower' = 3%nat.
Proof.
  destruct (@round_integer_bounds_coordinates
              [1 # 2; 3 # 2; 7 # 2] [5 # 2; 7 # 4; 1 # 2] [0; -1]%Z)
    as (lower' & upper' & Hrun & Hlen & _).
  - reflexivity.
  - repeat constructor; unfold valid_index; cbn; lia.
  - exists lower', upper'. auto.
Defined.

(** After [round_integer_bounds] the bounds of every integer variable are
    integers with lower <= upper.  Where the bounds were in order before,
    the lower bound has been rounded down and the upper bound up, so the
    rounded interval contains the original one. *)
Theorem round_integer_bounds_integral (var_lower var_upper : vector)
        integer_vars :
  List.length var_lower = List.length var_upper ->
  Forall (valid_index (List.length var_lower)) integer_vars ->
  exists lower' upper',
    round_integer_bounds var_lower var_upper integer_vars = Ok (lower', upper')
    /\ forall j, (j < List.length var_lower)%nat ->
         listed (List.length var_lower) integer_vars j = true ->
         (exists zl zu : Z,
             nth j lower' 0 = inject_Z zl /\ nth j upper' 0 = inject_Z zu
             /\ (zl <= zu)%Z)
         /\ (nth j var_lower 0 <= nth j var_upper 0 ->
             nth j lower' 0 <= nth j var_lower 0
             /\ nth j var_upper 0 <= nth j upper' 0).
Proof.
  intros Hlen Hvalid.
  destruct (round_integer_bounds_run var_lower var_upper Hlen Hvalid)
    as (lower' & upper' & Hrun & _ & _ & Hnth).
  exists lower', upper'. split; [ exact Hrun | ].
  intros j Hj Hlisted. specialize (Hnth j Hj). rewrite Hlisted in Hnth.
  split.
  - destruct (round_pair_integral (nth j var_lower 0) (nth j var_upper 0))
      as (zl & zu & Hrp & Hle).
    exists zl, zu. rewrite Hrp in Hnth. injection Hnth as -> ->. auto.
  - intros Hordered.
    destruct (round_pair_widens Hordered) as (Hrp & Hlo & Hhi).
    rewrite Hrp in Hnth. injection Hnth as -> ->. auto.
Qed.

Lemma round_integer_bounds_integral_witness :
  exists lower' upper',
    round_integer_bounds [1 # 2; 3 # 2] [5 # 2; 7 # 4] [0]%Z = Ok (lower', upper')
    /\ nth 0 lower' 0 <= 1 # 2 /\ 5 # 2 <= nth 0 upper' 0.
Proof.
  destruct (@round_integer_bounds_integral [1 # 2; 3 # 2] [5 # 2; 7 # 4] [0]%Z)
    as (lower' & upper' & Hrun & Hj).
  - reflexivity.
  - repeat constructor; unfold valid_index; cbn; lia.
  - exists lower', upper'. split; [ exact Hrun | ].
    apply (Hj 0%nat); [ cbn; lia | reflexivity | discriminate ].
Defined.

(** Rounding the bounds a second time changes nothing. *)
Theorem round_integer_bounds_idempotent (var_lower var_upper : vector)
        integer_vars :
  List.length var_lower = List.length var_upper ->
  Forall (valid_index (List.length var_lower)) integer_vars ->
  exists lower' upper',
    round_integer_bounds var_lower var_upper integer_vars = Ok (lower', upper')
    /\ round_integer_bounds lower' upper' integer_vars = Ok (lower', upper').
Proof.
  intros Hlen Hvalid.
  destruct (round_integer_bounds_run var_lower var_upper Hlen Hvalid)
    as (lower' & upper' & Hrun & Hl' & Hu' & Hnth).
  exists lower', upper'. split; [ exact Hrun | ].
  destruct (@round_integer_bounds_run lower' upper' integer_vars)
    as (lower'' & upper'' & Hrun' & Hl'' & Hu'' & Hnth').
  - congruence.
  - rewrite Hl'. exact Hvalid.
  - rewrite Hrun'. rewrite Hl' in Hnth'.
    assert (Hpairs : forall j, (j < List.length var_lower)%nat ->
              (nth j lower'' 0, nth j upper'' 0) = (nth j lower' 0, nth j upper' 0)).
    { intros j Hj. rewrite (Hnth' j Hj).
      destruct (listed (List.length var_lower) integer_vars j) eqn:E;
        [ | reflexivity ].
      pose proof (Hnth j Hj) as Hfirst. rewrite E in Hfirst.
      assert (Hlo : nth j lower' 0
                    = fst (round_pair (nth j var_lower 0) (nth j var_upper 0)))
        by (rewrite <- Hfirst; reflexivity).
      assert (Hhi : nth j upper' 0
                    = snd (round_pair (nth j var_lower 0) (nth j var_upper 0)))
        by (rewrite <- Hfirst; reflexivity).
      rewrite Hlo, Hhi, round_pair_idempotent.
      destruct (round_pair (nth j var_lower 0) (nth j var_upper 0)); reflexivity. }
    f_equal. f_equal.
    + apply (nth_ext _ _ 0 0); [ congruence | ].
      intros j Hj. rewrite Hl'', Hl' in Hj.
      pose proof (Hpairs j Hj) as H. injection H as H1 _. exact H1.
    + apply (nth_ext _ _ 0 0); [ congruence | ].
      intros j Hj. rewrite Hu'', Hu', <- Hlen in Hj.
      pose proof (Hpairs j Hj) as H. injection H as _ H2. exact H2.
Qed.

Lemma round_integer_bounds_idempotent_witness :
  exists lower' upper',
    round_integer_bounds [1 # 2; 7 # 2] [5 # 2; 1 # 2] [0; 1]%Z = Ok (lower', upper')
    /\ round_integer_bounds lower' upper' [0; 1]%Z = Ok (lower', upper').
Proof.
  apply (@round_integer_bounds_idempotent [1 # 2; 7 # 2] [5 # 2; 1 # 2] [0; 1]%Z).
  - reflexivity.
  - repeat constructor; unfold valid_index; cbn; lia.
Defined.

(** ** Rounding a point *)

Lemma take_valid (point : vector) indices :
  Forall (valid_index (List.length point)) indices ->
  take point indices
  = Ok (map (fun i => nth (position (List.length point) i) point 0) indices).
Proof.
  intros Hvalid. unfold take. apply mapM_all_ok.
  intros i Hi. rewrite Forall_forall in Hvalid.
  apply getitem_int_valid. auto.
Qed.

(** The assignment [point[indices] = values] where the values are the
    rounded entries of the array [original] at those indices. *)
Lemma assign_rounded (original : vector) indices :
  forall current : vector,
    List.length current = List.length original ->
    Forall (valid_index (List.length original)) indices ->
    exists point',
      assign current indices
             (map around
                  (map (fun i => nth (position (List.length original) i) original 0)
                       indices))
      = Ok point'
      /\ List.length point' = List.length original
      /\ forall j, (j < List.length original)%nat ->
           nth j point' 0
           = if listed (List.length original) indices j
             then around (nth j original 0)
             else nth j current 0.
Proof.
  induction indices as [|i rest IH]; intros current Hlen Hvalid.
  - exists current. cbn. auto.
  - inversion Hvalid as [|? ? Hi Hrest]; subst.
    cbn [map assign].
    rewrite setitem_int_valid by (rewrite Hlen; exact Hi).
    cbn [bind]. rewrite Hlen.
    set (p := position (List.length original) i).
    assert (Hp : (p < List.length original)%nat)
      by (apply position_in_range; exact Hi).
    destruct (IH (update current p (around (nth p original 0))))
      as (point' & Hrun & Hlen' & Hnth).
    + rewrite update_length. exact Hlen.
    + exact Hrest.
    + exists point'. split; [ exact Hrun | ]. split; [ exact Hlen' | ].
      intros j Hj. rewrite (Hnth j Hj).
      unfold listed. cbn [existsb]. fold (listed (List.length original) rest j).
      fold p.
      destruct (listed (List.length original) rest j);
        [ rewrite orb_true_r; reflexivity | ].
      rewrite orb_false_r. rewrite nth_update by lia.
      destruct (Nat.eqb_spec p j) as [->|Hne].
      * rewrite Nat.eqb_refl. reflexivity.
      * rewrite (proj2 (Nat.eqb_neq j p)) by congruence. reflexivity.
Qed.

Lemma around_nearest x :
  (exists z : Z, around x = inject_Z z) /\ Qabs (around x - x) <= 1 # 2.
Proof.
  unfold around.
  pose proof (Qfloor_le x) as Hlo. pose proof (Qlt_floor x) as Hhi.
  rewrite inject_Z_plus in Hhi. change (inject_Z 1) with 1 in Hhi.
  destruct (Qlt_bool (x - inject_Z (Qfloor x)) (1 # 2)) eqn:E1.
  - apply Qlt_bool_iff in E1. split; [ eexists; reflexivity | ].
    apply Qabs_Qle_condition. split; lra.
  - assert (H1 : 1 # 2 <= x - inject_Z (Qfloor x)).
    { destruct (Qlt_le_dec (x - inject_Z (Qfloor x)) (1 # 2)) as [H|H];
        [ | exact H ].
      apply Qlt_bool_iff in H. congruence. }
    destruct (Qlt_bool (1 # 2) (x - inject_Z (Qfloor x))) eqn:E2.
    + split; [ eexists; reflexivity | ].
      rewrite inject_Z_plus. change (inject_Z 1) with 1.
      apply Qabs_Qle_condition. split; lra.
    + assert (H2 : x - inject_Z (Qfloor x) <= 1 # 2).
      { destruct (Qlt_le_dec (1 # 2) (x - inject_Z (Qfloor x))) as [H|H];
          [ | exact H ].
        apply Qlt_bool_iff in H. congruence. }
      destruct (Z.even (Qfloor x)); (split; [ eexists; reflexivity | ]).
      * apply Qabs_Qle_condition. split; lra.
      * rewrite inject_Z_plus. change (inject_Z 1) with 1.
      apply Qabs_Qle_condition. split; lra.
Qed.

Lemma around_integer (z : Z) : around (inject_Z z) = inject_Z z.
Proof.
  unfold around. rewrite Qfloor_Z.
  assert (H : Qlt_bool (inject_Z z - inject_Z z) (1 # 2) = true).
  { apply Qlt_bool_iff. lra. }
  rewrite H. reflexivity.
Qed.

Lemma round_integer_vars_run (point : vector) integer_vars :
  Forall (valid_index (List.length point)) integer_vars ->
  exists point',
    round_integer_vars point integer_vars = Ok point'
    /\ List.length point' = List.length point
    /\ forall j, (j < List.length point)%nat ->
         nth j point' 0
         = if listed (List.length point) integer_vars j
           then around (nth j point 0)
           else nth j point 0.
Proof.
  intros Hvalid. unfold round_integer_vars.
  destruct integer_vars as [|i rest].
  - exists point. cbn. auto.
  - cbn [nonempty]. rewrite take_valid by exact Hvalid. cbn [bind].
    apply assign_rounded; [ reflexivity | exact Hvalid ].
Qed.

(** [round_integer_vars] replaces the coordinate at every position named
    by [integer_vars] by an integer at distance at most 1/2 from it (the
    value of [np.around]) and leaves every other coordinate as it was. *)
Theorem round_integer_vars_nearest (point : vector) integer_vars :
  Forall (valid_index (List.length point)) integer_vars ->
  exists point',
    round_integer_vars point integer_vars = Ok point'
    /\ List.length point' = List.length point
    /\ forall j, (j < List.length point)%nat ->
         if listed (List.length point) integer_vars j
         then nth j point' 0 = around (nth j point 0)
              /\ (exists z : Z, nth j point' 0 = inject_Z z)
              /\ Qabs (nth j point' 0 - nth j point 0) <= 1 # 2
         else nth j point' 0 = nth j point 0.
Proof.
  intros Hvalid.
  destruct (round_integer_vars_run point Hvalid) as (point' & Hrun & Hlen & Hnth).
  exists point'. split; [ exact Hrun | ]. split; [ exact Hlen | ].
  intros j Hj. specialize (Hnth j Hj).
  destruct (listed (List.length point) integer_vars j); [ | exact Hnth ].
  rewrite Hnth. split; [ reflexivity | ]. apply around_nearest.
Qed.

Lemma round_integer_vars_nearest_witness :
  exists point',
    round_integer_vars [1 # 2; 3 # 2; 7 # 3] [0; -2]%Z = Ok point'
    /\ List.length point' = 3%nat.
Proof.
  destruct (@round_integer_vars_nearest [1 # 2; 3 # 2; 7 # 3] [0; -2]%Z)
    as (point' & Hrun & Hlen & _).
  - repeat constructor; unfold valid_index; cbn; lia.
  - exists point'. auto.
Defined.

(** Rounding a point a second time changes nothing. *)
Theorem round_integer_vars_idempotent (point : vector) integer_vars :
  Forall (valid_index (List.length point)) integer_vars ->
  exists point',
    round_integer_vars point integer_vars = Ok point'
    /\ round_integer_vars point' integer_vars = Ok point'.
Proof.
  intros Hvalid.
  destruct (round_integer_vars_run point Hvalid) as (point' & Hrun & Hlen & Hnth).
  exists point'. split; [ exact Hrun | ].
  destruct (@round_integer_vars_run point' integer_vars)
    as (point'' & Hrun' & Hlen' & Hnth').
  - rewrite Hlen. exact Hvalid.
  - rewrite Hrun'. f_equal.
    apply (nth_ext _ _ 0 0); [ congruence | ].
    intros j Hj. rewrite Hlen', Hlen in Hj. rewrite Hlen in Hnth'.
    rewrite (Hnth' j Hj).
    destruct (listed (List.length point) integer_vars j) eqn:E; [ | reflexivity ].
    pose proof (Hnth j Hj) as Hfirst. rewrite E in Hfirst.
    destruct (around_nearest (nth j point 0)) as [(z & Hz) _].
    rewrite Hfirst, Hz. apply around_integer.
Qed.

Lemma round_integer_vars_idempotent_witness :
  exists point',
    round_integer_vars [1 # 2; 3 # 2; 7 # 3] [0; 1]%Z = Ok point'
    /\ round_integer_vars point' [0; 1]%Z = Ok point'.
Proof.
  apply (@round_integer_vars_idempotent [1 # 2; 3 # 2; 7 # 3] [0; 1]%Z).
  repeat constructor; unfold valid_index; cbn; lia.
Defined.

(** ** Range transformation: scaling modes and clipping modes *)

Lemma dynamism_check_off numpy_scalars settings fmin fmax :
  dynamism_clipping settings = "off"%string ->
  dynamism_check numpy_scalars settings fmin fmax = Ok false.
Proof. intros H. unfold dynamism_check. rewrite H. reflexivity. Qed.

Lemma clip_values_off nan numpy_scalars settings node_val fmin fmax :
  dynamism_clipping settings = "off"%string ->
  clip_values nan numpy_scalars settings node_val fmin fmax = Ok (Some node_val, fmax).
Proof.
  intros H. unfold clip_values. rewrite dynamism_check_off by exact H.
  reflexivity.
Qed.

(** With clipping and scaling both off, the values, the minimum and the
    maximum are returned untouched, and the error bounds are those of
    [get_fast_error_bounds] at the values of the fast nodes, in the order
    of [fast_node_index]. *)
Theorem transform_function_values_off log nan numpy_scalars settings node_val fmin fmax
        fast_node_index :
  dynamism_clipping settings = "off"%string ->
  function_scaling settings = "off"%string ->
  Forall (valid_index (List.length node_val)) fast_node_index ->
  transform_function_values log nan numpy_scalars settings node_val fmin fmax fast_node_index
  = Ok (node_val, fmin, fmax,
        map (fun i => get_fast_error_bounds settings
                        (nth (position (List.length node_val) i) node_val 0))
            fast_node_index).
Proof.
  intros Hclip Hscale Hvalid. unfold transform_function_values.
  rewrite clip_values_off by exact Hclip. cbn [bind].
  rewrite Hscale. cbn [String.eqb Ascii.eqb Bool.eqb local bind].
  destruct fast_node_index as [|i rest]; [ reflexivity | ].
  cbn [nonempty]. rewrite take_valid by exact Hvalid. cbn [bind].
  rewrite bulk_rows, map_map. reflexivity.
Qed.

Lemma transform_function_values_off_witness :
  transform_function_values (fun x => x) 0 true
    (example_settings "cubic" "off" "off" "off") [3; -5; 2] (-5) 3 [1; -1]%Z
  = Ok ([3; -5; 2], -5, 3,
        map (fun i => get_fast_error_bounds
                        (example_settings "cubic" "off" "off" "off")
                        (nth (position (List.length [3; -5; 2]) i) [3; -5; 2] 0))
            [1; -1]%Z).
Proof.
  apply (@transform_function_values_off (fun x => x) 0 true
           (example_settings "cubic" "off" "off" "off") [3; -5; 2] (-5) 3
           [1; -1]%Z).
  - reflexivity.
  - reflexivity.
  - repeat constructor; unfold valid_index; cbn; lia.
Defined.

(** Affine scaling without clipping: when the range [fmax - fmin] exceeds
    a nonnegative zero-tolerance and every value lies between [fmin] and
    [fmax], the returned values lie in [0, 1], the returned minimum is 0
    and the returned maximum is 1.  (The one way the call fails is an index
    of [fast_node_index] outside the array.) *)
Theorem affine_scaling_unit_interval log nan numpy_scalars settings node_val fmin fmax
        fast_node_index :
  dynamism_clipping settings = "off"%string ->
  function_scaling settings = "affine"%string ->
  0 <= eps_zero settings ->
  eps_zero settings < fmax - fmin ->
  Forall (fun v => fmin <= v /\ v <= fmax) node_val ->
  match transform_function_values log nan numpy_scalars settings node_val fmin fmax
          fast_node_index with
  | Ok (values, fmin', fmax', _) =>
      fmin' = 0 /\ fmax' = 1
      /\ List.length values = List.length node_val
      /\ Forall (fun v => 0 <= v /\ v <= 1) values
  | Raise e =>
      e = IndexError /\ some_invalid_index (List.length node_val) fast_node_index
  end.
Proof.
  intros Hclip Hscale Heps Hrange Hvalues. unfold transform_function_values.
  rewrite clip_values_off by exact Hclip. cbn [bind].
  rewrite Hscale. cbn [String.eqb Ascii.eqb Bool.eqb local bind].
  rewrite (proj2 (Qlt_bool_iff _ _) Hrange).
  assert (Hscaled :
            Forall (fun v => 0 <= v /\ v <= 1)
                   (map (fun v => (v - fmin) / (fmax - fmin)) node_val)).
  { apply Forall_forall. intros y Hy. apply in_map_iff in Hy.
    destruct Hy as (v & <- & Hv). rewrite Forall_forall in Hvalues.
    destruct (Hvalues v Hv) as [Hlo Hhi]. split.
    - apply Qle_shift_div_l; lra.
    - apply Qle_shift_div_r; lra. }
  destruct fast_node_index as [|i rest]; cbn [nonempty bind].
  - repeat split; [ apply length_map | exact Hscaled ].
  - destruct (take_cases node_val (i :: rest))
      as [(vs & Hvs)|(Hraise & j & Hj & Hbad)].
    + rewrite Hvs. cbn [bind].
      repeat split; [ apply length_map | exact Hscaled ].
    + rewrite Hraise. cbn [bind]. split; [ reflexivity | ].
      exists j. auto.
Qed.

Lemma affine_scaling_unit_interval_witness :
  match transform_function_values (fun x => x) 0 true
          (example_settings "cubic" "affine" "off" "off") [3; -5; 2] (-5) 3 [1%Z]
  with
  | Ok (values, fmin', fmax', _) =>
      fmin' = 0 /\ fmax' = 1
      /\ List.length values = List.length [3; -5; 2]
      /\ Forall (fun v => 0 <= v /\ v <= 1) values
  | Raise e =>
      e = IndexError /\ some_invalid_index (List.length [3; -5; 2]) [1%Z]
  end.
Proof.
  apply (@affine_scaling_unit_interval (fun x => x) 0 true
           (example_settings "cubic" "affine" "off" "off") [3; -5; 2] (-5) 3
           [1%Z]).
  - reflexivity.
  - reflexivity.
  - discriminate.
  - reflexivity.
  - repeat constructor; discriminate.
Defined.

(** Affine scaling of a flat range: when [fmax - fmin] does not exceed the
    zero-tolerance the divisor is 1, so the values are only shifted by
    [fmin], and both the returned minimum and the returned maximum are
    0. *)
Theorem affine_scaling_flat_range log nan numpy_scalars settings node_val fmin fmax :
  dynamism_clipping settings = "off"%string ->
  function_scaling settings = "affine"%string ->
  fmax - fmin <= eps_zero settings ->
  transform_function_values log nan numpy_scalars settings node_val fmin fmax []
  = Ok (map (fun v => (v - fmin) / 1) node_val, 0, 0, []).
Proof.
  intros Hclip Hscale Hflat. unfold transform_function_values.
  rewrite clip_values_off by exact Hclip. cbn [bind].
  rewrite Hscale. cbn [String.eqb Ascii.eqb Bool.eqb local bind nonempty].
  rewrite (Qlt_bool_false Hflat). reflexivity.
Qed.

Lemma affine_scaling_flat_range_witness :
  transform_function_values (fun x => x) 0 true
    (example_settings "cubic" "affine" "off" "off") [4; 4] 4 4 []
  = Ok (map (fun v => (v - 4) / 1) [4; 4], 0, 0, []).
Proof.
  apply (@affine_scaling_flat_range (fun x => x) 0 true
           (example_settings "cubic" "affine" "off" "off") [4; 4] 4 4).
  - reflexivity.
  - reflexivity.
  - discriminate.
Defined.

(** Clipping at the dynamism threshold, without scaling: when the trigger
    holds, no returned value exceeds the ceiling [threshold * m], where
    [m] is [|fmin|] above the zero-tolerance and 1 otherwise; the returned
    maximum is that ceiling and the minimum is unchanged. *)
Theorem clip_at_dyn_ceiling log nan numpy_scalars settings node_val fmin fmax
        fast_node_index :
  dynamism_clipping settings = "clip_at_dyn"%string ->
  function_scaling settings = "off"%string ->
  dynamism_triggered settings fmin fmax ->
  let ceiling :=
    dynamism_threshold settings
    * (if Qlt_bool (eps_zero settings) (Qabs fmin) then Qabs fmin else 1) in
  match transform_function_values log nan numpy_scalars settings node_val fmin fmax
          fast_node_index with
  | Ok (values, fmin', fmax', _) =>
      Forall (fun v => v <= ceiling) values
      /\ List.length values = List.length node_val
      /\ fmin' = fmin /\ fmax' = ceiling
  | Raise e =>
      e = IndexError /\ some_invalid_index (List.length node_val) fast_node_index
  end.
Proof.
  intros Hclip Hoff Htrig ceiling.
  unfold transform_function_values, clip_values.
  rewrite dynamism_check_triggered;
    [ | rewrite Hclip; discriminate | exact Htrig ].
  cbn [bind]. rewrite Hclip, Hoff.
  cbn [String.eqb Ascii.eqb Bool.eqb local bind]. fold ceiling.
  assert (Hcount : List.length (clip_max node_val ceiling) = List.length node_val)
    by (unfold clip_max; apply length_map).
  destruct fast_node_index as [|i idx]; cbn [nonempty bind].
  - repeat split; [ apply clip_max_bounded | exact Hcount ].
  - destruct (take_cases (clip_max node_val ceiling) (i :: idx))
      as [(vs & Hvs)|(Hraise & j & Hj & Hbad)].
    + rewrite Hvs. cbn [bind].
      repeat split; [ apply clip_max_bounded | exact Hcount ].
    + rewrite Hraise. cbn [bind]. split; [ reflexivity | ].
      exists j. split; [ exact Hj | ]. rewrite <- Hcount. exact Hbad.
Qed.

Lemma clip_at_dyn_ceiling_witness :
  match transform_function_values (fun x => x) 0 true
          (example_settings "cubic" "off" "clip_at_dyn" "off")
          [1; 2; 1000] 1 1000 []
  with
  | Ok (values, fmin', fmax', _) =>
      Forall (fun v => v <= 100 * (if Qlt_bool (1 # 1000000000000000) (Qabs 1)
                                   then Qabs 1 else 1)) values
      /\ List.length values = List.length [1; 2; 1000]
      /\ fmin' = 1
      /\ fmax' = 100 * (if Qlt_bool (1 # 1000000000000000) (Qabs 1)
                        then Qabs 1 else 1)
  | Raise e =>
      e = IndexError /\ some_invalid_index (List.length [1; 2; 1000]) []
  end.
Proof.
  apply (@clip_at_dyn_ceiling (fun x => x) 0 true
           (example_settings "cubic" "off" "clip_at_dyn" "off")
           [1; 2; 1000] 1 1000 []).
  - reflexivity.
  - reflexivity.
  - left. cbn. repeat split; reflexivity.
Defined.

(** A function-scaling mode other than 'off', 'affine' and 'log' never
    produces a result: the call raises the [ValueError] that quotes the
    mode (or the [ZeroDivisionError] of the dynamism test, when that test
    divides Python floats by a zero [|fmin|]). *)
Theorem unknown_function_scaling_rejected log nan numpy_scalars settings node_val fmin fmax
        fast_node_index :
  function_scaling settings <> "off"%string ->
  function_scaling settings <> "affine"%string ->
  function_scaling settings <> "log"%string ->
  (transform_function_values log nan numpy_scalars settings node_val fmin fmax fast_node_index
   = Raise (ValueError (unknown_function_scaling_message settings))
   \/ transform_function_values log nan numpy_scalars settings node_val fmin fmax
        fast_node_index
      = Raise ZeroDivisionError)
  /\ (dynamism_clipping settings = "off"%string ->
      transform_function_values log nan numpy_scalars settings node_val fmin fmax
        fast_node_index
      = Raise (ValueError (unknown_function_scaling_message settings))).
Proof.
  intros Hoff Haff Hlog.
  apply String.eqb_neq in Hoff. apply String.eqb_neq in Haff.
  apply String.eqb_neq in Hlog.
  assert (Hrun : forall clipped,
            clip_values nan numpy_scalars settings node_val fmin fmax = Ok clipped ->
            transform_function_values log nan numpy_scalars settings node_val fmin fmax
              fast_node_index
            = Raise (ValueError (unknown_function_scaling_message settings))).
  { intros [clip_val fmax'] Hclipped. unfold transform_function_values.
    rewrite Hclipped. cbn [bind]. rewrite Hoff, Haff, Hlog. reflexivity. }
  split.
  - destruct (clip_values nan numpy_scalars settings node_val fmin fmax) as [clipped|e] eqn:E.
    + left. apply (Hrun clipped). reflexivity.
    + right. unfold transform_function_values. rewrite E. cbn [bind].
      f_equal. unfold clip_values, dynamism_check, py_div in E.
      repeat match type of E with
             | context [if ?b then _ else _] => destruct b; cbn [bind] in E
             end; congruence.
  - intros Hclip. apply (Hrun (Some node_val, fmax)).
    apply clip_values_off. exact Hclip.
Qed.

Lemma unknown_function_scaling_rejected_witness :
  transform_function_values (fun x => x) 0 true
    (example_settings "cubic" "sqrt" "off" "off") [1; 2] 1 2 []
  = Raise (ValueError (unknown_function_scaling_message
                         (example_settings "cubic" "sqrt" "off" "off"))).
Proof.
  apply (@unknown_function_scaling_rejected (fun x => x) 0 true
           (example_settings "cubic" "sqrt" "off" "off") [1; 2] 1 2 []);
    try discriminate.
  reflexivity.
Defined.

(** A clipping mode other than 'off', 'median' and 'clip_at_dyn' is not
    rejected with a configuration error: when the dynamism trigger holds,
    every known scaling mode fails with [UnboundLocalError] on its first
    use of the clipped values, which no branch has assigned. *)
Theorem unknown_clipping_mode_unbound log nan numpy_scalars settings node_val fmin fmax
        fast_node_index :
  dynamism_clipping settings <> "off"%string ->
  dynamism_clipping settings <> "median"%string ->
  dynamism_clipping settings <> "clip_at_dyn"%string ->
  function_scaling settings = "off"%string
  \/ function_scaling settings = "affine"%string
  \/ function_scaling settings = "log"%string ->
  dynamism_triggered settings fmin fmax ->
  transform_function_values log nan numpy_scalars settings node_val fmin fmax fast_node_index
  = Raise UnboundLocalError.
Proof.
  intros Hoff Hmed Hdyn Hscale Htrig.
  unfold transform_function_values, clip_values.
  rewrite dynamism_check_triggered by assumption.
  apply String.eqb_neq in Hmed. apply String.eqb_neq in Hdyn.
  cbn [bind]. rewrite Hmed, Hdyn.
  destruct Hscale as [H|[H|H]]; rewrite H;
    cbn [String.eqb Ascii.eqb Bool.eqb local bind].
  - reflexivity.
  - reflexivity.
  - destruct fast_node_index; cbn [nonempty negb bind getitem nth_error
                                     get_fast_error_bounds local];
      reflexivity.
Qed.

Lemma unknown_clipping_mode_unbound_witness :
  transform_function_values (fun x => x) 0 true
    (example_settings "cubic" "off" "mean" "off") [1; 2; 1000] 1 1000 []
  = Raise UnboundLocalError.
Proof.
  apply (@unknown_clipping_mode_unbound (fun x => x) 0 true
           (example_settings "cubic" "off" "mean" "off") [1; 2; 1000] 1 1000 []);
    try discriminate.
  - left. reflexivity.
  - left. cbn. repeat split; reflexivity.
Defined.

(** ** The sign of the optimality gap *)

(** With a positive zero-tolerance, [compute_gap] returns a value that is
    nonnegative exactly when [fmin] plus the shift is at least the target,
    and zero exactly when the two are equal. *)
Theorem compute_gap_sign numpy_scalars settings fmin (is_best_fast : bool) :
  0 < eps_zero settings ->
  let shift := if is_best_fast
               then Qabs fmin * fast_objfun_rel_error settings
                    + fast_objfun_abs_error settings
               else 0 in
  exists gap,
    compute_gap numpy_scalars settings fmin is_best_fast = Ok (Finite gap)
    /\ (0 <= gap <-> target_objval settings <= fmin + shift)
    /\ (gap == 0 <-> fmin + shift == target_objval settings).
Proof.
  intros Heps shift.
  set (den := if Qle_bool (eps_zero settings) (Qabs (target_objval settings))
              then Qabs (target_objval settings) else 1).
  assert (Hden : 0 < den).
  { unfold den. destruct (Qle_bool _ _) eqn:E.
    - apply Qle_bool_iff in E. lra.
    - reflexivity. }
  set (num := fmin + shift - target_objval settings).
  assert (Hgap : compute_gap numpy_scalars settings fmin is_best_fast
                 = Ok (Finite (num / den))).
  { unfold compute_gap, num, shift. fold den.
    destruct is_best_fast; cbn [bind getitem get_fast_error_bounds nth_error];
      unfold py_div;
      (destruct (Qeq_bool den 0) eqn:E;
       [ apply Qeq_bool_iff in E; lra | reflexivity ]). }
  exists (num / den). split; [ exact Hgap | ].
  assert (Hnum : num == num / den * den) by (field; lra).
  split; split.
  - intros Hg.
    assert (0 <= num / den * den) by (apply Qmult_le_0_compat; lra).
    unfold num in *. lra.
  - intros Ht. apply Qle_shift_div_l; [ exact Hden | ]. unfold num. lra.
  - intros Hg. rewrite Hg in Hnum. unfold num in Hnum. lra.
  - intros Ht.
    assert (Hz : num == 0) by (unfold num; lra).
    rewrite Hz. field. lra.
Qed.

Lemma compute_gap_sign_witness :
  exists gap,
    compute_gap false (example_settings "cubic" "off" "off" "off") 3 false
    = Ok (Finite gap)
    /\ (0 <= gap <-> 2 <= 3 + 0).
Proof.
  destruct (@compute_gap_sign false (example_settings "cubic" "off" "off" "off") 3 false)
    as (gap & Hrun & Hsign & _).
  - reflexivity.
  - exists gap. split; [ exact Hrun | exact Hsign ].
Defined.

(** ** The interpolation matrix *)

Lemma bind_ok {A B} (r : result A) (k : A -> result B) b :
  bind r k = Ok b -> exists a, r = Ok a /\ k a = Ok b.
Proof.
  destruct r as [a|e]; cbn; [ | discriminate ].
  intros H. exists a. auto.
Qed.

Lemma zero_tiny_snapped eps a : snapped eps (zero_tiny eps a).
Proof.
  unfold snapped, zero_tiny. apply Forall_forall. intros row Hrow.
  apply in_map_iff in Hrow. destruct Hrow as (r & <- & _).
  apply Forall_forall. intros x Hx. apply in_map_iff in Hx.
  destruct Hx as (y & <- & _).
  destruct (Qlt_bool (Qabs y) eps) eqn:E; [ left; reflexivity | right ].
  destruct (Qlt_le_dec (Qabs y) eps) as [H|H]; [ | exact H ].
  apply Qlt_bool_iff in H. congruence.
Qed.

(** Whatever [get_rbf_matrix] and [get_matrix_inverse] return has no
    entry strictly between 0 and the zero-tolerance in absolute value:
    each entry is exactly 0 or at least the tolerance. *)
Theorem small_entries_snapped log sqrt GAMMA linalg_inv settings n k node_pos
        Amat :
  (forall A, get_rbf_matrix log sqrt GAMMA settings n k node_pos = Ok A ->
             snapped (eps_zero settings) A)
  /\ (forall Ainv, snd (get_matrix_inverse linalg_inv settings Amat) = Ok Ainv ->
                   snapped (eps_zero settings) Ainv).
Proof.
  split.
  - intros A H. unfold get_rbf_matrix, assert in H.
    destruct (Z.of_nat (List.length node_pos) =? k)%Z; [ | discriminate ].
    apply bind_ok in H. destruct H as (P & _ & H).
    apply bind_ok in H. destruct H as (Phi & _ & H).
    apply bind_ok in H. destruct H as (top & _ & H).
    apply bind_ok in H. destruct H as (Z0 & _ & H).
    apply bind_ok in H. destruct H as (bottom & _ & H).
    injection H as <-. apply zero_tiny_snapped.
  - intros Ainv H. unfold get_matrix_inverse in H.
    destruct (linalg_inv Amat) as [e|inv]; cbn in H; [ discriminate | ].
    injection H as <-. apply zero_tiny_snapped.
Qed.

Lemma small_entries_snapped_witness :
  snapped (eps_zero (example_settings "linear" "off" "off" "off"))
          [[0; 1; 1]; [1; 0; 1]; [1; 1; 0]].
Proof.
  destruct (@small_entries_snapped (fun x => x) (fun x => x) 1 exact_inv
              (example_settings "linear" "off" "off" "off") 1%Z 2%Z
              [[0]; [1]] []) as [H _].
  apply H. reflexivity.
Defined.

Lemma map2_nth {A B C} (f : A -> B -> C) (a : list A) (b : list B) i da db dc :
  List.length a = List.length b -> (i < List.length a)%nat ->
  nth i (map2 f a b) dc = f (nth i a da) (nth i b db).
Proof.
  revert b i. induction a as [|x a IH]; intros [|y b] [|i] Hlen Hi;
    cbn in *; try lia; try discriminate; auto.
  apply IH; lia.
Qed.

(** The transpose of a rectangular array with at least one row. *)
Lemma transpose_rectangular (P : matrix) p :
  P <> [] -> Forall (fun row => List.length row = p) P ->
  List.length (transpose P) = p
  /\ forall c, (c < p)%nat ->
       nth c (transpose P) [] = map (fun row => nth c row 0) P.
Proof.
  induction P as [|r rest IH]; intros Hne Hrows; [ congruence | ].
  inversion Hrows as [|? ? Hr Hrest]; subst.
  destruct rest as [|r' rest'].
  - cbn [transpose map]. split; [ apply length_map | ].
    intros c Hc.
    rewrite (nth_indep _ [] [0]) by (rewrite length_map; exact Hc).
    exact (map_nth (fun x => [x]) r 0 c).
  - destruct IH as [Hlen Hnth]; [ discriminate | exact Hrest | ].
    change (transpose (r :: r' :: rest'))
      with (map2 cons r (transpose (r' :: rest'))).
    split.
    + rewrite map2_length; congruence.
    + intros c Hc.
      rewrite (map2_nth cons r (transpose (r' :: rest')) 0 [] [])
        by congruence.
      rewrite Hnth by congruence. reflexivity.
Qed.

Lemma snap_zero eps : snap eps 0 = 0.
Proof. unfold snap. destruct (Qlt_bool (Qabs 0) eps); reflexivity. Qed.

Lemma nth_map_snap eps (row : vector) j :
  nth j (map (fun x => if Qlt_bool (Qabs x) eps then 0 else x) row) 0
  = snap eps (nth j row 0).
Proof.
  revert j. induction row as [|x row IH]; intros [|j]; cbn [map nth];
    rewrite ?snap_zero; try reflexivity.
  apply IH.
Qed.

Lemma zero_tiny_entry eps a i j :
  entry (zero_tiny eps a) i j = snap eps (entry a i j).
Proof.
  unfold entry, zero_tiny.
  rewrite <- nth_map_snap. f_equal.
  exact (map_nth (map (fun x => if Qlt_bool (Qabs x) eps then 0 else x)) a [] i).
Qed.

Lemma zero_tiny_shape eps a :
  List.length (zero_tiny eps a) = List.length a
  /\ forall m, Forall (fun row => List.length row = m) a ->
               Forall (fun row => List.length row = m) (zero_tiny eps a).
Proof.
  unfold zero_tiny. split; [ apply length_map | ].
  intros m Hrows. apply Forall_forall. intros row Hrow.
  apply in_map_iff in Hrow. destruct Hrow as (r & <- & Hr).
  rewrite length_map. rewrite Forall_forall in Hrows. auto.
Qed.

(** The square of a difference does not depend on the order of its
    operands, not even in its representation as a fraction. *)
Lemma square_difference_sym (a b : Q) : (a - b) * (a - b) = (b - a) * (b - a).
Proof.
  destruct a as [na da], b as [nb db].
  unfold Qminus, Qplus, Qopp, Qmult. cbn [Qnum Qden]. f_equal.
  - ring.
  - rewrite (Pos.mul_comm db da). reflexivity.
Qed.

Lemma distance_sym sqrt (x y : vector) :
  List.length x = List.length y -> distance sqrt x y = distance sqrt y x.
Proof.
  intros Hlen. unfold distance. f_equal. f_equal.
  revert y Hlen. induction x as [|a x IH]; intros [|b y] Hlen;
    cbn in *; try discriminate; [ reflexivity | ].
  f_equal; [ apply square_difference_sym | apply IH; congruence ].
Qed.

Lemma map2_app_rows (a b : matrix) m1 m2 :
  List.length a = List.length b ->
  Forall (fun row => List.length row = m1) a ->
  Forall (fun row => List.length row = m2) b ->
  Forall (fun row => List.length row = (m1 + m2)%nat) (map2 (@app Q) a b).
Proof.
  revert b. induction a as [|x a IH]; intros [|y b] Hlen Ha Hb;
    cbn in *; try discriminate; [ constructor | ].
  inversion Ha; subst. inversion Hb; subst.
  constructor; [ apply length_app | ].
  apply IH; [ congruence | assumption | assumption ].
Qed.

Lemma rows_nth_length (a : matrix) m i :
  Forall (fun row => List.length row = m) a -> (i < List.length a)%nat ->
  List.length (nth i a []) = m.
Proof.
  intros Hrows Hi. rewrite Forall_forall in Hrows.
  apply Hrows. apply nth_In. exact Hi.
Qed.

(** The entries of the block array [[Phi P; P^T 0]], before the small
    entries are snapped. *)
Lemma blocks_structure (Phi P : matrix) K q :
  (1 <= K)%nat ->
  List.length Phi = K -> Forall (fun row => List.length row = K) Phi ->
  List.length P = K -> Forall (fun row => List.length row = q) P ->
  let B := vstack (beside Phi P)
                  (beside (transpose P) (repeat (repeat 0 q) q)) in
  List.length B = (K + q)%nat
  /\ Forall (fun row => List.length row = (K + q)%nat) B
  /\ (forall i j, (i < K)%nat -> (j < K)%nat -> entry B i j = entry Phi i j)
  /\ (forall i c, (i < K)%nat -> (c < q)%nat ->
        entry B i (K + c) = entry P i c)
  /\ (forall c j, (c < q)%nat -> (j < K)%nat ->
        entry B (K + c) j = entry P j c)
  /\ (forall c c', (c < q)%nat -> (c' < q)%nat ->
        entry B (K + c) (K + c') = 0).
Proof.
  intros HK HPhi HPhirows HP HProws B.
  assert (HPne : P <> []) by (destruct P; cbn in HP; [ lia | discriminate ]).
  destruct (transpose_rectangular HPne HProws) as [HTlen HTnth].
  assert (Htop : List.length (beside Phi P) = K)
    by (unfold beside; rewrite map2_length; congruence).
  assert (Hzeros : List.length (repeat (repeat 0 q) q) = q)
    by apply repeat_length.
  assert (Hbottom : List.length (beside (transpose P) (repeat (repeat 0 q) q)) = q)
    by (unfold beside; rewrite map2_length; congruence).
  assert (Htoprow : forall i, (i < K)%nat ->
            nth i B [] = nth i Phi [] ++ nth i P []).
  { intros i Hi. unfold B, vstack. rewrite app_nth1 by lia.
    unfold beside. apply map2_nth; congruence. }
  assert (Hbottomrow : forall c, (c < q)%nat ->
            nth (K + c) B [] = map (fun row => nth c row 0) P ++ repeat 0 q).
  { intros c Hc. unfold B, vstack. rewrite app_nth2 by lia.
    rewrite Htop. replace (K + c - K)%nat with c by lia.
    unfold beside.
    rewrite (map2_nth (@app Q) (transpose P) (repeat (repeat 0 q) q) [] [] [])
      by congruence.
    rewrite HTnth by exact Hc. f_equal.
    apply nth_error_nth. apply nth_error_repeat. exact Hc. }
  split; [ unfold B, vstack; rewrite length_app; lia | ].
  split.
  { unfold B, vstack. apply Forall_app. split.
    - unfold beside. apply map2_app_rows; congruence.
    - apply Forall_nth. intros c d Hc. rewrite Hbottom in Hc.
      rewrite (nth_indep _ d []) by lia.
      pose proof (Hbottomrow c Hc) as Hrow. unfold B, vstack in Hrow.
      rewrite app_nth2 in Hrow by lia. rewrite Htop in Hrow.
      replace (K + c - K)%nat with c in Hrow by lia.
      rewrite Hrow, length_app, length_map, repeat_length. lia. }
  split; [ | split; [ | split ] ].
  - intros i j Hi Hj. unfold entry. rewrite Htoprow by exact Hi.
    rewrite app_nth1; [ reflexivity | ].
    rewrite (@rows_nth_length Phi K i HPhirows); lia.
  - intros i c Hi Hc. unfold entry. rewrite Htoprow by exact Hi.
    rewrite app_nth2 by (rewrite (@rows_nth_length Phi K i HPhirows); lia).
    rewrite (@rows_nth_length Phi K i HPhirows) by lia.
    replace (K + c - K)%nat with c by lia. reflexivity.
  - intros c j Hc Hj. unfold entry. rewrite Hbottomrow by exact Hc.
    rewrite app_nth1 by (rewrite length_map; lia).
    rewrite (nth_indep _ 0 ((fun row => nth c row 0) []))
      by (rewrite length_map; lia).
    exact (map_nth (fun row => nth c row 0) P [] j).
  - intros c c' Hc Hc'. unfold entry. rewrite Hbottomrow by exact Hc.
    rewrite app_nth2 by (rewrite length_map; lia).
    rewrite length_map, HP. replace (K + c' - K)%nat with c' by lia.
    apply nth_repeat.
Qed.

Section MatrixStructure.

Variables (log sqrt : Q -> Q) (GAMMA : Q).
Hypothesis sqrt_nonneg : forall x, 0 <= sqrt x.

(** With a square root that is never negative, the basis function of a
    supported kernel returns a value at every distance. *)
Lemma basis_function_total settings :
  In (rbf settings) supported_kernels ->
  exists f,
    get_rbf_function log sqrt GAMMA settings = Some f
    /\ forall r, 0 <= r -> f r = Ok (basis_value log sqrt GAMMA settings r).
Proof.
  unfold supported_kernels, get_rbf_function, basis_value. cbn [In].
  intros [H|[H|[H|[H|[]]]]]; rewrite <- H; cbn [String.eqb Ascii.eqb Bool.eqb];
    eexists; (split; [ reflexivity | ]); intros r Hr; try reflexivity.
  unfold _thin_plate_spline, math_log.
  destruct (Qeq_bool r 0) eqn:E; [ reflexivity | ].
  assert (Hpos : Qle_bool r 0 = false).
  { destruct (Qle_bool r 0) eqn:E'; [ | reflexivity ].
    apply Qle_bool_iff in E'.
    assert (Hz : r == 0) by lra. apply Qeq_bool_iff in Hz. congruence. }
  rewrite Hpos. reflexivity.
Qed.

Lemma insert_column_append (node_pos : matrix) (n : nat) :
  Forall (fun row => List.length row = n) node_pos ->
  insert_column node_pos (Z.of_nat n) 1
  = Ok (map (fun row => row ++ [1]) node_pos).
Proof.
  intros Hrows. unfold insert_column. apply mapM_all_ok.
  intros row Hrow. rewrite Forall_forall in Hrows.
  specialize (Hrows row Hrow). unfold insert_at. rewrite Hrows.
  rewrite (proj2 (andb_true_iff _ _))
    by (split; apply Z.leb_le; lia).
  rewrite Nat2Z.id, <- Hrows, firstn_all, skipn_all. reflexivity.
Qed.

(** The polynomial block [P]: one row per node, [p] columns. *)
Lemma polynomial_block settings (node_pos : matrix) (n : nat) :
  In (rbf settings) supported_kernels ->
  Forall (fun row => List.length row = n) node_pos ->
  let p := get_size_P_matrix settings (Z.of_nat n) in
  exists P,
    (if (p =? Z.of_nat n + 1)%Z then insert_column node_pos (Z.of_nat n) 1
     else if (p =? 1)%Z then full 1 (Z.of_nat (List.length node_pos)) 1
     else Raise (ValueError (unsupported_kernel_message settings)))
    = Ok P
    /\ (0 <= p)%Z
    /\ List.length P = List.length node_pos
    /\ Forall (fun row => List.length row = Z.to_nat p) P.
Proof.
  intros Hin Hrows p.
  assert (Hp : (p = Z.of_nat n + 1 \/ p = 1)%Z).
  { unfold p, get_size_P_matrix, supported_kernels in *. cbn [In] in Hin.
    destruct Hin as [H|[H|[H|[H|[]]]]]; rewrite <- H;
      cbn [String.eqb Ascii.eqb Bool.eqb orb]; auto. }
  destruct (Z.eqb_spec p (Z.of_nat n + 1)) as [Heq|Hne].
  - rewrite insert_column_append by exact Hrows.
    eexists. split; [ reflexivity | ]. split; [ lia | ].
    split; [ apply length_map | ].
    apply Forall_forall. intros row Hrow. apply in_map_iff in Hrow.
    destruct Hrow as (r & <- & Hr). rewrite Forall_forall in Hrows.
    rewrite length_app, (Hrows r Hr), Heq. cbn. lia.
  - destruct Hp as [Hp|Hp]; [ contradiction | ].
    rewrite Hp. cbn [Z.eqb]. unfold full.
    rewrite (proj2 (orb_false_iff _ _))
      by (split; apply Z.ltb_ge; lia).
    eexists. split; [ reflexivity | ]. split; [ lia | ].
    rewrite Nat2Z.id. split; [ apply repeat_length | ].
    apply Forall_forall. intros row Hrow. apply repeat_spec in Hrow.
    subst row. reflexivity.
Qed.

Lemma distance_nonneg (x y : vector) : 0 <= distance sqrt x y.
Proof. unfold distance. apply sqrt_nonneg. Qed.

(** The block [Phi]: the basis function at every pairwise distance. *)
Lemma kernel_block settings (node_pos : matrix) f :
  node_pos <> [] ->
  (forall r, 0 <= r -> f r = Ok (basis_value log sqrt GAMMA settings r)) ->
  vectorize (Some f) (cdist sqrt node_pos node_pos)
  = Ok (map (fun x =>
               map (fun y => basis_value log sqrt GAMMA settings
                               (distance sqrt x y)) node_pos)
            node_pos).
Proof.
  intros Hne Hf. unfold vectorize.
  destruct (List.concat (cdist sqrt node_pos node_pos)) eqn:E.
  - exfalso. destruct node_pos as [|x rest]; [ congruence | ].
    cbn in E. discriminate E.
  - unfold cdist.
    rewrite (mapM_all_ok (mapM f)
               (map (basis_value log sqrt GAMMA settings))).
    + rewrite map_map. f_equal. apply map_ext. intros x. apply map_map.
    + intros row Hrow. apply in_map_iff in Hrow. destruct Hrow as (x & <- & _).
      apply mapM_all_ok. intros d Hd. apply in_map_iff in Hd.
      destruct Hd as (y & <- & _). apply Hf. apply distance_nonneg.
Qed.

End MatrixStructure.

Lemma kernel_block_entry log sqrt GAMMA settings (node_pos : matrix) i j :
  (i < List.length node_pos)%nat -> (j < List.length node_pos)%nat ->
  entry (map (fun x =>
                map (fun y => basis_value log sqrt GAMMA settings
                                (distance sqrt x y)) node_pos)
             node_pos) i j
  = basis_value log sqrt GAMMA settings
      (distance sqrt (nth i node_pos []) (nth j node_pos [])).
Proof.
  intros Hi Hj. unfold entry.
  rewrite (nth_indep _ []
             ((fun x => map (fun y => basis_value log sqrt GAMMA settings
                                        (distance sqrt x y)) node_pos) []))
    by (rewrite length_map; exact Hi).
  rewrite (map_nth (fun x => map (fun y => basis_value log sqrt GAMMA settings
                                          (distance sqrt x y)) node_pos)).
  rewrite (nth_indep _ 0
             ((fun y => basis_value log sqrt GAMMA settings
                          (distance sqrt (nth i node_pos []) y)) []))
    by (rewrite length_map; exact Hj).
  exact (map_nth (fun y => basis_value log sqrt GAMMA settings
                             (distance sqrt (nth i node_pos []) y))
                 node_pos [] j).
Qed.

(** For a supported kernel and at least one node, [get_rbf_matrix] returns
    a square array of side [k + p] that is symmetric; its entry [(i, j)]
    for two nodes is the basis function at their distance, snapped to 0
    below the zero-tolerance, and its lower right [p] by [p] block is
    zero.  (The square root is taken never to be negative.) *)
Theorem get_rbf_matrix_structure log sqrt GAMMA settings (node_pos : matrix)
        (n : nat) :
  (forall x, 0 <= sqrt x) ->
  In (rbf settings) supported_kernels ->
  node_pos <> [] ->
  Forall (fun row => List.length row = n) node_pos ->
  let K := List.length node_pos in
  let q := Z.to_nat (get_size_P_matrix settings (Z.of_nat n)) in
  exists A,
    get_rbf_matrix log sqrt GAMMA settings (Z.of_nat n) (Z.of_nat K) node_pos
    = Ok A
    /\ List.length A = (K + q)%nat
    /\ Forall (fun row => List.length row = (K + q)%nat) A
    /\ (forall i j, (i < K + q)%nat -> (j < K + q)%nat ->
          entry A i j = entry A j i)
    /\ (forall i j, (i < K)%nat -> (j < K)%nat ->
          entry A i j
          = snap (eps_zero settings)
                 (basis_value log sqrt GAMMA settings
                    (distance sqrt (nth i node_pos []) (nth j node_pos []))))
    /\ (forall i j, (K <= i < K + q)%nat -> (K <= j < K + q)%nat ->
          entry A i j = 0).
Proof.
  intros Hsqrt Hin Hne Hrows K q.
  destruct (@basis_function_total log sqrt GAMMA settings Hin) as (f & Hf & Hftotal).
  destruct (@polynomial_block settings node_pos n Hin Hrows) as (P & HP & Hp & HPlen & HProws).
  unfold unsupported_kernel_message in HP.
  assert (HK : (1 <= K)%nat).
  { unfold K. destruct node_pos; [ congruence | cbn; lia ]. }
  assert (HPne : P <> []) by (destruct P; cbn in HPlen; [ lia | discriminate ]).
  set (Phi := map (fun x =>
                     map (fun y => basis_value log sqrt GAMMA settings
                                     (distance sqrt x y)) node_pos)
                  node_pos).
  assert (HPhilen : List.length Phi = K) by apply length_map.
  assert (HPhirows : Forall (fun row => List.length row = K) Phi).
  { apply Forall_forall. intros row Hrow. apply in_map_iff in Hrow.
    destruct Hrow as (x & <- & _). apply length_map. }
  destruct (@blocks_structure Phi P K q HK HPhilen HPhirows HPlen HProws)
    as (Hlen & Hshape & Hpp & Hpq & Hqp & Hqq).
  set (B := vstack (beside Phi P)
                   (beside (transpose P) (repeat (repeat 0 q) q))) in *.
  assert (Hrun : get_rbf_matrix log sqrt GAMMA settings (Z.of_nat n)
                                (Z.of_nat K) node_pos
                 = Ok (zero_tiny (eps_zero settings) B)).
  { unfold get_rbf_matrix, K. rewrite Z.eqb_refl. cbn [assert].
    rewrite HP. cbn [bind]. rewrite Hf.
    rewrite (@kernel_block log sqrt GAMMA Hsqrt settings node_pos f Hne Hftotal).
    cbn [bind].
    unfold hstack. fold Phi. rewrite HPhilen, HPlen, Nat.eqb_refl. cbn [bind].
    unfold full.
    rewrite (proj2 (orb_false_iff _ _))
      by (split; apply Z.ltb_ge; exact Hp).
    cbn [bind].
    rewrite (proj1 (transpose_rectangular HPne HProws)).
    fold q. rewrite repeat_length, Nat.eqb_refl. reflexivity. }
  assert (Hsym : forall i j, (i < K + q)%nat -> (j < K + q)%nat ->
                   entry B i j = entry B j i).
  { intros i j Hi Hj.
    destruct (Nat.lt_ge_cases i K) as [HiK|HiK];
      destruct (Nat.lt_ge_cases j K) as [HjK|HjK].
    - rewrite !Hpp by assumption. unfold Phi.
      rewrite !kernel_block_entry by assumption.
      f_equal. apply distance_sym.
      rewrite !(@rows_nth_length node_pos n) by assumption. reflexivity.
    - replace j with (K + (j - K))%nat by lia.
      rewrite Hpq, Hqp by lia. reflexivity.
    - replace i with (K + (i - K))%nat by lia.
      rewrite Hpq, Hqp by lia. reflexivity.
    - replace i with (K + (i - K))%nat by lia.
      replace j with (K + (j - K))%nat by lia.
      rewrite !Hqq by lia. reflexivity. }
  exists (zero_tiny (eps_zero settings) B).
  destruct (zero_tiny_shape (eps_zero settings) B) as [Hzlen Hzrows].
  split; [ exact Hrun | ]. split; [ congruence | ].
  split; [ apply Hzrows; exact Hshape | ].
  split; [ | split ].
  - intros i j Hi Hj. rewrite !zero_tiny_entry. f_equal. apply Hsym; assumption.
  - intros i j Hi Hj. rewrite zero_tiny_entry, Hpp by assumption.
    unfold Phi. rewrite kernel_block_entry by assumption. reflexivity.
  - intros i j Hi Hj. rewrite zero_tiny_entry.
    replace i with (K + (i - K))%nat by lia.
    replace j with (K + (j - K))%nat by lia.
    rewrite Hqq by lia. apply snap_zero.
Qed.

Lemma get_rbf_matrix_structure_witness :
  exists A,
    get_rbf_matrix (fun x => x) (fun x => x * x) 1
      (example_settings "linear" "off" "off" "off") 1 2 [[0]; [2]] = Ok A
    /\ List.length A = 3%nat
    /\ entry A 0 1 = entry A 1 0.
Proof.
  destruct (@get_rbf_matrix_structure (fun x => x) (fun x => x * x) 1
              (example_settings "linear" "off" "off" "off") [[0]; [2]] 1%nat)
    as (A & Hrun & Hlen & _ & Hsym & _).
  - intros x. nra.
  - cbn. tauto.
  - discriminate.
  - repeat constructor.
  - exists A. split; [ exact Hrun | ]. split; [ exact Hlen | ].
    apply Hsym; cbn; lia.
Defined.

(** Nodes of another dimension than [n]: the blocks do not fit. *)
Example get_rbf_matrix_wrong_dimension :
  exists msg,
    get_rbf_matrix (fun x => x) (fun x => x) 1
      (example_settings "cubic" "off" "off" "off") 1 2 [[0; 0]; [1; 1]]
    = Raise (ValueError msg).
Proof. eexists. reflexivity. Qed.

(** ** Evaluation of the interpolant *)

Example evaluate_rbf_ex :
  evaluate_rbf (fun x => x) (fun x => x) 1
    (example_settings "linear" "off" "off" "off") [2] 1 2 [[0]; [1]] [3; 5] [7]
  = bind (bulk_evaluate_rbf (fun x => x) (fun x => x) 1
            (example_settings "linear" "off" "off" "off") [[2]] 1 2 [[0]; [1]]
            [3; 5] [7] "no")
         (fun r => match r with
                   | Values [v] => Ok (sum [3 * ((2 - 0) * (2 - 0) + 0)
                                            + (5 * ((2 - 1) * (2 - 1) + 0) + 0);
                                            0; 7])
                   | _ => Raise TypeError
                   end).
Proof. reflexivity. Qed.

Lemma nth_map_lt {A B} (f : A -> B) (l : list A) i da db :
  (i < List.length l)%nat -> nth i (map f l) db = f (nth i l da).
Proof.
  intros Hi.
  rewrite (nth_indep (map f l) db (f da)) by (rewrite length_map; exact Hi).
  apply map_nth.
Qed.

Lemma getitem_int_nat {A} (v : list A) (j : nat) d :
  (j < List.length v)%nat -> getitem_int v (Z.of_nat j) = Ok (nth j v d).
Proof.
  intros Hj. unfold getitem_int.
  rewrite (proj2 (andb_true_iff _ _))
    by (split; [ apply Z.leb_le | apply Z.ltb_lt ]; lia).
  rewrite Nat2Z.id. unfold getitem.
  rewrite (nth_error_nth' v d Hj). reflexivity.
Qed.

Lemma nth_removelast {A} (l : list A) j d :
  (S j < List.length l)%nat -> nth j (removelast l) d = nth j l d.
Proof.
  revert j. induction l as [|x l IH]; intros j Hj; [ cbn in Hj; lia | ].
  destruct l as [|y l]; [ cbn in Hj; lia | ].
  change (removelast (x :: y :: l)) with (x :: removelast (y :: l)).
  destruct j as [|j]; [ reflexivity | ].
  cbn [nth]. apply IH. cbn [List.length] in *. lia.
Qed.

Lemma removelast_length {A} (l : list A) :
  List.length (removelast l) = (List.length l - 1)%nat.
Proof.
  induction l as [|x l IH]; [ reflexivity | ].
  destruct l as [|y l]; [ reflexivity | ].
  change (removelast (x :: y :: l)) with (x :: removelast (y :: l)).
  cbn [List.length] in *. lia.
Qed.

Lemma square_as_dot (p : vector) :
  map2 Qmult p p = map (fun d => d * d) p.
Proof.
  induction p as [|x p IH]; [ reflexivity | ].
  cbn [map2 map]. rewrite IH. reflexivity.
Qed.

Lemma sum_nonneg (l : vector) : Forall (fun x => 0 <= x) l -> 0 <= sum l.
Proof.
  induction 1 as [|x l Hx _ IH]; unfold sum in *; cbn [fold_right]; lra.
Qed.

(** The sum over positions is the dot product. *)
Lemma sum_indexed_dot (a b : vector) :
  List.length a = List.length b ->
  sum (map (fun j => nth j b 0 * nth j a 0) (seq 0 (List.length a)))
  == Euclid.dot a b.
Proof.
  revert b. induction a as [|x a IH]; intros [|y b] Hlen;
    try discriminate Hlen; [ reflexivity | ].
  cbn [List.length seq map]. rewrite <- seq_shift, map_map.
  unfold Euclid.dot. cbn [map2 sum fold_right nth].
  change (fold_right Qplus 0) with sum.
  change (sum (map2 Qmult a b)) with (Euclid.dot a b).
  rewrite IH by (cbn in Hlen; lia). ring.
Qed.

Section EvaluationLemmas.

Variables (log sqrt : Q -> Q) (GAMMA : Q).
Hypothesis sqrt_nonneg : forall x, 0 <= sqrt x.

(** On two points of one length, the checked distance is the distance of
    [cdist]. *)
Lemma euclid_distance_total (p1 p2 : vector) :
  List.length p1 = List.length p2 ->
  Euclid.distance sqrt p1 p2 = Ok (distance sqrt p1 p2).
Proof.
  intros Hlen. unfold Euclid.distance, Euclid.math_sqrt, Euclid.dot, distance.
  rewrite (proj2 (Nat.eqb_eq _ _) Hlen). cbn [bind].
  rewrite square_as_dot.
  rewrite Qlt_bool_false; [ reflexivity | ].
  apply sum_nonneg. apply Forall_forall. intros x Hx.
  apply in_map_iff in Hx. destruct Hx as (d & <- & _). nra.
Qed.

(** The basis function at every distance between the points and the
    nodes. *)
Lemma kernel_block_points settings (points node_pos : matrix) f :
  points <> [] -> node_pos <> [] ->
  (forall r, 0 <= r -> f r = Ok (basis_value log sqrt GAMMA settings r)) ->
  vectorize (Some f) (cdist sqrt points node_pos)
  = Ok (map (fun x =>
               map (fun y => basis_value log sqrt GAMMA settings
                               (distance sqrt x y)) node_pos)
            points).
Proof.
  intros Hne Hnodes Hf. unfold vectorize.
  destruct (List.concat (cdist sqrt points node_pos)) eqn:E.
  - exfalso. destruct points as [|x rest]; [ congruence | ].
    destruct node_pos as [|y others]; [ congruence | ].
    cbn in E. discriminate E.
  - unfold cdist.
    rewrite (mapM_all_ok (mapM f)
               (map (basis_value log sqrt GAMMA settings))).
    + rewrite map_map. f_equal. apply map_ext. intros x. apply map_map.
    + intros row Hrow. apply in_map_iff in Hrow. destruct Hrow as (x & <- & _).
      apply mapM_all_ok. intros d Hd. apply in_map_iff in Hd.
      destruct Hd as (y & <- & _). apply Hf. unfold distance. apply sqrt_nonneg.
Qed.

End EvaluationLemmas.

Lemma polynomial_size_cases settings (n : Z) :
  In (rbf settings) supported_kernels ->
  (get_degree_polynomial settings = 1%Z
   /\ get_size_P_matrix settings n = (n + 1)%Z)
  \/ (get_degree_polynomial settings = 0%Z
      /\ get_size_P_matrix settings n = 1%Z).
Proof.
  unfold supported_kernels, get_degree_polynomial, get_size_P_matrix.
  cbn [In]. intros [H|[H|[H|[H|[]]]]]; rewrite <- H; cbn; auto.
Qed.

Lemma in_range (k : nat) (z : Z) :
  In z (range (Z.of_nat k)) -> exists j, z = Z.of_nat j /\ (j < k)%nat.
Proof.
  unfold range. rewrite Nat2Z.id. intros H. apply in_map_iff in H.
  destruct H as (j & <- & Hj). apply in_seq in Hj. exists j. split; [ reflexivity | lia ].
Qed.

Lemma map_range {A} (f : Z -> A) (k : nat) :
  map f (range (Z.of_nat k)) = map (fun j => f (Z.of_nat j)) (seq 0 k).
Proof. unfold range. rewrite Nat2Z.id. apply map_map. Qed.

Section EvaluateValue.

Variables (log sqrt : Q -> Q) (GAMMA : Q).
Hypothesis sqrt_nonneg : forall x, 0 <= sqrt x.

(** The three parts of the value of the interpolant at one point. *)
Lemma evaluate_rbf_value settings (point : vector) (node_pos : matrix)
      (rbf_lambda rbf_h : vector) (n : nat) :
  In (rbf settings) supported_kernels ->
  List.length point = n ->
  Forall (fun row => List.length row = n) node_pos ->
  List.length rbf_lambda = List.length node_pos ->
  Z.of_nat (List.length rbf_h) = get_size_P_matrix settings (Z.of_nat n) ->
  evaluate_rbf log sqrt GAMMA settings point (Z.of_nat n)
    (Z.of_nat (List.length node_pos)) node_pos rbf_lambda rbf_h
  = Ok (sum
          [sum (map (fun j => nth j rbf_lambda 0
                              * basis_value log sqrt GAMMA settings
                                  (distance sqrt point (nth j node_pos [])))
                    (seq 0 (List.length node_pos)));
           sum (map (fun j => nth j rbf_h 0 * nth j point 0)
                    (seq 0 (List.length rbf_h - 1)));
           nth (position (List.length rbf_h) (-1)) rbf_h 0]).
Proof.
  intros Hin Hpoint Hrows Hlambda Hh.
  destruct (@basis_function_total log sqrt GAMMA settings Hin)
    as (f & Hf & Hfv).
  assert (Hp : (1 <= get_size_P_matrix settings (Z.of_nat n) <= Z.of_nat n + 1)%Z).
  { destruct (polynomial_size_cases settings (Z.of_nat n) Hin)
      as [[_ ->]|[_ ->]]; lia. }
  unfold evaluate_rbf.
  rewrite Hpoint, Hlambda, <- Hh, !Z.eqb_refl. cbn [bind]. rewrite Hf.
  rewrite (mapM_all_ok _
             (fun z => nth (Z.to_nat z) rbf_lambda 0
                       * basis_value log sqrt GAMMA settings
                           (distance sqrt point (nth (Z.to_nat z) node_pos [])))).
  2:{ intros z Hz. apply in_range in Hz. destruct Hz as (j & -> & Hj).
      rewrite Nat2Z.id.
      rewrite (getitem_int_nat rbf_lambda 0) by (rewrite Hlambda; exact Hj).
      cbn [bind].
      rewrite (getitem_int_nat node_pos []) by exact Hj. cbn [bind].
      rewrite euclid_distance_total
        by (try exact sqrt_nonneg;
            rewrite (rows_nth_length (m := n)) by assumption; exact Hpoint).
      cbn [bind call]. rewrite Hfv by (unfold distance; apply sqrt_nonneg).
      reflexivity. }
  cbn [bind].
  replace (Z.of_nat (List.length rbf_h) - 1)%Z
    with (Z.of_nat (List.length rbf_h - 1)) by lia.
  rewrite (mapM_all_ok _
             (fun z => nth (Z.to_nat z) rbf_h 0 * nth (Z.to_nat z) point 0)).
  2:{ intros z Hz. apply in_range in Hz. destruct Hz as (j & -> & Hj).
      rewrite Nat2Z.id.
      rewrite (getitem_int_nat rbf_h 0) by lia. cbn [bind].
      rewrite (getitem_int_nat point 0) by lia. reflexivity. }
  cbn [bind].
  rewrite (proj2 (Z.ltb_lt _ _)) by lia.
  rewrite getitem_int_valid by (unfold valid_index; lia).
  cbn [bind]. rewrite !map_range.
  erewrite (map_ext _ _ _ (seq 0 (List.length node_pos))).
  erewrite (map_ext _ _ _ (seq 0 (List.length rbf_h - 1))).
  reflexivity.
  Unshelve.
  - intros j. cbv beta. rewrite Nat2Z.id. reflexivity.
  - intros j. cbv beta. rewrite Nat2Z.id. reflexivity.
Qed.

End EvaluateValue.

Section BulkEvaluateValue.

Variables (log sqrt : Q -> Q) (GAMMA : Q).
Hypothesis sqrt_nonneg : forall x, 0 <= sqrt x.

(** What [bulk_evaluate_rbf] returns, part by part. *)
Lemma bulk_evaluate_rbf_value settings (points node_pos : matrix)
      (rbf_lambda rbf_h : vector) (n : nat) return_distances :
  In (rbf settings) supported_kernels ->
  (0 < n)%nat ->
  points <> [] -> Forall (fun row => List.length row = n) points ->
  node_pos <> [] -> Forall (fun row => List.length row = n) node_pos ->
  List.length rbf_lambda = List.length node_pos ->
  Z.of_nat (List.length rbf_h) = get_size_P_matrix settings (Z.of_nat n) ->
  let values :=
    map (fun v => v + nth (position (List.length rbf_h) (-1)) rbf_h 0)
        (vadd (map (fun x =>
                      Euclid.dot
                        (map (fun y => basis_value log sqrt GAMMA settings
                                         (distance sqrt x y)) node_pos)
                        rbf_lambda) points)
              (if (get_degree_polynomial settings =? 1)%Z
               then map (fun row => Euclid.dot row (removelast rbf_h)) points
               else repeat 0 (List.length points))) in
  bulk_evaluate_rbf log sqrt GAMMA settings points (Z.of_nat n)
    (Z.of_nat (List.length node_pos)) node_pos rbf_lambda rbf_h
    return_distances
  = Ok (if (return_distances =? "min")%string
        then ValuesMin values
               (map (fun row => match row with
                                | [] => 0
                                | x :: l => minimum x l
                                end) (cdist sqrt points node_pos))
        else if (return_distances =? "all")%string
             then ValuesAll values (cdist sqrt points node_pos)
             else Values values).
Proof.
  intros Hin Hn Hpoints Hprows Hnodes Hnrows Hlambda Hh values.
  destruct (@basis_function_total log sqrt GAMMA settings Hin)
    as (f & Hf & Hfv).
  destruct (size2_nonempty_rows Hpoints Hn Hprows) as [Hpsize Hpcols].
  destruct (size2_nonempty_rows Hnodes Hn Hnrows) as [_ Hncols].
  unfold bulk_evaluate_rbf, cdist_checked.
  rewrite Hpsize, Hlambda, <- Hh, !Z.eqb_refl, Hpcols, Hncols, Nat.eqb_refl, Hf.
  cbn [assert bind].
  rewrite (@kernel_block_points log sqrt GAMMA sqrt_nonneg settings points
             node_pos f Hpoints Hnodes Hfv).
  cbn [bind].
  assert (Hphi : matvec
                   (map (fun x =>
                           map (fun y => basis_value log sqrt GAMMA settings
                                           (distance sqrt x y)) node_pos)
                        points) rbf_lambda
                 = Ok (map (fun x =>
                              Euclid.dot
                                (map (fun y => basis_value log sqrt GAMMA settings
                                                 (distance sqrt x y)) node_pos)
                                rbf_lambda) points)).
  { unfold matvec. destruct points as [|x rest]; [ congruence | ].
    cbn [map columns]. rewrite length_map, Hlambda, Nat.eqb_refl.
    cbn [map]. rewrite map_map. reflexivity. }
  rewrite Hphi. cbn [bind].
  assert (Hpoly : (if (get_degree_polynomial settings =? 1)%Z
                   then matvec points (removelast rbf_h)
                   else Ok (repeat 0 (List.length points)))
                  = Ok (if (get_degree_polynomial settings =? 1)%Z
                        then map (fun row => Euclid.dot row (removelast rbf_h))
                                 points
                        else repeat 0 (List.length points))).
  { destruct (polynomial_size_cases settings (Z.of_nat n) Hin)
      as [[Hd Hp]|[Hd Hp]]; rewrite Hd; cbn [Z.eqb Pos.eqb]; [ | reflexivity ].
    unfold matvec. rewrite Hpcols, removelast_length.
    replace (List.length rbf_h - 1)%nat with n by lia.
    rewrite Nat.eqb_refl. reflexivity. }
  rewrite Hpoly. cbn [bind].
  assert (Hp : (1 <= Z.of_nat (List.length rbf_h))%Z).
  { rewrite Hh.
    destruct (polynomial_size_cases settings (Z.of_nat n) Hin)
      as [[_ ->]|[_ ->]]; lia. }
  rewrite (proj2 (Z.ltb_lt _ _)) by lia.
  rewrite getitem_int_valid by (unfold valid_index; lia).
  cbn [bind]. fold values.
  destruct (return_distances =? "min")%string;
    [ | destruct (return_distances =? "all")%string; reflexivity ].
  rewrite (mapM_all_ok amin
             (fun row => match row with
                         | [] => 0
                         | x :: l => minimum x l
                         end)).
  - reflexivity.
  - intros row Hrow. unfold cdist in Hrow. apply in_map_iff in Hrow.
    destruct Hrow as (x & <- & _).
    destruct node_pos as [|y others]; [ congruence | reflexivity ].
Qed.

End BulkEvaluateValue.

Lemma values_of_modes (return_distances : string) values min_dist dist_mat :
  values_of (if (return_distances =? "min")%string
             then ValuesMin values min_dist
             else if (return_distances =? "all")%string
                  then ValuesAll values dist_mat
                  else Values values)
  = values.
Proof.
  destruct (return_distances =? "min")%string; [ reflexivity | ].
  destruct (return_distances =? "all")%string; reflexivity.
Qed.

(** The sum over the nodes is the dot product of the basis values with the
    coefficients. *)
Lemma kernel_sum_as_dot (B : vector -> Q) (node_pos : matrix)
      (rbf_lambda : vector) :
  List.length rbf_lambda = List.length node_pos ->
  sum (map (fun j => nth j rbf_lambda 0 * B (nth j node_pos []))
           (seq 0 (List.length node_pos)))
  == Euclid.dot (map B node_pos) rbf_lambda.
Proof.
  intros Hlen.
  rewrite <- sum_indexed_dot by (rewrite length_map; symmetry; exact Hlen).
  rewrite length_map.
  rewrite (map_ext_in
             (fun j => nth j rbf_lambda 0 * B (nth j node_pos []))
             (fun j => nth j rbf_lambda 0 * nth j (map B node_pos) 0));
    [ reflexivity | ].
  intros j Hj. apply in_seq in Hj.
  rewrite (@nth_map_lt _ _ B node_pos j [] 0) by exact (proj2 Hj).
  reflexivity.
Qed.

(** The sum over the coordinates is the dot product with all but the last
    polynomial coefficient. *)
Lemma linear_sum_as_dot (point rbf_h : vector) :
  List.length rbf_h = S (List.length point) ->
  sum (map (fun j => nth j rbf_h 0 * nth j point 0)
           (seq 0 (List.length rbf_h - 1)))
  == Euclid.dot point (removelast rbf_h).
Proof.
  intros Hlen.
  rewrite <- sum_indexed_dot by (rewrite removelast_length; lia).
  replace (List.length rbf_h - 1)%nat with (List.length point) by lia.
  rewrite (map_ext_in
             (fun j => nth j rbf_h 0 * nth j point 0)
             (fun j => nth j (removelast rbf_h) 0 * nth j point 0));
    [ reflexivity | ].
  intros j Hj. apply in_seq in Hj.
  rewrite nth_removelast by lia. reflexivity.
Qed.

(** [bulk_evaluate_rbf] agrees with [evaluate_rbf]: for a supported kernel,
    points and nodes of dimension [n >= 1], at least one point and one
    node, and coefficient arrays of the asserted lengths, the bulk function
    returns one value per point, whatever [return_distances] is, and the
    value at position [i] is the one [evaluate_rbf] returns for point [i].
    (The square root is taken never to be negative.) *)
Theorem bulk_evaluate_rbf_pointwise log sqrt GAMMA settings
        (points node_pos : matrix) (rbf_lambda rbf_h : vector) (n : nat)
        (return_distances : string) :
  (forall x, 0 <= sqrt x) ->
  In (rbf settings) supported_kernels ->
  (0 < n)%nat ->
  points <> [] -> Forall (fun row => List.length row = n) points ->
  node_pos <> [] -> Forall (fun row => List.length row = n) node_pos ->
  List.length rbf_lambda = List.length node_pos ->
  Z.of_nat (List.length rbf_h) = get_size_P_matrix settings (Z.of_nat n) ->
  exists r,
    bulk_evaluate_rbf log sqrt GAMMA settings points (Z.of_nat n)
      (Z.of_nat (List.length node_pos)) node_pos rbf_lambda rbf_h
      return_distances = Ok r
    /\ List.length (values_of r) = List.length points
    /\ forall i, (i < List.length points)%nat ->
         exists v,
           evaluate_rbf log sqrt GAMMA settings (nth i points []) (Z.of_nat n)
             (Z.of_nat (List.length node_pos)) node_pos rbf_lambda rbf_h
           = Ok v
           /\ v == nth i (values_of r) 0.
Proof.
  intros Hsqrt Hin Hn Hpoints Hprows Hnodes Hnrows Hlambda Hh.
  eexists. split.
  { exact (@bulk_evaluate_rbf_value log sqrt GAMMA Hsqrt settings points
             node_pos rbf_lambda rbf_h n return_distances Hin Hn Hpoints
             Hprows Hnodes Hnrows Hlambda Hh). }
  rewrite values_of_modes.
  assert (Hlen2 : List.length
                    (if (get_degree_polynomial settings =? 1)%Z
                     then map (fun row => Euclid.dot row (removelast rbf_h))
                              points
                     else repeat 0 (List.length points))
                  = List.length points).
  { destruct (get_degree_polynomial settings =? 1)%Z;
      [ apply length_map | apply repeat_length ]. }
  assert (Hlen1 : List.length
                    (map (fun x =>
                            Euclid.dot
                              (map (fun y => basis_value log sqrt GAMMA settings
                                               (distance sqrt x y)) node_pos)
                              rbf_lambda) points)
                  = List.length points) by apply length_map.
  pose proof (eq_trans Hlen1 (eq_sym Hlen2)) as Hsame.
  split.
  { rewrite length_map. unfold vadd.
    rewrite map2_length by exact Hsame.
    exact Hlen1. }
  intros i Hi.
  assert (Hpoint : List.length (nth i points []) = n)
    by (apply rows_nth_length; assumption).
  eexists. split.
  { exact (@evaluate_rbf_value log sqrt GAMMA Hsqrt settings (nth i points [])
             node_pos rbf_lambda rbf_h n Hin Hpoint Hnrows Hlambda Hh). }
  rewrite (@nth_map_lt _ _ _ _ i 0 0)
    by (unfold vadd; rewrite map2_length by exact Hsame;
        exact (eq_ind_r (fun m => (i < m)%nat) Hi Hlen1)).
  unfold vadd.
  match goal with
  | |- _ == ?rhs =>
      assert (Hv : rhs
                   = Euclid.dot
                       (map (fun y => basis_value log sqrt GAMMA settings
                                        (distance sqrt (nth i points []) y))
                            node_pos) rbf_lambda
                     + (if (get_degree_polynomial settings =? 1)%Z
                        then Euclid.dot (nth i points []) (removelast rbf_h)
                        else 0)
                     + nth (position (List.length rbf_h) (-1)) rbf_h 0)
  end.
  { f_equal.
    etransitivity;
      [ exact (@map2_nth _ _ _ Qplus _ _ i 0 0 0 Hsame
                 (eq_ind_r (fun m => (i < m)%nat) Hi Hlen1)) | ].
    f_equal.
    - exact (@nth_map_lt _ _ _ points i [] 0 Hi).
    - destruct (get_degree_polynomial settings =? 1)%Z.
      + exact (@nth_map_lt _ _ _ points i [] 0 Hi).
      + apply nth_repeat. }
  rewrite Hv.
  unfold sum at 1. cbn [fold_right].
  pose proof (@kernel_sum_as_dot
                (fun y => basis_value log sqrt GAMMA settings
                            (distance sqrt (nth i points []) y))
                node_pos rbf_lambda Hlambda) as Hkernel.
  cbv beta in Hkernel. rewrite Hkernel.
  destruct (polynomial_size_cases settings (Z.of_nat n) Hin)
    as [[Hd Hp]|[Hd Hp]]; rewrite Hd; cbn [Z.eqb Pos.eqb].
  - assert (Hcoefficients : List.length rbf_h = S (List.length (nth i points [])))
      by lia.
    rewrite (@linear_sum_as_dot (nth i points []) rbf_h Hcoefficients). ring.
  - replace (List.length rbf_h - 1)%nat with 0%nat by lia.
    cbn [seq map sum fold_right]. ring.
Qed.

Lemma bulk_evaluate_rbf_pointwise_witness :
  exists r,
    bulk_evaluate_rbf (fun x => x) (fun x => x * x) 1
      (example_settings "cubic" "off" "off" "off") [[2]; [3]] 1 2
      [[0]; [1]] [3; 5] [7; 11] "min" = Ok r
    /\ exists v,
         evaluate_rbf (fun x => x) (fun x => x * x) 1
           (example_settings "cubic" "off" "off" "off") [3] 1 2
           [[0]; [1]] [3; 5] [7; 11] = Ok v
         /\ v == nth 1 (values_of r) 0.
Proof.
  destruct (@bulk_evaluate_rbf_pointwise (fun x => x) (fun x => x * x) 1
              (example_settings "cubic" "off" "off" "off") [[2]; [3]]
              [[0]; [1]] [3; 5] [7; 11] 1%nat "min")
    as (r & Hrun & _ & Hvalues).
  - intros x. nra.
  - cbn. tauto.
  - lia.
  - discriminate.
  - repeat constructor.
  - discriminate.
  - repeat constructor.
  - reflexivity.
  - reflexivity.
  - exists r. split; [ exact Hrun | ]. apply (Hvalues 1%nat). cbn. lia.
Defined.

(** With [return_distances = 'min'], the second array [bulk_evaluate_rbf]
    returns is the array of [bulk_get_min_distance] for the same points and
    nodes. *)
Theorem bulk_evaluate_rbf_min_distances log sqrt GAMMA settings
        (points node_pos : matrix) (rbf_lambda rbf_h : vector) (n : nat) :
  (forall x, 0 <= sqrt x) ->
  In (rbf settings) supported_kernels ->
  (0 < n)%nat ->
  points <> [] -> Forall (fun row => List.length row = n) points ->
  node_pos <> [] -> Forall (fun row => List.length row = n) node_pos ->
  List.length rbf_lambda = List.length node_pos ->
  Z.of_nat (List.length rbf_h) = get_size_P_matrix settings (Z.of_nat n) ->
  exists values min_dist,
    bulk_evaluate_rbf log sqrt GAMMA settings points (Z.of_nat n)
      (Z.of_nat (List.length node_pos)) node_pos rbf_lambda rbf_h "min"
    = Ok (ValuesMin values min_dist)
    /\ bulk_get_min_distance sqrt points node_pos = Ok min_dist.
Proof.
  intros Hsqrt Hin Hn Hpoints Hprows Hnodes Hnrows Hlambda Hh.
  rewrite (@bulk_evaluate_rbf_value log sqrt GAMMA Hsqrt settings points
             node_pos rbf_lambda rbf_h n "min" Hin Hn Hpoints
             Hprows Hnodes Hnrows Hlambda Hh).
  cbn [String.eqb Ascii.eqb Bool.eqb].
  eexists. eexists. split; [ reflexivity | ].
  destruct (size2_nonempty_rows Hpoints Hn Hprows) as [Hpsize Hpcols].
  destruct (size2_nonempty_rows Hnodes Hn Hnrows) as [Hnsize Hncols].
  unfold bulk_get_min_distance, cdist_checked.
  rewrite Hpsize, Hnsize, Hpcols, Hncols, Nat.eqb_refl.
  destruct points as [|p ps]; [ congruence | ].
  destruct node_pos as [|o os]; [ congruence | ].
  cbn [assert getitem nth_error bind columns] in *.
  rewrite Hpcols, Hncols, Nat.eqb_refl. cbn [assert bind].
  apply mapM_all_ok. intros row Hrow. unfold cdist in Hrow.
  apply in_map_iff in Hrow. destruct Hrow as (x & <- & _). reflexivity.
Qed.

Lemma bulk_evaluate_rbf_min_distances_witness :
  exists values min_dist,
    bulk_evaluate_rbf (fun x => x) (fun x => x * x) 1
      (example_settings "linear" "off" "off" "off") [[2]; [3]] 1 2
      [[0]; [1]] [3; 5] [7] "min" = Ok (ValuesMin values min_dist)
    /\ bulk_get_min_distance (fun x => x * x) [[2]; [3]] [[0]; [1]]
       = Ok min_dist.
Proof.
  apply (@bulk_evaluate_rbf_min_distances (fun x => x) (fun x => x * x) 1
              (example_settings "linear" "off" "off" "off") [[2]; [3]]
              [[0]; [1]] [3; 5] [7] 1%nat).
  - intros x. nra.
  - cbn. tauto.
  - lia.
  - discriminate.
  - repeat constructor.
  - discriminate.
  - repeat constructor.
  - reflexivity.
  - reflexivity.
Defined.
